(** * Simple calculator (src/main.cpp)

    A shallow embedding of the lexer ([Token_stream]), the symbol table
    ([Symbol_table]), the recursive-descent evaluator chain
    ([expression] / [term] / [secondary] / [primary]), the statement
    dispatcher and the read-evaluate loop ([calculate]), followed by the
    properties established about them.

    Conventions of the embedding:
    - [double] is IEEE 754 binary64, taken from the executable
      specification [SpecFloat] of the standard library (round to nearest,
      ties to even);
    - [int] is a 32-bit two's complement integer, carried as a [Z]; an
      operation on [int]s whose exact result is not an [int] (signed
      overflow) has no defined result, and neither has a conversion to
      [int] of a value that [int] cannot hold;
    - [cin] is the list of characters not yet read together with the fail
      flag of the stream;
    - a C++ function that reads or writes the token stream, [cin] or the
      global [symbols] is a function from [State] to a result [Res], which
      records normal return, a thrown [runtime_error], a loop that never
      exits, undefined behaviour, or exhaustion of the recursion fuel. *)

From Stdlib Require Import ZArith List String Ascii Bool Lia.
From Stdlib Require Import Floats.SpecFloat.
Import ListNotations.

Local Open Scope Z_scope.

(* ================================================================= *)
(** ** double: IEEE 754 binary64 *)

Module Double.

Definition prec : Z := 53.
Definition emax : Z := 1024.

Definition double : Set := spec_float.

Definition zero : double := S754_zero false.
Definition nan : double := S754_nan.

Definition add : double -> double -> double := SFadd prec emax.
Definition sub : double -> double -> double := SFsub prec emax.
Definition mul : double -> double -> double := SFmul prec emax.
Definition div : double -> double -> double := SFdiv prec emax.
Definition neg : double -> double := SFopp.
Definition eqb : double -> double -> bool := SFeqb.
Definition ltb : double -> double -> bool := SFltb.

(** [std::sqrt]: correctly rounded, as IEEE 754 requires. *)
Definition sqrt : double -> double := SFsqrt prec emax.

(** Conversion of an integer (exact for every 32-bit [int]). *)
Definition of_Z (z : Z) : double := binary_normalize prec emax z 0 false.

(** The correctly rounded quotient of two positive integers. *)
Definition of_ratio (p q : positive) : double :=
  let '(mz, ez, lz) := SFdiv_core_binary prec emax (Zpos p) 0 (Zpos q) 0 in
  binary_round_aux prec emax false mz ez lz.

(** The double nearest to the decimal [m * 10^e], [0 <= m]: the value of a
    decimal literal of the source text and of a decimal number read from
    the input. *)
Definition of_decimal (m e : Z) : double :=
  match m with
  | Z0 => zero
  | Zpos p =>
      match e with
      | Zneg k => of_ratio p (10 ^ k)%positive
      | _ => of_Z (m * 10 ^ e)
      end
  | Zneg _ => nan
  end.

Definition max_float : double := SFmax_float prec emax.

Definition is_infinite (d : double) : bool :=
  match d with S754_infinity _ => true | _ => false end.

(** The integer obtained from a finite value by dropping its fractional
    part (rounding toward zero). *)
Definition trunc (d : double) : option Z :=
  match d with
  | S754_zero _ => Some 0
  | S754_finite s m e =>
      let a := match e with
               | Zneg k => Z.pos m / 2 ^ Z.pos k
               | _ => Z.pos m * 2 ^ e
               end in
      Some (if s then - a else a)
  | _ => None
  end.

(** [std::fmod]: the exact remainder [x - n*y], [n] the quotient [x/y]
    rounded toward zero; the result has the sign of [x].  The remainder of
    two doubles is always a double, so no rounding takes place. *)
Definition fmod (x y : double) : double :=
  match x, y with
  | S754_nan, _ | _, S754_nan => S754_nan
  | S754_infinity _, _ => S754_nan
  | _, S754_zero _ => S754_nan
  | S754_zero _, _ => x
  | S754_finite _ _ _, S754_infinity _ => x
  | S754_finite sx mx ex, S754_finite _ my ey =>
      let e := Z.min ex ey in
      let a := Z.pos mx * 2 ^ (ex - e) in
      let b := Z.pos my * 2 ^ (ey - e) in
      binary_normalize prec emax (cond_Zopp sx (a mod b)) e sx
  end.

End Double.

Abbreviation double := Double.double.

(* ================================================================= *)
(** ** int: 32-bit two's complement *)

Definition INT_MIN : Z := - 2 ^ 31.
Definition INT_MAX : Z := 2 ^ 31 - 1.

Definition in_int (z : Z) : bool := (INT_MIN <=? z) && (z <=? INT_MAX).

(** [static_cast<int>(d)]: the fractional part is discarded; the conversion
    has no defined result when the truncated value is not an [int] (and for
    NaN and the infinities). *)
Definition static_cast_int (d : double) : option Z :=
  match Double.trunc d with
  | Some z => if in_int z then Some z else None
  | None => None
  end.

(* ================================================================= *)
(** ** <cctype> in the "C" locale *)

Definition code (c : ascii) : Z := Z.of_N (N_of_ascii c).

Definition isspace (c : ascii) : bool :=
  ((9 <=? code c) && (code c <=? 13)) || (code c =? 32).

Definition isdigit (c : ascii) : bool :=
  (48 <=? code c) && (code c <=? 57).

Definition isalpha (c : ascii) : bool :=
  ((65 <=? code c) && (code c <=? 90)) || ((97 <=? code c) && (code c <=? 122)).

Definition newline : ascii := "010"%char.

(* ================================================================= *)
(** ** std::cin *)

(** The characters not yet extracted and the fail flag ([!cin]).  Once the
    flag is set every extraction and every putback fails. *)
Record istream : Set := mk_istream { chars : string; failed : bool }.

(** [cin.putback(ch)]. *)
Definition cin_putback (c : ascii) (s : istream) : istream :=
  if failed s then s else mk_istream (String c (chars s)) false.

(** *** [cin >> val] for a [double]

    The extraction collects the longest prefix of the shape
    [digits] [. digits] [(e|E) [+|-] digits] and converts it; when the prefix
    has no mantissa digit, or has an exponent mark without exponent digits,
    the stream fails and the value read is 0; when the number is too large
    for a double the stream fails and the value read is the largest
    double. *)

Fixpoint take_digits (input : string) : list Z * string :=
  match input with
  | String c rest =>
      if isdigit c then
        let '(ds, rest') := take_digits rest in (code c - 48 :: ds, rest')
      else ([], input)
  | EmptyString => ([], input)
  end.

Definition digits_value (ds : list Z) : Z :=
  fold_left (fun acc d => 10 * acc + d) ds 0.

Definition take_point (input : string) : bool * string :=
  match input with
  | String "."%char rest => (true, rest)
  | _ => (false, input)
  end.

(** The exponent part: [None] when there is none, [Some (sign, digits)]
    when an exponent mark was consumed. *)
Definition take_exponent (input : string)
  : option (bool * list Z) * string :=
  match input with
  | String c rest =>
      if (c =? "e")%char || (c =? "E")%char then
        match rest with
        | String "+"%char rest' =>
            let '(ds, r) := take_digits rest' in (Some (false, ds), r)
        | String "-"%char rest' =>
            let '(ds, r) := take_digits rest' in (Some (true, ds), r)
        | _ =>
            let '(ds, r) := take_digits rest in (Some (false, ds), r)
        end
      else (None, input)
  | EmptyString => (None, input)
  end.

Definition extract_double (s : istream) : double * istream :=
  if failed s then (Double.zero, s)
  else
    let '(ip, r1) := take_digits (chars s) in
    let '(point, r2) := take_point r1 in
    let '(fp, r3) := if point : bool then take_digits r2 else ([], r2) in
    let mantissa := (ip ++ fp)%list in
    match mantissa with
    | [] => (Double.zero, mk_istream r3 true)
    | _ :: _ =>
        let '(ex, r4) := take_exponent r3 in
        let scale := - Z.of_nat (List.length fp) in
        match ex with
        | Some (_, []) => (Double.zero, mk_istream r4 true)
        | _ =>
            let e10 := match ex with
                       | Some (sgn, ds) =>
                           if sgn : bool then - digits_value ds
                           else digits_value ds
                       | None => 0
                       end in
            let v := Double.of_decimal (digits_value mantissa) (scale + e10) in
            if Double.is_infinite v
            then (Double.max_float, mk_istream r4 true)
            else (v, mk_istream r4 false)
        end
    end.

(* ================================================================= *)
(** ** Tokens *)

(** [class Token]: [kind], the numerical [value] when [kind] is
    [t_number], the [name] when [kind] is [t_name]. *)
Record Token : Set := mk_Token { kind : ascii; value : double; name : string }.

(** The constructors [Token{ch}], [Token{ch, val}] and [Token{ch, n}]. *)
Definition Token_kind (ch : ascii) : Token := mk_Token ch Double.zero EmptyString.
Definition Token_value (ch : ascii) (val : double) : Token :=
  mk_Token ch val EmptyString.
Definition Token_name (ch : ascii) (n : string) : Token :=
  mk_Token ch Double.zero n.

(** Token kinds. *)
Definition t_number : ascii := "8".
Definition t_print : ascii := ";".
Definition t_name : ascii := "a".
Definition t_quit : ascii := "q".
Definition t_sqrt : ascii := "S".
Definition t_pow : ascii := "P".
Definition t_decl : ascii := "#".
Definition t_assign : ascii := "=".
Definition t_const : ascii := "C".
Definition t_help : ascii := "h".
Definition t_symbols : ascii := "$".

(** Keywords and calculator functions. *)
Definition quitkey : string := "quit".
Definition declkey : string := "let".
Definition constkey : string := "const".
Definition helpkey : string := "help".
Definition symbkey : string := "symbols".
Definition sqrtkey : string := "sqrt".
Definition powkey : string := "pow".

(* ================================================================= *)
(** ** Program state and results *)

(** [class Variable]: a (name, value) pair and its constant flag. *)
Record Var : Set := mk_Var { var_name : string; var_value : double; var_constant : bool }.

(** [Symbol_table::var_table], in declaration order. *)
Definition Symbol_table : Set := list Var.

(** The token buffer of the [Token_stream] (the back of the vector is the
    head of the list), [cin], and the global [symbols]. *)
Record State : Set := mk_State { buffer : list Token; cin : istream; symbols : Symbol_table }.

Definition set_buffer (b : list Token) (st : State) : State :=
  mk_State b (cin st) (symbols st).
Definition set_cin (s : istream) (st : State) : State :=
  mk_State (buffer st) s (symbols st).
Definition set_symbols (t : Symbol_table) (st : State) : State :=
  mk_State (buffer st) (cin st) t.

(** The outcome of running a function on a state. *)
Inductive Res (A : Type) : Type :=
| Val (a : A) (st : State)          (* normal return *)
| Throw (msg : string) (st : State) (* a runtime_error, with the state it leaves *)
| Hang                              (* a loop that never exits *)
| Undefined                         (* undefined behaviour *)
| OutOfFuel.                        (* the recursion bound of the model was reached *)

Arguments Val {A} a st.
Arguments Throw {A} msg st.
Arguments Hang {A}.
Arguments Undefined {A}.
Arguments OutOfFuel {A}.

Definition M (A : Type) : Type := State -> Res A.

Definition ret {A} (a : A) : M A := fun st => Val a st.
Definition throw {A} (msg : string) : M A := fun st => Throw msg st.
Definition bind {A B} (m : M A) (k : A -> M B) : M B :=
  fun st =>
    match m st with
    | Val a st' => k a st'
    | Throw msg st' => Throw msg st'
    | Hang => Hang
    | Undefined => Undefined
    | OutOfFuel => OutOfFuel
    end.

Notation "x <- m ;; k" := (bind m (fun x => k))
  (at level 61, m at next level, right associativity).
Notation "m ;;; k" := (bind m (fun _ => k))
  (at level 61, right associativity).

(** A function that touches no state either returns or throws. *)
Definition except (A : Type) : Type := (string + A)%type.

Definition raise {A} (r : except A) : M A :=
  fun st =>
    match r with
    | inl msg => Throw msg st
    | inr a => Val a st
    end.

(* ================================================================= *)
(** ** Token_stream *)

(** [Token_stream::putback]. *)
Definition putback (t : Token) : M unit :=
  fun st => Val tt (set_buffer (t :: buffer st) st).

(** The loop [while (isspace(ch) && ch != '\n') cin.get(ch)] of [get], which
    starts from [ch = ' '].  It returns the first character that is not a
    blank and what follows it; when the input runs out [cin.get] fails, [ch]
    stays a blank and the loop never exits ([None]). *)
Fixpoint skip_blanks (input : string) : option (ascii * string) :=
  match input with
  | EmptyString => None
  | String ch rest =>
      if isspace ch && negb (ch =? newline)%char then skip_blanks rest
      else Some (ch, rest)
  end.

(** The characters that represent themselves. *)
Definition self_kinds : list ascii :=
  [t_decl; t_quit; t_assign; "("; ")"; "{"; "}"; ","; "+"; "-"; "*"; "/"; "!"]%char.

Definition is_self_kind (ch : ascii) : bool := existsb (Ascii.eqb ch) self_kinds.

Definition is_name_char (ch : ascii) : bool :=
  isalpha ch || isdigit ch || (ch =? "_")%char.

(** The loop [while (cin.get(ch) && (isalpha(ch) || isdigit(ch) || ch == '_'))
    s += ch;] followed by [cin.putback(ch)]: the characters accumulated and
    the stream left.  When the input runs out, [cin.get] fails and so does
    the putback. *)
Fixpoint read_name (input : string) : string * istream :=
  match input with
  | EmptyString => (EmptyString, mk_istream EmptyString true)
  | String ch rest =>
      if is_name_char ch then
        let '(s, is') := read_name rest in (String ch s, is')
      else (EmptyString, mk_istream input false)
  end.

(** The chain of comparisons of the accumulated string with the keywords. *)
Definition keyword_token (s : string) : Token :=
  if (s =? constkey)%string then Token_kind t_const
  else if (s =? declkey)%string then Token_kind t_decl
  else if (s =? sqrtkey)%string then Token_kind t_sqrt
  else if (s =? powkey)%string then Token_kind t_pow
  else if (s =? helpkey)%string then Token_kind t_help
  else if (s =? symbkey)%string then Token_kind t_symbols
  else if (s =? quitkey)%string then Token_kind t_quit
  else Token_name t_name s.

(** The words that [get] turns into a keyword token when they are read as a
    word, with the kind of the token. *)
Definition word_keywords : list (string * ascii) :=
  [ (constkey, t_const); (declkey, t_decl); (sqrtkey, t_sqrt);
    (powkey, t_pow); (helpkey, t_help); (symbkey, t_symbols) ].

(** [Token_stream::get]. *)
Definition get : M Token :=
  fun st =>
    match buffer st with
    | t :: b => Val t (set_buffer b st)
    | [] =>
        if failed (cin st) then Hang
        else
          match skip_blanks (chars (cin st)) with
          | None => Hang
          | Some (ch, rest) =>
              let st1 := set_cin (mk_istream rest false) st in
              if (ch =? t_print)%char || (ch =? newline)%char then
                Val (Token_kind t_print) st1
              else if is_self_kind ch then Val (Token_kind ch) st1
              else if (ch =? ".")%char || isdigit ch then
                let '(val, is') := extract_double (cin_putback ch (cin st1)) in
                Val (Token_value t_number val) (set_cin is' st)
              else if isalpha ch then
                let '(s, is') := read_name rest in
                Val (keyword_token (String ch s)) (set_cin is' st)
              else Throw "bad token" st1
          end
    end.

(** The first loop of [Token_stream::ignore]: tokens are popped from the
    buffer until one of kind [c] is at its back. *)
Fixpoint ignore_buffer (c : ascii) (b : list Token) : list Token :=
  match b with
  | [] => []
  | t :: b' => if (kind t =? c)%char then b else ignore_buffer c b'
  end.

(** The second loop, [while (cin >> ch) if (ch == c) return;], on a stream
    that has not failed. *)
Fixpoint ignore_chars (c : ascii) (input : string) : istream :=
  match input with
  | EmptyString => mk_istream EmptyString true
  | String ch rest =>
      if isspace ch then ignore_chars c rest
      else if (ch =? c)%char then mk_istream rest false
      else ignore_chars c rest
  end.

(** [Token_stream::ignore]; it returns normally from every state. *)
Definition ignore (c : ascii) (st : State) : State :=
  match ignore_buffer c (buffer st) with
  | t :: b => set_buffer (t :: b) st
  | [] =>
      let st1 := set_buffer [] st in
      if failed (cin st) then st1
      else set_cin (ignore_chars c (chars (cin st))) st1
  end.

(* ================================================================= *)
(** ** Symbol_table *)

Definition named (s : string) (v : Var) : bool := (var_name v =? s)%string.

(** [Symbol_table::get_value]. *)
Definition get_value (s : string) : M double :=
  fun st =>
    match find (named s) (symbols st) with
    | Some v => Val (var_value v) st
    | None => Throw ("trying to read undefined variable " ++ s) st
    end.

(** The loop of [Symbol_table::set_value] over the table: the error message
    or the table after the write. *)
Fixpoint set_value_in (tbl : Symbol_table) (s : string) (d : double)
  : string + Symbol_table :=
  match tbl with
  | [] => inl ("trying to write undefined variable " ++ s)%string
  | v :: rest =>
      if named s v then
        if var_constant v then inl "trying to write to constant"%string
        else inr (mk_Var (var_name v) d (var_constant v) :: rest)
      else
        match set_value_in rest s d with
        | inl msg => inl msg
        | inr rest' => inr (v :: rest')
        end
  end.

(** [Symbol_table::set_value]. *)
Definition set_value (s : string) (d : double) : M unit :=
  fun st =>
    match set_value_in (symbols st) s d with
    | inl msg => Throw msg st
    | inr tbl => Val tt (set_symbols tbl st)
    end.

(** [Symbol_table::is_declared]. *)
Definition is_declared (var : string) : M bool :=
  fun st => Val (existsb (named var) (symbols st)) st.

(** [Symbol_table::define_name]. *)
Definition define_name (var : string) (val : double) (constant : bool) : M double :=
  declared <- is_declared var ;;
  if declared : bool then throw (var ++ " declared twice")
  else fun st => Val val (set_symbols (symbols st ++ [mk_Var var val constant]) st).

(* ================================================================= *)
(** ** factorial *)

(** The loop [for (int i = x-1; i > 0; --i)] of [factorial], entered with
    [i = n].  The product [x *= i] of two [int]s has no defined result when
    it is not an [int]; the test [prev != 0 && x/prev != i] comes after the
    product and is reached with a product that is one.  [None]: the product
    is undefined; [Some (inl _)]: the test throws; [Some (inr x)]: the loop
    ends with [x]. *)
Fixpoint factorial_loop (n : nat) (x : Z) : option (except Z) :=
  match n with
  | O => Some (inr x)
  | S n' =>
      let i := Z.of_nat n in
      let prev := x in
      if in_int (x * i) then
        let x := x * i in
        if negb (prev =? 0) && negb (Z.quot x prev =? i)
        then Some (inl "overflow occurred in int."%string)
        else factorial_loop n' x
      else None
  end.

(** [factorial]: [None] when the loop runs into the undefined product,
    otherwise the exception thrown or the value returned. *)
Definition factorial (x : Z) : option (except double) :=
  if x <? 0 then Some (inl "cannot get factorial of negative number."%string)
  else
    let x := if x =? 0 then 1 else x in
    match factorial_loop (Z.to_nat (x - 1)) x with
    | None => None
    | Some (inl msg) => Some (inl msg)
    | Some (inr x) => Some (inr (Double.of_Z x))
    end.

(* ================================================================= *)
(** ** The grammar as syntax trees *)

(** The productions of Expression, Term, Secondary and Primary of the
    grammar, one constructor each.  A binary operator has the same level on
    its left and the next level on its right, which is what left
    associativity means, and the levels are nested in the order
    unary/grouping/call, [!], [* / %], [+ -]. *)
Inductive Expression : Set :=
| E_term (t : Term)
| E_plus (e : Expression) (t : Term)
| E_minus (e : Expression) (t : Term)
with Term : Set :=
| T_secondary (s : Secondary)
| T_times (t : Term) (s : Secondary)
| T_divide (t : Term) (s : Secondary)
| T_modulo (t : Term) (s : Secondary)
with Secondary : Set :=
| S_primary (p : Primary)
| S_factorial (s : Secondary)
with Primary : Set :=
| P_number (d : double)
| P_paren (e : Expression)
| P_brace (e : Expression)
| P_minus (p : Primary)
| P_plus (p : Primary)
| P_name (s : string)
| P_sqrt (e : Expression)
| P_pow (e1 e2 : Expression).

Scheme Expression_mut := Induction for Expression Sort Prop
  with Term_mut := Induction for Term Sort Prop
  with Secondary_mut := Induction for Secondary Sort Prop
  with Primary_mut := Induction for Primary Sort Prop.

Combined Scheme grammar_mutind
  from Expression_mut, Term_mut, Secondary_mut, Primary_mut.

(** The tokens of a tree, in the order of the input. *)
Fixpoint tokens_E (e : Expression) : list Token :=
  match e with
  | E_term t => tokens_T t
  | E_plus e t => tokens_E e ++ Token_kind "+" :: tokens_T t
  | E_minus e t => tokens_E e ++ Token_kind "-" :: tokens_T t
  end
with tokens_T (t : Term) : list Token :=
  match t with
  | T_secondary s => tokens_S s
  | T_times t s => tokens_T t ++ Token_kind "*" :: tokens_S s
  | T_divide t s => tokens_T t ++ Token_kind "/" :: tokens_S s
  | T_modulo t s => tokens_T t ++ Token_kind "%" :: tokens_S s
  end
with tokens_S (s : Secondary) : list Token :=
  match s with
  | S_primary p => tokens_P p
  | S_factorial s => tokens_S s ++ [Token_kind "!"]
  end
with tokens_P (p : Primary) : list Token :=
  match p with
  | P_number d => [Token_value t_number d]
  | P_paren e => Token_kind "(" :: tokens_E e ++ [Token_kind ")"]
  | P_brace e => Token_kind "{" :: tokens_E e ++ [Token_kind "}"]
  | P_minus p => Token_kind "-" :: tokens_P p
  | P_plus p => Token_kind "+" :: tokens_P p
  | P_name s => [Token_name t_name s]
  | P_sqrt e => Token_kind t_sqrt :: Token_kind "(" :: tokens_E e ++ [Token_kind ")"]
  | P_pow e1 e2 =>
      Token_kind t_pow :: Token_kind "(" :: tokens_E e1
        ++ Token_kind "," :: tokens_E e2 ++ [Token_kind ")"]
  end.

(** The tree of [2+3*4]. *)
Definition two_plus_three_times_four : Expression :=
  E_plus (E_term (T_secondary (S_primary (P_number (Double.of_Z 2)))))
         (T_times (T_secondary (S_primary (P_number (Double.of_Z 3))))
                  (S_primary (P_number (Double.of_Z 4)))).

(** The tokens after which the loop of [secondary], of [term] and of
    [expression] returns: none of the operators of the level, nor of the
    levels that bind tighter. *)
Definition ends_secondary (t : Token) : bool := negb (kind t =? "!")%char.

Definition ends_term (t : Token) : bool :=
  ends_secondary t
  && negb (kind t =? "*")%char && negb (kind t =? "/")%char
  && negb (kind t =? "%")%char.

Definition ends_expression (t : Token) : bool :=
  ends_term t && negb (kind t =? "+")%char && negb (kind t =? "-")%char.

(** [n] successive calls of [get]: the tokens returned and the state left,
    when none of the calls throws or hangs. *)
Fixpoint lex (n : nat) (st : State) : option (list Token * State) :=
  match n with
  | O => Some ([], st)
  | S n' =>
      match get st with
      | Val t st1 =>
          match lex n' st1 with
          | Some (ts, st2) => Some (t :: ts, st2)
          | None => None
          end
      | _ => None
      end
  end.

(** From [st], the calls of [get] return the tokens [toks] one after the
    other and leave [st']. *)
Definition delivers (st : State) (toks : list Token) (st' : State) : Prop :=
  lex (List.length toks) st = Some (toks, st').

(* ================================================================= *)
(** ** Sequences of calls on the symbol table *)

Inductive Call : Set :=
| Call_define_name (var : string) (val : double) (constant : bool)
| Call_set_value (s : string) (d : double)
| Call_get_value (s : string)
| Call_is_declared (var : string).

(** The state a call leaves, whether it returns or throws. *)
Definition state_after {A} (r : Res A) (st : State) : State :=
  match r with
  | Val _ st' => st'
  | Throw _ st' => st'
  | _ => st
  end.

Definition run_call (c : Call) (st : State) : State :=
  match c with
  | Call_define_name var val constant =>
      state_after (define_name var val constant st) st
  | Call_set_value s d => state_after (set_value s d st) st
  | Call_get_value s => state_after (get_value s st) st
  | Call_is_declared var => state_after (is_declared var st) st
  end.

Definition run_calls (cs : list Call) (st : State) : State :=
  fold_left (fun st c => run_call c st) cs st.

Definition names (tbl : Symbol_table) : list string := map var_name tbl.

(** The value and the constant flag the table holds for a name: those of the
    first variable of that name, which is the one [get_value] and [set_value]
    stop at. *)
Definition value_of (tbl : Symbol_table) (s : string) : option double :=
  option_map var_value (find (named s) tbl).

Definition constant_of (tbl : Symbol_table) (s : string) : option bool :=
  option_map var_constant (find (named s) tbl).

(** A blank: white space other than the newline, which [get] passes over. *)
Definition blank (ch : ascii) : bool := isspace ch && negb (ch =? newline)%char.

(** [p] holds of every character of [s]. *)
Definition all_chars (p : ascii -> bool) (s : string) : bool :=
  forallb p (list_ascii_of_string s).

(** The token kinds [get] makes from the input. *)
Definition input_kinds : list ascii :=
  t_print :: self_kinds
  ++ [t_number; t_const; t_decl; t_sqrt; t_pow; t_help; t_symbols; t_quit; t_name].

(** The token is not of kind [c]; the character is not [c]. *)
Definition other_kind (c : ascii) (t : Token) : bool := negb (kind t =? c)%char.
Definition other_char (c ch : ascii) : bool := negb (ch =? c)%char.

(** A result that is a normal return satisfies [P]. *)
Definition returns {A} (r : Res A) (P : A -> State -> Prop) : Prop :=
  match r with
  | Val a st' => P a st'
  | _ => True
  end.

(** The buffer holds at most [n] tokens. *)
Definition at_most (n : nat) (st : State) : Prop :=
  (List.length (buffer st) <= n)%nat.

(** The token at the back of the buffer, the next one [get] returns,
    satisfies [p]. *)
Definition next_is (p : Token -> bool) (st : State) : Prop :=
  exists t b, buffer st = t :: b /\ p t = true.

(** The tokens a primary starts with, and a membership test for the kinds
    of the tokens of a tree. *)
Definition starts_primary (t : Token) : bool :=
  existsb (Ascii.eqb (kind t))
          ["("; "{"; t_sqrt; t_pow; t_number; "-"; "+"; t_name]%char.

Definition tree_token (t : Token) : bool :=
  existsb (Ascii.eqb (kind t))
          ["("; ")"; "{"; "}"; ","; t_sqrt; t_pow; t_number; t_name;
           "+"; "-"; "*"; "/"; "%"; "!"]%char.

(** How the evaluation of a tree ends: in a value, in the exception of the
    first operation that fails, or in an operation of [!] that has no
    defined result: the conversion to [int] of an operand that [int] cannot
    hold, or a product of [factorial] that is not an [int]. *)
Inductive Outcome : Set :=
| Value (d : double)
| Error (msg : string)
| Unspecified.

Definition and_then (o : Outcome) (k : double -> Outcome) : Outcome :=
  match o with
  | Value d => k d
  | Error msg => Error msg
  | Unspecified => Unspecified
  end.

(** The result [r] of a call ends as [o] says when [o] is not a value. *)
Definition failure (o : Outcome) (r : Res double) : Prop :=
  match o with
  | Value _ => True
  | Error msg => exists st', r = Throw msg st'
  | Unspecified => r = Undefined
  end.

(** A statement of the grammar: an expression, a declaration [let x = e]
    or [const x = e], an assignment [x = e]. *)
Inductive Statement : Set :=
| St_expression (e : Expression)
| St_declaration (constant : bool) (x : string) (e : Expression)
| St_assignment (x : string) (e : Expression).

Definition tokens_St (s : Statement) : list Token :=
  match s with
  | St_expression e => tokens_E e
  | St_declaration constant x e =>
      Token_kind (if constant then t_const else t_decl)
        :: Token_name t_name x :: Token_kind "=" :: tokens_E e
  | St_assignment x e =>
      Token_name t_name x :: Token_kind t_assign :: tokens_E e
  end.

(** The tokens of a session: statements, each ended by a print token, then
    the quit command. *)
Definition session_tokens (l : list Statement) : list Token :=
  flat_map (fun s => tokens_St s ++ [Token_kind t_print]) l
  ++ [Token_kind t_quit].

(** The trees of a number, of [1/0], of [13!] and of [x*3]. *)
Definition number_tree (z : Z) : Expression :=
  E_term (T_secondary (S_primary (P_number (Double.of_Z z)))).

Definition one_by_zero : Expression :=
  E_term (T_divide (T_secondary (S_primary (P_number (Double.of_Z 1))))
                   (S_primary (P_number (Double.of_Z 0)))).

Definition thirteen_factorial : Expression :=
  E_term (T_secondary (S_factorial (S_primary (P_number (Double.of_Z 13))))).

Definition x_times_three : Expression :=
  E_term (T_times (T_secondary (S_primary (P_name "x")))
                  (S_primary (P_number (Double.of_Z 3)))).

(** The table after a write to [s]: the entry named [s] takes the value
    [d], nothing else moves. *)
Definition overwrite (s : string) (d : double) (tbl : Symbol_table) : Symbol_table :=
  map (fun w => if named s w then mk_Var (var_name w) d (var_constant w) else w)
      tbl.

(* ================================================================= *)
(** ** Auxiliary definitions of the statements *)

(** The mathematical factorial. *)
Fixpoint fact_Z (n : nat) : Z :=
  match n with
  | O => 1
  | S k => Z.of_nat n * fact_Z k
  end.

(** One function in the place of [std::pow], for closed examples: the
    correctly rounded power when the exponent is a non-negative integer that
    fits an [int] and the base is finite, NaN elsewhere. *)
Definition pow_nonneg_int (x y : double) : double :=
  match static_cast_int y, x with
  | Some n, S754_finite s m e =>
      if 0 <=? n then
        binary_normalize Double.prec Double.emax
          ((if s then Z.neg m else Z.pos m) ^ n) (e * n) false
      else Double.nan
  | Some n, S754_zero _ =>
      if 0 =? n then Double.of_Z 1
      else if 0 <? n then (if Z.even n then Double.zero else x)
      else Double.nan
  | _, _ => Double.nan
  end.

(** A line of input: the text followed by the newline character. *)
Definition line (s : string) : string := s ++ String newline EmptyString.

(* ================================================================= *)
(** ** The evaluator chain, the statement dispatcher and the main loop *)

(** The loop of [secondary], entered with the value [left] of the primary
    and the token [t] read after it.  [fuel] bounds the number of turns. *)
Fixpoint secondary_loop (fuel : nat) (left : double) (t : Token) : M double :=
  match fuel with
  | O => fun _ => OutOfFuel
  | S n =>
      if (kind t =? "!")%char then
        match static_cast_int left with
        | None => fun _ => Undefined
        | Some x =>
            match factorial x with
            | None => fun _ => Undefined
            | Some r =>
                left' <- raise r ;;
                t' <- get ;;
                secondary_loop n left' t'
            end
        end
      else
        putback t ;;; ret left
  end.

Section Calculator.

(** [std::pow] of <cmath>.  The C++ standard does not fix its result to the
    last bit, so the evaluator is parameterised by it. *)
Variable c_pow : double -> double -> double.

(** The functions of the chain call one another; [fuel] bounds the depth of
    the calls and the number of turns of their loops.  A function and the
    loop in its body are separate members of the definition. *)
Fixpoint expression (fuel : nat) : M double :=
  match fuel with
  | O => fun _ => OutOfFuel
  | S n =>
      left <- term n ;;
      t <- get ;;
      expression_loop n left t
  end

with expression_loop (fuel : nat) (left : double) (t : Token) : M double :=
  match fuel with
  | O => fun _ => OutOfFuel
  | S n =>
      if (kind t =? "+")%char then
        d <- term n ;;
        t' <- get ;;
        expression_loop n (Double.add left d) t'
      else if (kind t =? "-")%char then
        d <- term n ;;
        t' <- get ;;
        expression_loop n (Double.sub left d) t'
      else
        putback t ;;; ret left
  end

with term (fuel : nat) : M double :=
  match fuel with
  | O => fun _ => OutOfFuel
  | S n =>
      left <- secondary n ;;
      t <- get ;;
      term_loop n left t
  end

with term_loop (fuel : nat) (left : double) (t : Token) : M double :=
  match fuel with
  | O => fun _ => OutOfFuel
  | S n =>
      if (kind t =? "*")%char then
        d <- secondary n ;;
        t' <- get ;;
        term_loop n (Double.mul left d) t'
      else if (kind t =? "/")%char then
        d <- secondary n ;;
        if Double.eqb d Double.zero then throw "divide by zero"
        else
          t' <- get ;;
          term_loop n (Double.div left d) t'
      else if (kind t =? "%")%char then
        d <- secondary n ;;
        if Double.eqb d Double.zero then throw "%: divide by zero"
        else
          t' <- get ;;
          term_loop n (Double.fmod left d) t'
      else
        putback t ;;; ret left
  end

with secondary (fuel : nat) : M double :=
  match fuel with
  | O => fun _ => OutOfFuel
  | S n =>
      left <- primary n ;;
      t <- get ;;
      secondary_loop n left t
  end

with primary (fuel : nat) : M double :=
  match fuel with
  | O => fun _ => OutOfFuel
  | S n =>
      t <- get ;;
      if (kind t =? "(")%char then
        d <- expression n ;;
        t <- get ;;
        if negb (kind t =? ")")%char then throw "')' expected"
        else ret d
      else if (kind t =? "{")%char then
        d <- expression n ;;
        t <- get ;;
        if negb (kind t =? "}")%char then throw "'}' expected"
        else ret d
      else if (kind t =? t_sqrt)%char || (kind t =? t_pow)%char then
        eval_function n t
      else if (kind t =? t_number)%char then ret (value t)
      else if (kind t =? "-")%char then
        d <- primary n ;; ret (Double.neg d)
      else if (kind t =? "+")%char then
        primary n
      else if (kind t =? t_name)%char then
        get_value (name t)
      else throw "primary expected"
  end

with eval_function (fuel : nat) (t : Token) : M double :=
  match fuel with
  | O => fun _ => OutOfFuel
  | S n =>
      if (kind t =? t_sqrt)%char then
        t <- get ;;
        if (kind t =? "(")%char then
          d <- expression n ;;
          t <- get ;;
          if negb (kind t =? ")")%char then throw "sqrt: ')' expected"
          else if Double.ltb d Double.zero then
            throw "cannot get square root of negative number"
          else ret (Double.sqrt d)
        else throw "sqrt: primary expected"
      else if (kind t =? t_pow)%char then
        t <- get ;;
        if (kind t =? "(")%char then
          exp1 <- expression n ;;
          t <- get ;;
          if negb (kind t =? ",")%char then throw "pow: ',' expected"
          else
            exp2 <- expression n ;;
            t <- get ;;
            if negb (kind t =? ")")%char then throw "pow: ')' expected"
            else ret (c_pow exp1 exp2)
        else throw "pow: primary expected"
      else throw "function not implemented"
  end.

(** [declaration]. *)
Definition declaration (fuel : nat) (constant : bool) : M double :=
  t <- get ;;
  if negb (kind t =? t_name)%char then throw "name expected in declaration"
  else
    t2 <- get ;;
    if negb (kind t2 =? "=")%char then
      throw ("'=' missing in declaration of " ++ name t)
    else
      d <- expression fuel ;;
      define_name (name t) d constant ;;;
      ret d.

(** [assignment]. *)
Definition assignment (fuel : nat) : M double :=
  t <- get ;;
  let var_name := name t in
  declared <- is_declared var_name ;;
  if negb declared then throw (var_name ++ " has not been declared")
  else
    get ;;;
    d <- expression fuel ;;
    set_value var_name d ;;;
    ret d.

(** [statement]. *)
Definition statement (fuel : nat) : M double :=
  t <- get ;;
  if (kind t =? t_const)%char then declaration fuel true
  else if (kind t =? t_decl)%char then declaration fuel false
  else if (kind t =? t_name)%char then
    t2 <- get ;;
    putback t2 ;;;
    putback t ;;;
    if (kind t2 =? t_assign)%char then assignment fuel
    else expression fuel
  else
    putback t ;;;
    expression fuel.

(** [clean_up]. *)
Definition clean_up (st : State) : State := ignore t_print st.

(** What the program writes: a result line, an error line, the help text,
    the listing of the symbols.  The prompt is left out, and so is the
    marker ["= "], which [calculate] writes before it evaluates the
    statement: a result is recorded when the statement has returned. *)
Inductive Output : Set :=
| OutResult (d : double)
| OutError (msg : string)
| OutHelp
| OutSymbols (tbl : Symbol_table).

(** How [calculate] ends. *)
Inductive Exit : Set :=
| Quit             (* the quit command *)
| InputFailed      (* the condition of [while(cin)] is false *)
| Hangs            (* [get] spins on an exhausted input *)
| UndefinedBehaviour
| Aborted          (* an exception left [calculate] *)
| FuelExhausted.

(** The loop [while (t.kind == t_print) t = ts.get();]. *)
Fixpoint discard_prints (fuel : nat) (t : Token) : M Token :=
  match fuel with
  | O => fun _ => OutOfFuel
  | S n =>
      if (kind t =? t_print)%char then
        t' <- get ;; discard_prints n t'
      else ret t
  end.

(** The body of the [try] block of [calculate]: [None] for the [return] of
    the quit command, otherwise what was written. *)
Definition calculate_step (fuel : nat) : M (option Output) :=
  t <- get ;;
  t <- discard_prints fuel t ;;
  if (kind t =? t_quit)%char then ret None
  else if (kind t =? t_help)%char then ret (Some OutHelp)
  else if (kind t =? t_symbols)%char then
    fun st => Val (Some (OutSymbols (symbols st))) st
  else
    putback t ;;;
    d <- statement fuel ;;
    ret (Some (OutResult d)).

(** [calculate]: the lines written and the way the loop ends. *)
Fixpoint calculate (fuel : nat) (st : State) : list Output * Exit :=
  match fuel with
  | O => ([], FuelExhausted)
  | S n =>
      if failed (cin st) then ([], InputFailed)
      else
        match calculate_step n st with
        | Val None _ => ([], Quit)
        | Val (Some out) st' =>
            let '(outs, e) := calculate n st' in (out :: outs, e)
        | Throw msg st' =>
            let '(outs, e) := calculate n (clean_up st') in
            (OutError msg :: outs, e)
        | Hang => ([], Hangs)
        | Undefined => ([], UndefinedBehaviour)
        | OutOfFuel => ([], FuelExhausted)
        end
  end.

(** The predefined names of [main]. *)
Definition predefine : M double :=
  define_name "pi" (Double.of_decimal 31415926535 (-10)) true ;;;
  define_name "e" (Double.of_decimal 27182818284 (-10)) true ;;;
  define_name "k" (Double.of_Z 1000) false.

(** The state in which [main] calls [calculate] on the given input. *)
Definition startup_table : Symbol_table :=
  [ mk_Var "pi" (Double.of_decimal 31415926535 (-10)) true;
    mk_Var "e" (Double.of_decimal 27182818284 (-10)) true;
    mk_Var "k" (Double.of_Z 1000) false ].

Definition startup (input : string) : State :=
  mk_State [] (mk_istream input false) startup_table.

(** The state a statement that takes a whole line leaves when it starts from
    [startup]: the input is used up and the print token made of the newline
    is back in the buffer. *)
Definition line_taken : State :=
  mk_State [Token_kind t_print] (mk_istream "" false) startup_table.

(** [main] on the given input. *)
Definition main (fuel : nat) (input : string) : list Output * Exit :=
  match predefine (mk_State [] (mk_istream input false) []) with
  | Val _ st => calculate fuel st
  | Throw msg _ => ([OutError msg], Aborted)
  | _ => ([], Aborted)
  end.

(** The value the specification gives to a tree: every operator is applied
    to the values of its operands, along the structure of the tree.  [None]
    when an operation on the way has no value (a division by zero, the
    factorial of a negative number, an undefined name, ...). *)
Fixpoint value_E (tbl : Symbol_table) (e : Expression) : option double :=
  match e with
  | E_term t => value_T tbl t
  | E_plus e t =>
      match value_E tbl e, value_T tbl t with
      | Some a, Some b => Some (Double.add a b)
      | _, _ => None
      end
  | E_minus e t =>
      match value_E tbl e, value_T tbl t with
      | Some a, Some b => Some (Double.sub a b)
      | _, _ => None
      end
  end
with value_T (tbl : Symbol_table) (t : Term) : option double :=
  match t with
  | T_secondary s => value_S tbl s
  | T_times t s =>
      match value_T tbl t, value_S tbl s with
      | Some a, Some b => Some (Double.mul a b)
      | _, _ => None
      end
  | T_divide t s =>
      match value_T tbl t, value_S tbl s with
      | Some a, Some b =>
          if Double.eqb b Double.zero then None else Some (Double.div a b)
      | _, _ => None
      end
  | T_modulo t s =>
      match value_T tbl t, value_S tbl s with
      | Some a, Some b =>
          if Double.eqb b Double.zero then None else Some (Double.fmod a b)
      | _, _ => None
      end
  end
with value_S (tbl : Symbol_table) (s : Secondary) : option double :=
  match s with
  | S_primary p => value_P tbl p
  | S_factorial s =>
      match value_S tbl s with
      | Some a =>
          match static_cast_int a with
          | Some x =>
              match factorial x with
              | Some (inr d) => Some d
              | _ => None
              end
          | None => None
          end
      | None => None
      end
  end
with value_P (tbl : Symbol_table) (p : Primary) : option double :=
  match p with
  | P_number d => Some d
  | P_paren e => value_E tbl e
  | P_brace e => value_E tbl e
  | P_minus p => option_map Double.neg (value_P tbl p)
  | P_plus p => value_P tbl p
  | P_name s => option_map var_value (find (named s) tbl)
  | P_sqrt e =>
      match value_E tbl e with
      | Some d =>
          if Double.ltb d Double.zero then None else Some (Double.sqrt d)
      | None => None
      end
  | P_pow e1 e2 =>
      match value_E tbl e1, value_E tbl e2 with
      | Some a, Some b => Some (c_pow a b)
      | _, _ => None
      end
  end.

(** ** Comparison of results under more fuel *)

(** [r'] is [r] unless the fuel ran out in [r]. *)
Definition refines {A} (r r' : Res A) : Prop := r = OutOfFuel \/ r = r'.

(** The members of the chain, together. *)
Definition chain_refines (n m : nat) : Prop :=
  (forall st, refines (expression n st) (expression m st)) /\
  (forall left t st,
      refines (expression_loop n left t st) (expression_loop m left t st)) /\
  (forall st, refines (term n st) (term m st)) /\
  (forall left t st, refines (term_loop n left t st) (term_loop m left t st)) /\
  (forall st, refines (secondary n st) (secondary m st)) /\
  (forall left t st,
      refines (secondary_loop n left t st) (secondary_loop m left t st)) /\
  (forall st, refines (primary n st) (primary m st)) /\
  (forall t st, refines (eval_function n t st) (eval_function m t st)).

(** ** Results that keep the symbol table *)

(** The state a result carries has the table [tbl]. *)
Definition keeps {A} (r : Res A) (tbl : Symbol_table) : Prop :=
  match r with
  | Val _ st' | Throw _ st' => symbols st' = tbl
  | _ => True
  end.

(** The same for a result that is an exception only. *)
Definition keeps_failing {A} (r : Res A) (tbl : Symbol_table) : Prop :=
  match r with
  | Throw _ st' => symbols st' = tbl
  | _ => True
  end.

(** ** Following the grammar *)

(** The state in which [t] has been put back. *)
Definition pushed (t : Token) (st : State) : State :=
  set_buffer (t :: buffer st) st.

(** What it means for a level of the chain to follow the grammar on a tree:
    on the tokens of the tree it returns the value of the tree.  For the
    three looping levels the statement is about the loop, entered after the
    tokens of the tree with the token [t] that follows them. *)
Definition primary_follows (p : Primary) : Prop :=
  forall st st' v,
    delivers st (tokens_P p) st' ->
    value_P (symbols st) p = Some v ->
    exists n, primary n st = Val v st'.

Definition secondary_follows (s : Secondary) : Prop :=
  forall st st1 v,
    delivers st (tokens_S s) st1 ->
    value_S (symbols st) s = Some v ->
    forall t st2 n r,
      get st1 = Val t st2 ->
      secondary_loop n v t st2 = r -> r <> OutOfFuel ->
      exists m, secondary m st = r.

Definition term_follows (t0 : Term) : Prop :=
  forall st st1 v,
    delivers st (tokens_T t0) st1 ->
    value_T (symbols st) t0 = Some v ->
    forall t st2 n r,
      get st1 = Val t st2 -> ends_secondary t = true ->
      term_loop n v t st2 = r -> r <> OutOfFuel ->
      exists m, term m st = r.

Definition expression_follows (e : Expression) : Prop :=
  forall st st1 v,
    delivers st (tokens_E e) st1 ->
    value_E (symbols st) e = Some v ->
    forall t st2 n r,
      get st1 = Val t st2 -> ends_term t = true ->
      expression_loop n v t st2 = r -> r <> OutOfFuel ->
      exists m, expression m st = r.

(** The outcome of a tree, in the order in which the chain works: the left
    operand, then the right operand, then the operation, each with the
    error the source throws for it. *)
Fixpoint outcome_E (tbl : Symbol_table) (e : Expression) : Outcome :=
  match e with
  | E_term t => outcome_T tbl t
  | E_plus e t =>
      and_then (outcome_E tbl e) (fun a =>
      and_then (outcome_T tbl t) (fun b => Value (Double.add a b)))
  | E_minus e t =>
      and_then (outcome_E tbl e) (fun a =>
      and_then (outcome_T tbl t) (fun b => Value (Double.sub a b)))
  end
with outcome_T (tbl : Symbol_table) (t : Term) : Outcome :=
  match t with
  | T_secondary s => outcome_S tbl s
  | T_times t s =>
      and_then (outcome_T tbl t) (fun a =>
      and_then (outcome_S tbl s) (fun b => Value (Double.mul a b)))
  | T_divide t s =>
      and_then (outcome_T tbl t) (fun a =>
      and_then (outcome_S tbl s) (fun b =>
        if Double.eqb b Double.zero then Error "divide by zero"
        else Value (Double.div a b)))
  | T_modulo t s =>
      and_then (outcome_T tbl t) (fun a =>
      and_then (outcome_S tbl s) (fun b =>
        if Double.eqb b Double.zero then Error "%: divide by zero"
        else Value (Double.fmod a b)))
  end
with outcome_S (tbl : Symbol_table) (s : Secondary) : Outcome :=
  match s with
  | S_primary p => outcome_P tbl p
  | S_factorial s =>
      and_then (outcome_S tbl s) (fun a =>
        match static_cast_int a with
        | None => Unspecified
        | Some x =>
            match factorial x with
            | None => Unspecified
            | Some (inl msg) => Error msg
            | Some (inr d) => Value d
            end
        end)
  end
with outcome_P (tbl : Symbol_table) (p : Primary) : Outcome :=
  match p with
  | P_number d => Value d
  | P_paren e => outcome_E tbl e
  | P_brace e => outcome_E tbl e
  | P_minus p => and_then (outcome_P tbl p) (fun a => Value (Double.neg a))
  | P_plus p => outcome_P tbl p
  | P_name s =>
      match find (named s) tbl with
      | Some v => Value (var_value v)
      | None => Error ("trying to read undefined variable " ++ s)
      end
  | P_sqrt e =>
      and_then (outcome_E tbl e) (fun d =>
        if Double.ltb d Double.zero
        then Error "cannot get square root of negative number"
        else Value (Double.sqrt d))
  | P_pow e1 e2 =>
      and_then (outcome_E tbl e1) (fun a =>
      and_then (outcome_E tbl e2) (fun b => Value (c_pow a b)))
  end.

(** What it means for a level of the chain to stop where the tree does:
    on the tokens of a tree whose outcome is not a value, the function
    ends as the outcome says.  For the looping levels the token [t] after
    the tree is one that the input delivers and that the loop of the level
    below leaves alone. *)
Definition primary_stops (p : Primary) : Prop :=
  forall st st',
    delivers st (tokens_P p) st' ->
    exists n, failure (outcome_P (symbols st) p) (primary n st).

Definition secondary_stops (s : Secondary) : Prop :=
  forall st st1 t st2,
    delivers st (tokens_S s) st1 -> get st1 = Val t st2 ->
    exists n, failure (outcome_S (symbols st) s) (secondary n st).

Definition term_stops (t0 : Term) : Prop :=
  forall st st1 t st2,
    delivers st (tokens_T t0) st1 -> get st1 = Val t st2 ->
    ends_secondary t = true ->
    exists n, failure (outcome_T (symbols st) t0) (term n st).

Definition expression_stops (e : Expression) : Prop :=
  forall st st1 t st2,
    delivers st (tokens_E e) st1 -> get st1 = Val t st2 ->
    ends_term t = true ->
    exists n, failure (outcome_E (symbols st) e) (expression n st).

(** The line a statement makes [calculate] write and the symbol table it
    leaves, when its expression has a value and, for an assignment, its
    name is declared: the value, or the error of a second declaration or
    of a write to a constant. *)
Definition written (tbl : Symbol_table) (s : Statement)
  : option (Output * Symbol_table) :=
  match s with
  | St_expression e =>
      match value_E tbl e with
      | Some v => Some (OutResult v, tbl)
      | None => None
      end
  | St_declaration constant x e =>
      match value_E tbl e with
      | Some v =>
          if existsb (named x) tbl
          then Some (OutError (x ++ " declared twice"), tbl)
          else Some (OutResult v, tbl ++ [mk_Var x v constant])
      | None => None
      end
  | St_assignment x e =>
      match value_E tbl e with
      | Some v =>
          if existsb (named x) tbl then
            match set_value_in tbl x v with
            | inl msg => Some (OutError msg, tbl)
            | inr tbl' => Some (OutResult v, tbl')
            end
          else None
      | None => None
      end
  end.

(** The lines of a sequence of statements, each run on the table the ones
    before it leave. *)
Fixpoint session (tbl : Symbol_table) (l : list Statement)
  : option (list Output) :=
  match l with
  | [] => Some []
  | s :: l' =>
      match written tbl s with
      | Some (out, tbl') =>
          match session tbl' l' with
          | Some outs => Some (out :: outs)
          | None => None
          end
      | None => None
      end
  end.

(** The startup state in which the whole input has been read. *)
Definition input_taken : State :=
  mk_State [] (mk_istream "" false) startup_table.

(* ================================================================= *)
(** * Properties *)

(** A proof depends on [c_pow] only when its statement does. *)
Set Default Proof Using "Type".

(** ** States *)

Lemma get_buffered (t : Token) (b : list Token) (st : State) :
  buffer st = t :: b -> get st = Val t (set_buffer b st).
Proof. unfold get. now intros ->. Qed.

Lemma get_after_putback (t : Token) (st : State) :
  get (set_buffer (t :: buffer st) st) = Val t st.
Proof.
  rewrite (get_buffered t (buffer st)) by reflexivity.
  now destruct st.
Qed.

Lemma get_symbols (st st' : State) (t : Token) :
  get st = Val t st' -> symbols st' = symbols st.
Proof.
  unfold get. destruct (buffer st) as [| t0 b].
  - destruct (failed (cin st)); [discriminate |].
    destruct (skip_blanks (chars (cin st))) as [[ch rest] |]; [| discriminate].
    repeat match goal with
           | |- context [if ?b then _ else _] => destruct b
           | |- context [let '(_, _) := ?p in _] => destruct p
           end; intros H; inversion H; reflexivity.
  - intros H; inversion H; reflexivity.
Qed.

(** ** Fuel: a result obtained with some fuel is kept with more *)

Lemma refines_refl {A} (r : Res A) : refines r r.
Proof. now right. Qed.

Lemma refines_out {A} (r : Res A) : refines OutOfFuel r.
Proof. now left. Qed.

Lemma refines_trans {A} (r1 r2 r3 : Res A) :
  refines r1 r2 -> refines r2 r3 -> refines r1 r3.
Proof.
  intros [-> | ->]; [now left | auto].
Qed.

Lemma refines_eq {A} (r r' : Res A) :
  refines r r' -> r <> OutOfFuel -> r' = r.
Proof. intros [-> | ->]; congruence. Qed.

Lemma bind_refines {A B} (m m' : M A) (k k' : A -> M B) (st : State) :
  refines (m st) (m' st) ->
  (forall a st', refines (k a st') (k' a st')) ->
  refines (bind m k st) (bind m' k' st).
Proof.
  unfold bind. intros [E | E] Hk; rewrite E.
  - apply refines_out.
  - destruct (m' st); auto using refines_refl.
Qed.

(** One step of the case analysis that compares a body run with less and
    with more fuel. *)
Ltac fuel_step :=
  cbv beta;
  match goal with
  | |- refines ?r ?r => apply refines_refl
  | |- refines (bind _ _ _) (bind _ _ _) => apply bind_refines; [ | intros ? ? ]
  | |- refines ((if ?b then _ else _) _) ((if ?b then _ else _) _) => destruct b
  | |- refines ((match ?o with Some _ => _ | None => _ end) _) _ => destruct o
  end.

Lemma secondary_loop_S (n : nat) (left : double) (t : Token) :
  secondary_loop (S n) left t =
  if (kind t =? "!")%char then
    match static_cast_int left with
    | None => fun _ => Undefined
    | Some x =>
        match factorial x with
        | None => fun _ => Undefined
        | Some r =>
            left' <- raise r ;; t' <- get ;; secondary_loop n left' t'
        end
    end
  else putback t ;;; ret left.
Proof. reflexivity. Qed.

Lemma secondary_loop_fuel_S (n : nat) :
  forall left t st,
    refines (secondary_loop n left t st) (secondary_loop (S n) left t st).
Proof.
  induction n as [| n IH]; intros left t st; [apply refines_out |].
  rewrite (secondary_loop_S (S n)), (secondary_loop_S n).
  repeat fuel_step; auto.
Qed.

Lemma expression_S (n : nat) :
  expression (S n) = (left <- term n ;; t <- get ;; expression_loop n left t).
Proof. reflexivity. Qed.

Lemma expression_loop_S (n : nat) (left : double) (t : Token) :
  expression_loop (S n) left t =
  if (kind t =? "+")%char then
    d <- term n ;; t' <- get ;; expression_loop n (Double.add left d) t'
  else if (kind t =? "-")%char then
    d <- term n ;; t' <- get ;; expression_loop n (Double.sub left d) t'
  else putback t ;;; ret left.
Proof. reflexivity. Qed.

Lemma term_S (n : nat) :
  term (S n) = (left <- secondary n ;; t <- get ;; term_loop n left t).
Proof. reflexivity. Qed.

Lemma term_loop_S (n : nat) (left : double) (t : Token) :
  term_loop (S n) left t =
  if (kind t =? "*")%char then
    d <- secondary n ;; t' <- get ;; term_loop n (Double.mul left d) t'
  else if (kind t =? "/")%char then
    d <- secondary n ;;
    if Double.eqb d Double.zero then throw "divide by zero"
    else t' <- get ;; term_loop n (Double.div left d) t'
  else if (kind t =? "%")%char then
    d <- secondary n ;;
    if Double.eqb d Double.zero then throw "%: divide by zero"
    else t' <- get ;; term_loop n (Double.fmod left d) t'
  else putback t ;;; ret left.
Proof. reflexivity. Qed.

Lemma secondary_S (n : nat) :
  secondary (S n) = (left <- primary n ;; t <- get ;; secondary_loop n left t).
Proof. reflexivity. Qed.

Lemma primary_S (n : nat) :
  primary (S n) =
  (t <- get ;;
   if (kind t =? "(")%char then
     d <- expression n ;; t <- get ;;
     if negb (kind t =? ")")%char then throw "')' expected" else ret d
   else if (kind t =? "{")%char then
     d <- expression n ;; t <- get ;;
     if negb (kind t =? "}")%char then throw "'}' expected" else ret d
   else if (kind t =? t_sqrt)%char || (kind t =? t_pow)%char then
     eval_function n t
   else if (kind t =? t_number)%char then ret (value t)
   else if (kind t =? "-")%char then d <- primary n ;; ret (Double.neg d)
   else if (kind t =? "+")%char then primary n
   else if (kind t =? t_name)%char then get_value (name t)
   else throw "primary expected").
Proof. reflexivity. Qed.

Lemma eval_function_S (n : nat) (t : Token) :
  eval_function (S n) t =
  if (kind t =? t_sqrt)%char then
    t <- get ;;
    if (kind t =? "(")%char then
      d <- expression n ;; t <- get ;;
      if negb (kind t =? ")")%char then throw "sqrt: ')' expected"
      else if Double.ltb d Double.zero then
        throw "cannot get square root of negative number"
      else ret (Double.sqrt d)
    else throw "sqrt: primary expected"
  else if (kind t =? t_pow)%char then
    t <- get ;;
    if (kind t =? "(")%char then
      exp1 <- expression n ;; t <- get ;;
      if negb (kind t =? ",")%char then throw "pow: ',' expected"
      else
        exp2 <- expression n ;; t <- get ;;
        if negb (kind t =? ")")%char then throw "pow: ')' expected"
        else ret (c_pow exp1 exp2)
    else throw "pow: primary expected"
  else throw "function not implemented".
Proof. reflexivity. Qed.

Lemma chain_fuel_S (n : nat) : chain_refines n (S n).
Proof.
  induction n as [| n (IHe & IHel & IHt & IHtl & IHs & IHsl & IHp & IHf)].
  - repeat split; intros; apply refines_out.
  - repeat split; intros.
    + rewrite (expression_S (S n)), (expression_S n). repeat fuel_step; auto.
    + rewrite (expression_loop_S (S n)), (expression_loop_S n).
      repeat fuel_step; auto.
    + rewrite (term_S (S n)), (term_S n). repeat fuel_step; auto.
    + rewrite (term_loop_S (S n)), (term_loop_S n). repeat fuel_step; auto.
    + rewrite (secondary_S (S n)), (secondary_S n). repeat fuel_step; auto.
    + apply secondary_loop_fuel_S.
    + rewrite (primary_S (S n)), (primary_S n). repeat fuel_step; auto.
    + rewrite (eval_function_S (S n)), (eval_function_S n).
      repeat fuel_step; auto.
Qed.

Lemma chain_fuel (n m : nat) : (n <= m)%nat -> chain_refines n m.
Proof.
  induction 1 as [| m Hle (IHe & IHel & IHt & IHtl & IHs & IHsl & IHp & IHf)].
  - repeat split; intros; apply refines_refl.
  - destruct (chain_fuel_S m) as (He & Hel & Ht & Htl & Hs & Hsl & Hp & Hf).
    repeat split; intros; eapply refines_trans; eauto.
Qed.

(** The same, one function at a time, in the form used below: a result
    other than [OutOfFuel] stays when fuel is added. *)
Lemma expression_more (n m : nat) (st : State) (r : Res double) :
  expression n st = r -> r <> OutOfFuel -> (n <= m)%nat -> expression m st = r.
Proof.
  intros E Hr Hle. destruct (chain_fuel n m Hle) as (H & _).
  apply refines_eq; [rewrite <- E; apply H | exact Hr].
Qed.

Lemma expression_loop_more (n m : nat) left t (st : State) (r : Res double) :
  expression_loop n left t st = r -> r <> OutOfFuel -> (n <= m)%nat ->
  expression_loop m left t st = r.
Proof.
  intros E Hr Hle. destruct (chain_fuel n m Hle) as (_ & H & _).
  apply refines_eq; [rewrite <- E; apply H | exact Hr].
Qed.

Lemma term_more (n m : nat) (st : State) (r : Res double) :
  term n st = r -> r <> OutOfFuel -> (n <= m)%nat -> term m st = r.
Proof.
  intros E Hr Hle. destruct (chain_fuel n m Hle) as (_ & _ & H & _).
  apply refines_eq; [rewrite <- E; apply H | exact Hr].
Qed.

Lemma term_loop_more (n m : nat) left t (st : State) (r : Res double) :
  term_loop n left t st = r -> r <> OutOfFuel -> (n <= m)%nat ->
  term_loop m left t st = r.
Proof.
  intros E Hr Hle. destruct (chain_fuel n m Hle) as (_ & _ & _ & H & _).
  apply refines_eq; [rewrite <- E; apply H | exact Hr].
Qed.

Lemma secondary_more (n m : nat) (st : State) (r : Res double) :
  secondary n st = r -> r <> OutOfFuel -> (n <= m)%nat -> secondary m st = r.
Proof.
  intros E Hr Hle. destruct (chain_fuel n m Hle) as (_ & _ & _ & _ & H & _).
  apply refines_eq; [rewrite <- E; apply H | exact Hr].
Qed.

Lemma secondary_loop_more (n m : nat) left t (st : State) (r : Res double) :
  secondary_loop n left t st = r -> r <> OutOfFuel -> (n <= m)%nat ->
  secondary_loop m left t st = r.
Proof.
  intros E Hr Hle.
  assert (H : refines (secondary_loop n left t st) (secondary_loop m left t st)).
  { clear E Hr. induction Hle as [| m Hle IH]; [apply refines_refl |].
    eapply refines_trans; [exact IH | apply secondary_loop_fuel_S]. }
  apply refines_eq; [rewrite <- E; exact H | exact Hr].
Qed.

Lemma primary_more (n m : nat) (st : State) (r : Res double) :
  primary n st = r -> r <> OutOfFuel -> (n <= m)%nat -> primary m st = r.
Proof.
  intros E Hr Hle.
  destruct (chain_fuel n m Hle) as (_ & _ & _ & _ & _ & _ & H & _).
  apply refines_eq; [rewrite <- E; apply H | exact Hr].
Qed.

Lemma statement_fuel (n m : nat) (st : State) :
  (n <= m)%nat -> refines (statement n st) (statement m st).
Proof.
  intros Hle. destruct (chain_fuel n m Hle) as (He & _).
  unfold statement, declaration, assignment. repeat fuel_step; auto.
Qed.

Lemma statement_more (n m : nat) (st : State) (r : Res double) :
  statement n st = r -> r <> OutOfFuel -> (n <= m)%nat -> statement m st = r.
Proof.
  intros E Hr Hle.
  apply refines_eq; [rewrite <- E; now apply statement_fuel | exact Hr].
Qed.

Lemma discard_prints_fuel (n m : nat) :
  (n <= m)%nat ->
  forall t st, refines (discard_prints n t st) (discard_prints m t st).
Proof.
  revert m. induction n as [| n IH]; intros m Hle t st; [apply refines_out |].
  destruct m as [| m]; [lia |]. simpl.
  repeat fuel_step. apply IH. lia.
Qed.

Lemma calculate_step_fuel (n m : nat) (st : State) :
  (n <= m)%nat -> refines (calculate_step n st) (calculate_step m st).
Proof.
  intros Hle. unfold calculate_step.
  repeat fuel_step; auto using discard_prints_fuel, statement_fuel.
Qed.

(** The loop of [calculate]: a run that does not end by lack of fuel is the
    same with more. *)
Lemma calculate_more (n : nat) :
  forall m st outs e,
    calculate n st = (outs, e) -> e <> FuelExhausted -> (n <= m)%nat ->
    calculate m st = (outs, e).
Proof.
  induction n as [| n IH]; intros m st outs e E He Hle.
  - simpl in E. inversion E; subst. congruence.
  - destruct m as [| m]; [lia |]. simpl in E |- *.
    destruct (failed (cin st)); [exact E |].
    destruct (calculate_step_fuel n m st ltac:(lia)) as [F | F].
    + rewrite F in E. inversion E; subst. congruence.
    + rewrite <- F.
      destruct (calculate_step n st) as [[out |] st' | msg st' | | |];
        try exact E.
      * destruct (calculate n st') as [outs' e'] eqn:E'.
        inversion E; subst.
        now rewrite (IH m st' outs' e E' He ltac:(lia)).
      * destruct (calculate n (clean_up st')) as [outs' e'] eqn:E'.
        inversion E; subst.
        now rewrite (IH m (clean_up st') outs' e E' He ltac:(lia)).
Qed.

Lemma predefine_startup (input : string) :
  predefine (mk_State [] (mk_istream input false) []) =
  Val (Double.of_Z 1000) (startup input).
Proof. reflexivity. Qed.

Lemma main_calculate (n : nat) (input : string) :
  main n input = calculate n (startup input).
Proof. unfold main. now rewrite predefine_startup. Qed.

Lemma main_more (n m : nat) (input : string) outs e :
  main n input = (outs, e) -> e <> FuelExhausted -> (n <= m)%nat ->
  main m input = (outs, e).
Proof.
  rewrite !main_calculate. intros. now apply calculate_more with (n := n).
Qed.

(* ================================================================= *)
(** ** Token_stream: putback and get *)

(** C9.  For every token [t] and every state, [putback(t)] followed by
    [get()] returns exactly [t] and leaves the state as it was before the
    putback; after [putback(a)], [putback(b)] the next two calls of [get]
    return [b] and then [a], and again the state is as before. *)
Theorem putback_get_lifo (t a b : Token) (st : State) :
  (putback t ;;; get) st = Val t st /\
  (putback a ;;; putback b ;;; x <- get ;; y <- get ;; ret (x, y)) st
  = Val (b, a) st.
Proof.
  destruct st as [buf input tbl]. split; reflexivity.
Qed.

(** The rollback of [statement]: a name [t] and the token [t2] after it are
    put back with [putback(t2)], [putback(t)], so that the function called
    next reads [t] and then [t2] again. *)
Lemma statement_rollback (n : nat) (t t2 : Token) (st st1 st2 : State) :
  get st = Val t st1 -> kind t = t_name -> get st1 = Val t2 st2 ->
  let st3 := set_buffer (t :: t2 :: buffer st2) st2 in
  statement n st
  = (if (kind t2 =? t_assign)%char then assignment n else expression n) st3
  /\ lex 2 st3 = Some ([t; t2], st2).
Proof.
  intros E1 K E2 st3. split.
  - unfold statement, bind at 1. rewrite E1, K. cbn -[get putback].
    unfold bind at 1. rewrite E2. reflexivity.
  - destruct st2 as [buf input tbl]. reflexivity.
Qed.

(* ================================================================= *)
(** ** Symbol_table *)

Lemma named_true (s : string) (v : Var) : named s v = true <-> var_name v = s.
Proof. apply String.eqb_eq. Qed.

Lemma declared_In (s : string) (tbl : Symbol_table) :
  existsb (named s) tbl = true <-> In s (names tbl).
Proof.
  unfold names. rewrite existsb_exists, in_map_iff.
  split; intros (v & H1 & H2).
  - exists v. split; [now apply named_true | exact H1].
  - exists v. split; [exact H2 | now apply named_true].
Qed.

Lemma not_declared_In (s : string) (tbl : Symbol_table) :
  existsb (named s) tbl = false <-> ~ In s (names tbl).
Proof.
  rewrite <- declared_In. symmetry. apply not_true_iff_false.
Qed.

Lemma define_name_eq (var : string) (val : double) (constant : bool) (st : State) :
  define_name var val constant st =
  if existsb (named var) (symbols st)
  then Throw (var ++ " declared twice") st
  else Val val (set_symbols (symbols st ++ [mk_Var var val constant]) st).
Proof.
  unfold define_name, bind, is_declared.
  now destruct (existsb (named var) (symbols st)).
Qed.

Lemma set_value_in_names (tbl tbl' : Symbol_table) (s : string) (d : double) :
  set_value_in tbl s d = inr tbl' -> names tbl' = names tbl.
Proof.
  revert tbl'. induction tbl as [| v rest IH]; intros tbl'; simpl.
  - discriminate.
  - destruct (named s v).
    + destruct (var_constant v); [discriminate |].
      intros H; inversion H; reflexivity.
    + destruct (set_value_in rest s d) as [msg | rest']; [discriminate |].
      intros H; inversion H; subst. simpl. now rewrite (IH rest').
Qed.

Lemma find_absent (s : string) (tbl : Symbol_table) :
  ~ In s (names tbl) -> find (named s) tbl = None.
Proof.
  intros H. apply not_declared_In in H.
  induction tbl as [| v rest IH]; simpl in *; [reflexivity |].
  apply orb_false_iff in H as [-> H]. auto.
Qed.

Lemma find_present (v : Var) (tbl : Symbol_table) :
  NoDup (names tbl) -> In v tbl -> find (named (var_name v)) tbl = Some v.
Proof.
  induction tbl as [| w rest IH]; simpl; [intros _ [] |].
  intros ND [-> | Hin].
  - unfold named at 1. now rewrite String.eqb_refl.
  - inversion ND as [| x l Hnot ND']; subst.
    destruct (named (var_name v) w) eqn:E; [| auto].
    apply named_true in E. exfalso. apply Hnot. rewrite E.
    now apply in_map.
Qed.

Lemma overwrite_absent (s : string) (d : double) (tbl : Symbol_table) :
  ~ In s (names tbl) -> overwrite s d tbl = tbl.
Proof.
  intros H. apply not_declared_In in H.
  induction tbl as [| v rest IH]; simpl in *; [reflexivity |].
  apply orb_false_iff in H as [-> H]. now rewrite IH.
Qed.

Lemma set_value_in_absent (s : string) (d : double) (tbl : Symbol_table) :
  ~ In s (names tbl) ->
  set_value_in tbl s d = inl ("trying to write undefined variable " ++ s)%string.
Proof.
  intros H. apply not_declared_In in H.
  induction tbl as [| v rest IH]; simpl in *; [reflexivity |].
  apply orb_false_iff in H as [-> H]. now rewrite IH.
Qed.

Lemma set_value_in_present (v : Var) (d : double) (tbl : Symbol_table) :
  NoDup (names tbl) -> In v tbl ->
  set_value_in tbl (var_name v) d =
  if var_constant v then inl "trying to write to constant"%string
  else inr (overwrite (var_name v) d tbl).
Proof.
  induction tbl as [| w rest IH]; simpl; [intros _ [] |].
  intros ND Hin. inversion ND as [| x l Hnot ND']; subst.
  unfold overwrite; simpl; fold (overwrite (var_name v) d rest).
  destruct Hin as [-> | Hin].
  - assert (E : named (var_name v) v = true) by now apply named_true.
    rewrite E. destruct (var_constant v); [reflexivity |].
    now rewrite overwrite_absent.
  - destruct (named (var_name v) w) eqn:E.
    + apply named_true in E. exfalso. apply Hnot. rewrite E. now apply in_map.
    + rewrite (IH ND' Hin). now destruct (var_constant v).
Qed.

Lemma run_call_distinct (c : Call) (st : State) :
  NoDup (names (symbols st)) -> NoDup (names (symbols (run_call c st))).
Proof.
  intros ND. destruct c as [var val constant | s d | s | var]; simpl.
  - rewrite define_name_eq.
    destruct (existsb (named var) (symbols st)) eqn:E; simpl; [exact ND |].
    apply not_declared_In in E. unfold names in *. rewrite map_app. simpl.
    apply NoDup_app; [exact ND | constructor; [intros [] | constructor] |].
    intros x Hx [<- | []]. now apply E.
  - unfold set_value.
    destruct (set_value_in (symbols st) s d) as [msg | tbl'] eqn:E; simpl;
      [exact ND |].
    now rewrite (set_value_in_names _ _ _ _ E).
  - unfold get_value. now destruct (find (named s) (symbols st)).
  - exact ND.
Qed.

Lemma startup_distinct : NoDup (names startup_table).
Proof.
  unfold names. simpl.
  repeat constructor; simpl; intros H;
    repeat (destruct H as [H | H]; [discriminate H |]); exact H.
Qed.

(** C8.  In every state reached from the startup table, which holds pi, e
    and k, by any sequence of calls of [define_name], [set_value],
    [get_value] and [is_declared], failed calls included, the names stored
    in the table are pairwise distinct; there, [define_name] throws
    "declared twice" on a name that is present and otherwise appends the new
    variable and returns its value. *)
Theorem names_pairwise_distinct (input : string) (calls : list Call) :
  let st := run_calls calls (startup input) in
  NoDup (names (symbols st)) /\
  (forall var val constant,
      In var (names (symbols st)) ->
      define_name var val constant st = Throw (var ++ " declared twice") st) /\
  (forall var val constant,
      ~ In var (names (symbols st)) ->
      define_name var val constant st =
      Val val (set_symbols (symbols st ++ [mk_Var var val constant]) st)).
Proof.
  intros st. repeat split.
  - subst st. unfold run_calls.
    assert (H : NoDup (names (symbols (startup input)))) by exact startup_distinct.
    revert H. generalize (startup input).
    induction calls as [| c calls IH]; intros st0 H; simpl; [exact H |].
    apply IH. now apply run_call_distinct.
  - intros var val constant H. rewrite define_name_eq.
    apply declared_In in H. now rewrite H.
  - intros var val constant H. rewrite define_name_eq.
    apply not_declared_In in H. now rewrite H.
Qed.

(** C6.  In a table with pairwise distinct names: [set_value] on a name
    whose variable is marked constant throws "trying to write to constant"
    and leaves the state, hence the stored value, as it was; on an absent
    name it throws "trying to write undefined variable"; on a name whose
    variable is not constant it returns with that one entry overwritten in
    place. *)
Theorem set_value_cases (st : State) (s : string) (d : double) :
  NoDup (names (symbols st)) ->
  (forall v, In v (symbols st) -> var_name v = s -> var_constant v = true ->
             set_value s d st = Throw "trying to write to constant" st /\
             get_value s st = Val (var_value v) st) /\
  (~ In s (names (symbols st)) ->
   set_value s d st = Throw ("trying to write undefined variable " ++ s) st) /\
  (forall v, In v (symbols st) -> var_name v = s -> var_constant v = false ->
             set_value s d st
             = Val tt (set_symbols (overwrite s d (symbols st)) st) /\
             get_value s (set_symbols (overwrite s d (symbols st)) st)
             = Val d (set_symbols (overwrite s d (symbols st)) st)).
Proof.
  intros ND. split; [| split].
  - intros v H Hs H1. subst s. split.
    + unfold set_value. rewrite (set_value_in_present v d _ ND H).
      now rewrite H1.
    + unfold get_value. now rewrite (find_present v _ ND H).
  - intros H. unfold set_value. now rewrite (set_value_in_absent s d _ H).
  - intros v H Hs H1. subst s. split.
    + unfold set_value. rewrite (set_value_in_present v d _ ND H).
      now rewrite H1.
    + unfold get_value. simpl.
    assert (F : find (named (var_name v)) (overwrite (var_name v) d (symbols st))
                = Some (mk_Var (var_name v) d (var_constant v))).
    { clear H1. induction (symbols st) as [| w rest IH]; simpl in *;
        [contradiction |].
      inversion ND as [| x l Hnot ND']; subst.
      destruct H as [-> | Hin].
      - assert (E : named (var_name v) v = true) by now apply named_true.
        rewrite E. unfold named at 1. simpl. now rewrite String.eqb_refl.
      - destruct (named (var_name v) w) eqn:E.
        + apply named_true in E. exfalso. apply Hnot. rewrite E.
          now apply in_map.
        + rewrite E. auto. }
      now rewrite F.
Qed.

(* ================================================================= *)
(** ** factorial *)

Lemma fact_Z_pos (k : nat) : 1 <= fact_Z k.
Proof.
  induction k as [| k IH]; [simpl; lia |].
  change (fact_Z (S k)) with (Z.of_nat (S k) * fact_Z k). nia.
Qed.

Lemma factorial_loop_spec (k : nat) :
  forall x, 1 <= x <= INT_MAX ->
  factorial_loop k x =
  if x * fact_Z k <=? INT_MAX then Some (inr (x * fact_Z k)) else None.
Proof.
  induction k as [| k IH]; intros x Hx.
  - simpl. rewrite Z.mul_1_r.
    destruct (Z.leb_spec x INT_MAX); [reflexivity | lia].
  - change (factorial_loop (S k) x) with
      (let i := Z.of_nat (S k) in
       if in_int (x * i) then
         if negb (x =? 0) && negb (Z.quot (x * i) x =? i)
         then Some (inl "overflow occurred in int."%string)
         else factorial_loop k (x * i)
       else None).
    change (fact_Z (S k)) with (Z.of_nat (S k) * fact_Z k).
    set (i := Z.of_nat (S k)). cbv zeta.
    assert (Hi : 1 <= i) by (subst i; lia).
    pose proof (fact_Z_pos k) as Hf.
    unfold in_int.
    destruct (Z.leb_spec (x * i) INT_MAX) as [Hfit | Hov].
    + destruct (Z.leb_spec INT_MIN (x * i)) as [_ | Hlow];
        [| unfold INT_MIN in Hlow; nia].
      cbn [andb].
      destruct (Z.eqb_spec x 0) as [E0 | _]; [lia |].
      assert (Hq : Z.quot (x * i) x = i).
      { rewrite (Z.mul_comm x i). apply Z.quot_mul. lia. }
      rewrite Hq, Z.eqb_refl. cbn [negb andb].
      rewrite IH; [now rewrite Z.mul_assoc | nia].
    + rewrite andb_false_r.
      destruct (Z.leb_spec (x * (i * fact_Z k)) INT_MAX); [nia | reflexivity].
Qed.

(** What [factorial] does on every [int]: the exception for a negative
    argument, the factorial when it is an [int], and otherwise the
    undefined product, which comes before the test that should catch it. *)
Lemma factorial_spec (n : Z) :
  INT_MIN <= n <= INT_MAX ->
  factorial n =
  if n <? 0
  then Some (inl "cannot get factorial of negative number."%string)
  else if fact_Z (Z.to_nat n) <=? INT_MAX
       then Some (inr (Double.of_Z (fact_Z (Z.to_nat n))))
       else None.
Proof.
  intros Hn. unfold factorial.
  destruct (Z.ltb_spec n 0) as [Hneg | Hpos]; [reflexivity |].
  destruct (Z.eqb_spec n 0) as [-> | Hnz]; [reflexivity |].
  rewrite factorial_loop_spec by lia.
  assert (E : n * fact_Z (Z.to_nat (n - 1)) = fact_Z (Z.to_nat n)).
  { replace (Z.to_nat n) with (S (Z.to_nat (n - 1))) by lia.
    change (fact_Z (S (Z.to_nat (n - 1))))
      with (Z.of_nat (S (Z.to_nat (n - 1))) * fact_Z (Z.to_nat (n - 1))).
    f_equal. lia. }
  rewrite E. now destruct (fact_Z (Z.to_nat n) <=? INT_MAX).
Qed.

Lemma fact_Z_monotone (a b : nat) : (a <= b)%nat -> fact_Z a <= fact_Z b.
Proof.
  induction 1 as [| b Hle IH]; [lia |].
  change (fact_Z (S b)) with (Z.of_nat (S b) * fact_Z b).
  pose proof (fact_Z_pos b). nia.
Qed.

(** The first factorial that is not an [int] is 13!. *)
Lemma factorial_fits (n : Z) :
  0 <= n -> (fact_Z (Z.to_nat n) <=? INT_MAX) = (n <=? 12).
Proof.
  intros Hn.
  destruct (Z.leb_spec n 12) as [Hle | Hgt].
  - assert (F : fact_Z (Z.to_nat n) <= fact_Z 12)
      by (apply fact_Z_monotone; lia).
    assert (F12 : fact_Z 12 <= INT_MAX) by (vm_compute; discriminate).
    apply Z.leb_le. lia.
  - assert (F : fact_Z 13 <= fact_Z (Z.to_nat n))
      by (apply fact_Z_monotone; lia).
    assert (F13 : INT_MAX < fact_Z 13) by (vm_compute; reflexivity).
    apply Z.leb_gt. lia.
Qed.

(** The test of the loop never throws: the product it looks at is the
    exact one. *)
Lemma factorial_loop_never_throws (k : nat) :
  forall x msg, factorial_loop k x <> Some (inl msg).
Proof.
  induction k as [| k IH]; intros x msg; [discriminate |].
  change (factorial_loop (S k) x) with
    (let i := Z.of_nat (S k) in
     if in_int (x * i) then
       if negb (x =? 0) && negb (Z.quot (x * i) x =? i)
       then Some (inl "overflow occurred in int."%string)
       else factorial_loop k (x * i)
     else None).
  cbv zeta. destruct (in_int _); [| discriminate].
  destruct (Z.eqb_spec x 0) as [E0 | Hx]; [apply IH |].
  rewrite (Z.mul_comm x), Z.quot_mul by exact Hx.
  rewrite Z.eqb_refl. apply IH.
Qed.

(* ================================================================= *)
(** ** The evaluator chain follows the grammar *)

Lemma delivers_nil (st st' : State) : delivers st [] st' -> st' = st.
Proof. unfold delivers. simpl. congruence. Qed.

Lemma delivers_cons (t : Token) (l : list Token) (st st' : State) :
  delivers st (t :: l) st' ->
  exists st1, get st = Val t st1 /\ delivers st1 l st'.
Proof.
  unfold delivers. simpl.
  destruct (get st) as [t0 st1 | | | |]; try discriminate.
  destruct (lex (List.length l) st1) as [[ts st2] |] eqn:E; [| discriminate].
  intros H. inversion H; subst. now exists st1.
Qed.

Lemma delivers_app (a b : list Token) :
  forall st st',
    delivers st (a ++ b) st' ->
    exists st1, delivers st a st1 /\ delivers st1 b st'.
Proof.
  induction a as [| t a IH]; intros st st' H.
  - exists st. split; [reflexivity | exact H].
  - apply delivers_cons in H as (s1 & Hget & H).
    apply IH in H as (s2 & Ha & Hb).
    exists s2. split; [| exact Hb].
    unfold delivers in *. simpl. now rewrite Hget, Ha.
Qed.

Lemma delivers_one (t : Token) (st st' : State) :
  delivers st [t] st' -> get st = Val t st'.
Proof.
  intros H. apply delivers_cons in H as (s1 & Hget & H).
  apply delivers_nil in H. now subst.
Qed.

Lemma delivers_symbols (l : list Token) :
  forall st st', delivers st l st' -> symbols st' = symbols st.
Proof.
  induction l as [| t l IH]; intros st st' H.
  - apply delivers_nil in H. now subst.
  - apply delivers_cons in H as (s1 & Hget & H).
    rewrite (IH _ _ H). eapply get_symbols; eauto.
Qed.

Lemma get_pushed (t : Token) (st : State) : get (pushed t st) = Val t st.
Proof. apply get_after_putback. Qed.

Lemma bind_val {A B} (m : M A) (k : A -> M B) (st st' : State) (a : A) :
  m st = Val a st' -> bind m k st = k a st'.
Proof. unfold bind. now intros ->. Qed.

(** *** Entering a level: the first operand, then the loop *)

Lemma expression_enter (k : nat) (st st2 : State) (v : double) (t : Token) r :
  term k st = Val v (pushed t st2) ->
  expression_loop k v t st2 = r ->
  expression (S k) st = r.
Proof.
  intros H1 H2. rewrite expression_S.
  rewrite (bind_val _ _ _ _ _ H1), (bind_val _ _ _ _ _ (get_pushed t st2)).
  exact H2.
Qed.

Lemma term_enter (k : nat) (st st2 : State) (v : double) (t : Token) r :
  secondary k st = Val v (pushed t st2) ->
  term_loop k v t st2 = r ->
  term (S k) st = r.
Proof.
  intros H1 H2. rewrite term_S.
  rewrite (bind_val _ _ _ _ _ H1), (bind_val _ _ _ _ _ (get_pushed t st2)).
  exact H2.
Qed.

Lemma secondary_enter (k : nat) (st st1 st2 : State) (v : double) (t : Token) r :
  primary k st = Val v st1 ->
  get st1 = Val t st2 ->
  secondary_loop k v t st2 = r ->
  secondary (S k) st = r.
Proof.
  intros H1 H2 H3. rewrite secondary_S.
  rewrite (bind_val _ _ _ _ _ H1), (bind_val _ _ _ _ _ H2).
  exact H3.
Qed.

(** *** Leaving a loop *)

Lemma secondary_loop_exit (k : nat) (v : double) (t : Token) (st : State) :
  ends_secondary t = true ->
  secondary_loop (S k) v t st = Val v (pushed t st).
Proof.
  unfold ends_secondary. intros H. rewrite secondary_loop_S.
  apply negb_true_iff in H. now rewrite H.
Qed.

Lemma term_loop_exit (k : nat) (v : double) (t : Token) (st : State) :
  ends_term t = true ->
  term_loop (S k) v t st = Val v (pushed t st).
Proof.
  unfold ends_term, ends_secondary. intros H. rewrite term_loop_S.
  repeat (apply andb_true_iff in H as [H ?]).
  repeat match goal with
         | E : negb _ = true |- _ => apply negb_true_iff in E; rewrite E
         end.
  reflexivity.
Qed.

Lemma expression_loop_exit (k : nat) (v : double) (t : Token) (st : State) :
  ends_expression t = true ->
  expression_loop (S k) v t st = Val v (pushed t st).
Proof.
  unfold ends_expression. intros H. rewrite expression_loop_S.
  repeat (apply andb_true_iff in H as [H ?]).
  repeat match goal with
         | E : negb _ = true |- _ => apply negb_true_iff in E; rewrite E
         end.
  reflexivity.
Qed.

(** *** One turn of a loop *)

Lemma expression_loop_turn (k : nat) (a b : double) (t t' : Token)
      (st st2 : State) r :
  term k st = Val b (pushed t' st2) ->
  (kind t = "+"%char /\ expression_loop k (Double.add a b) t' st2 = r) \/
  (kind t = "-"%char /\ expression_loop k (Double.sub a b) t' st2 = r) ->
  expression_loop (S k) a t st = r.
Proof.
  intros H1 [[K H2] | [K H2]]; rewrite expression_loop_S, K; simpl;
    rewrite (bind_val _ _ _ _ _ H1), (bind_val _ _ _ _ _ (get_pushed t' st2));
    exact H2.
Qed.

Lemma term_loop_turn (k : nat) (a b : double) (t t' : Token)
      (st st2 : State) r :
  secondary k st = Val b (pushed t' st2) ->
  (kind t = "*"%char /\ term_loop k (Double.mul a b) t' st2 = r) \/
  (kind t = "/"%char /\ Double.eqb b Double.zero = false /\
   term_loop k (Double.div a b) t' st2 = r) \/
  (kind t = "%"%char /\ Double.eqb b Double.zero = false /\
   term_loop k (Double.fmod a b) t' st2 = r) ->
  term_loop (S k) a t st = r.
Proof.
  intros H1 [[K H2] | [(K & Z & H2) | (K & Z & H2)]];
    rewrite term_loop_S, K; simpl;
    rewrite (bind_val _ _ _ _ _ H1); rewrite ?Z;
    rewrite (bind_val _ _ _ _ _ (get_pushed t' st2)); exact H2.
Qed.

Lemma secondary_loop_turn (k : nat) (a v : double) (x : Z) (t t' : Token)
      (st st2 : State) r :
  kind t = "!"%char ->
  static_cast_int a = Some x -> factorial x = Some (inr v) ->
  get st = Val t' st2 ->
  secondary_loop k v t' st2 = r ->
  secondary_loop (S k) a t st = r.
Proof.
  intros K C F G H. rewrite secondary_loop_S, K. simpl. rewrite C, F.
  unfold bind at 1. unfold raise.
  now rewrite (bind_val _ _ _ _ _ G).
Qed.

Lemma secondary_done (s : Secondary) :
  secondary_follows s ->
  forall st st1 v t st2,
    delivers st (tokens_S s) st1 -> value_S (symbols st) s = Some v ->
    get st1 = Val t st2 -> ends_secondary t = true ->
    exists m, secondary m st = Val v (pushed t st2).
Proof.
  intros IH st st1 v t st2 D V G E.
  apply (IH st st1 v D V t st2 1%nat); [exact G | | discriminate].
  now apply secondary_loop_exit.
Qed.

Lemma term_done (t0 : Term) :
  term_follows t0 ->
  forall st st1 v t st2,
    delivers st (tokens_T t0) st1 -> value_T (symbols st) t0 = Some v ->
    get st1 = Val t st2 -> ends_term t = true ->
    exists m, term m st = Val v (pushed t st2).
Proof.
  intros IH st st1 v t st2 D V G E.
  apply (IH st st1 v D V t st2 1%nat); [exact G | | | discriminate].
  - unfold ends_term in E. now repeat (apply andb_true_iff in E as [E _]).
  - now apply term_loop_exit.
Qed.

Lemma expression_done (e : Expression) :
  expression_follows e ->
  forall st st1 v t st2,
    delivers st (tokens_E e) st1 -> value_E (symbols st) e = Some v ->
    get st1 = Val t st2 -> ends_expression t = true ->
    exists m, expression m st = Val v (pushed t st2).
Proof.
  intros IH st st1 v t st2 D V G E.
  apply (IH st st1 v D V t st2 1%nat); [exact G | | | discriminate].
  - unfold ends_expression in E.
    apply andb_true_iff in E as [E _]. now apply andb_true_iff in E as [E _].
  - now apply expression_loop_exit.
Qed.

(** Comparisons of token kinds that are known are replaced by their
    outcome. *)
Ltac decide_kinds :=
  repeat match goal with
         | |- context [(?a =? ?b)%char] =>
             let v := eval vm_compute in (a =? b)%char in
             match v with
             | true => change (a =? b)%char with true
             | false => change (a =? b)%char with false
             end
         end;
  cbn [negb orb andb]; cbv beta iota.

Ltac split_value V :=
  repeat match type of V with
         | match ?o with Some _ => _ | None => _ end = Some _ =>
             let a := fresh "a" in
             let E := fresh "Va" in
             destruct o as [a |] eqn:E; [| discriminate V]
         | (if ?b then _ else _) = Some _ =>
             let E := fresh "Vz" in
             destruct b eqn:E; [discriminate V |]
         end.

Theorem grammar_followed :
  (forall e, expression_follows e) /\ (forall t, term_follows t) /\
  (forall s, secondary_follows s) /\ (forall p, primary_follows p).
Proof.
  apply grammar_mutind.
  - (* E_term *)
    intros tm IH st st1 v D V t st2 n r G Et L Hr. simpl in D, V.
    destruct (term_done tm IH st st1 v t st2 D V G Et) as [m1 Hm].
    exists (S (Nat.max m1 n)). eapply expression_enter.
    + eapply term_more; [exact Hm | discriminate | lia].
    + eapply expression_loop_more; [exact L | exact Hr | lia].
  - (* E_plus *)
    intros e IHe tm IHt st st1 v D V t st2 n r G Et L Hr. simpl in D, V.
    apply delivers_app in D as (sa & Da & D).
    apply delivers_cons in D as (sb & Gp & Db).
    split_value V. inversion V; subst v.
    assert (Hs : symbols sb = symbols st).
    { rewrite (get_symbols _ _ _ Gp). eapply delivers_symbols; eauto. }
    rewrite <- Hs in Va0.
    destruct (term_done tm IHt sb st1 a0 t st2 Db Va0 G Et) as [m1 Hm].
    apply (IHe st sa a Da Va (Token_kind "+") sb (S (Nat.max m1 n)) r Gp eq_refl);
      [| exact Hr].
    eapply expression_loop_turn;
      [eapply term_more; [exact Hm | discriminate | lia] |].
    left. split; [reflexivity |].
    eapply expression_loop_more; [exact L | exact Hr | lia].
  - (* E_minus *)
    intros e IHe tm IHt st st1 v D V t st2 n r G Et L Hr. simpl in D, V.
    apply delivers_app in D as (sa & Da & D).
    apply delivers_cons in D as (sb & Gp & Db).
    split_value V. inversion V; subst v.
    assert (Hs : symbols sb = symbols st).
    { rewrite (get_symbols _ _ _ Gp). eapply delivers_symbols; eauto. }
    rewrite <- Hs in Va0.
    destruct (term_done tm IHt sb st1 a0 t st2 Db Va0 G Et) as [m1 Hm].
    apply (IHe st sa a Da Va (Token_kind "-") sb (S (Nat.max m1 n)) r Gp eq_refl);
      [| exact Hr].
    eapply expression_loop_turn;
      [eapply term_more; [exact Hm | discriminate | lia] |].
    right. split; [reflexivity |].
    eapply expression_loop_more; [exact L | exact Hr | lia].
  - (* T_secondary *)
    intros s IH st st1 v D V t st2 n r G Et L Hr. simpl in D, V.
    destruct (secondary_done s IH st st1 v t st2 D V G Et) as [m1 Hm].
    exists (S (Nat.max m1 n)). eapply term_enter.
    + eapply secondary_more; [exact Hm | discriminate | lia].
    + eapply term_loop_more; [exact L | exact Hr | lia].
  - (* T_times *)
    intros tm IHt s IHs st st1 v D V t st2 n r G Et L Hr. simpl in D, V.
    apply delivers_app in D as (sa & Da & D).
    apply delivers_cons in D as (sb & Gp & Db).
    split_value V. inversion V; subst v.
    assert (Hs : symbols sb = symbols st).
    { rewrite (get_symbols _ _ _ Gp). eapply delivers_symbols; eauto. }
    rewrite <- Hs in Va0.
    destruct (secondary_done s IHs sb st1 a0 t st2 Db Va0 G Et) as [m1 Hm].
    apply (IHt st sa a Da Va (Token_kind "*") sb (S (Nat.max m1 n)) r Gp eq_refl);
      [| exact Hr].
    eapply term_loop_turn;
      [eapply secondary_more; [exact Hm | discriminate | lia] |].
    left. split; [reflexivity |].
    eapply term_loop_more; [exact L | exact Hr | lia].
  - (* T_divide *)
    intros tm IHt s IHs st st1 v D V t st2 n r G Et L Hr. simpl in D, V.
    apply delivers_app in D as (sa & Da & D).
    apply delivers_cons in D as (sb & Gp & Db).
    split_value V. inversion V; subst v.
    assert (Hs : symbols sb = symbols st).
    { rewrite (get_symbols _ _ _ Gp). eapply delivers_symbols; eauto. }
    rewrite <- Hs in Va0.
    destruct (secondary_done s IHs sb st1 a0 t st2 Db Va0 G Et) as [m1 Hm].
    apply (IHt st sa a Da Va (Token_kind "/") sb (S (Nat.max m1 n)) r Gp eq_refl);
      [| exact Hr].
    eapply term_loop_turn;
      [eapply secondary_more; [exact Hm | discriminate | lia] |].
    right. left. split; [reflexivity |]. split; [exact Vz |].
    eapply term_loop_more; [exact L | exact Hr | lia].
  - (* T_modulo *)
    intros tm IHt s IHs st st1 v D V t st2 n r G Et L Hr. simpl in D, V.
    apply delivers_app in D as (sa & Da & D).
    apply delivers_cons in D as (sb & Gp & Db).
    split_value V. inversion V; subst v.
    assert (Hs : symbols sb = symbols st).
    { rewrite (get_symbols _ _ _ Gp). eapply delivers_symbols; eauto. }
    rewrite <- Hs in Va0.
    destruct (secondary_done s IHs sb st1 a0 t st2 Db Va0 G Et) as [m1 Hm].
    apply (IHt st sa a Da Va (Token_kind "%") sb (S (Nat.max m1 n)) r Gp eq_refl);
      [| exact Hr].
    eapply term_loop_turn;
      [eapply secondary_more; [exact Hm | discriminate | lia] |].
    right. right. split; [reflexivity |]. split; [exact Vz |].
    eapply term_loop_more; [exact L | exact Hr | lia].
  - (* S_primary *)
    intros p IH st st1 v D V t st2 n r G L Hr. simpl in D, V.
    destruct (IH st st1 v D V) as [m1 Hm].
    exists (S (Nat.max m1 n)). eapply secondary_enter.
    + eapply primary_more; [exact Hm | discriminate | lia].
    + exact G.
    + eapply secondary_loop_more; [exact L | exact Hr | lia].
  - (* S_factorial *)
    intros s IH st st1 v D V t st2 n r G L Hr. simpl in D, V.
    apply delivers_app in D as (sa & Da & D). apply delivers_one in D.
    destruct (value_S (symbols st) s) as [a |] eqn:Va; [| discriminate].
    destruct (static_cast_int a) as [x |] eqn:Vc; [| discriminate].
    destruct (factorial x) as [[msg | d] |] eqn:Vf; try discriminate.
    inversion V; subst d.
    apply (IH st sa a Da Va (Token_kind "!") st1 (S n) r D); [| exact Hr].
    eapply secondary_loop_turn; eauto.
  - (* P_number *)
    intros d st st' v D V. simpl in D, V. apply delivers_one in D.
    inversion V; subst v. exists 1%nat.
    rewrite primary_S, (bind_val _ _ _ _ _ D). reflexivity.
  - (* P_paren *)
    intros e IH st st' v D V. simpl in D, V.
    apply delivers_cons in D as (sa & G1 & D).
    apply delivers_app in D as (sb & De & D). apply delivers_one in D.
    rewrite <- (get_symbols _ _ _ G1) in V.
    destruct (expression_done e IH sa sb v _ st' De V D eq_refl) as [m Hm].
    exists (S m). rewrite primary_S, (bind_val _ _ _ _ _ G1). decide_kinds.
    rewrite (bind_val _ _ _ _ _ Hm), (bind_val _ _ _ _ _ (get_pushed _ st')).
    reflexivity.
  - (* P_brace *)
    intros e IH st st' v D V. simpl in D, V.
    apply delivers_cons in D as (sa & G1 & D).
    apply delivers_app in D as (sb & De & D). apply delivers_one in D.
    rewrite <- (get_symbols _ _ _ G1) in V.
    destruct (expression_done e IH sa sb v _ st' De V D eq_refl) as [m Hm].
    exists (S m). rewrite primary_S, (bind_val _ _ _ _ _ G1). decide_kinds.
    rewrite (bind_val _ _ _ _ _ Hm), (bind_val _ _ _ _ _ (get_pushed _ st')).
    reflexivity.
  - (* P_minus *)
    intros p IH st st' v D V. simpl in D, V.
    apply delivers_cons in D as (sa & G1 & D).
    rewrite <- (get_symbols _ _ _ G1) in V.
    destruct (value_P (symbols sa) p) as [a |] eqn:Va; [| discriminate].
    inversion V; subst v.
    destruct (IH sa st' a D Va) as [m Hm].
    exists (S m). rewrite primary_S, (bind_val _ _ _ _ _ G1). decide_kinds.
    now rewrite (bind_val _ _ _ _ _ Hm).
  - (* P_plus *)
    intros p IH st st' v D V. simpl in D, V.
    apply delivers_cons in D as (sa & G1 & D).
    rewrite <- (get_symbols _ _ _ G1) in V.
    destruct (IH sa st' v D V) as [m Hm].
    exists (S m). rewrite primary_S, (bind_val _ _ _ _ _ G1). decide_kinds.
    exact Hm.
  - (* P_name *)
    intros s st st' v D V. simpl in D, V. apply delivers_one in D.
    rewrite <- (get_symbols _ _ _ D) in V.
    exists 1%nat. rewrite primary_S, (bind_val _ _ _ _ _ D). decide_kinds.
    unfold get_value. simpl name.
    destruct (find (named s) (symbols st')) as [w |]; [| discriminate].
    now inversion V.
  - (* P_sqrt *)
    intros e IH st st' v D V. simpl in D, V.
    apply delivers_cons in D as (sa & G1 & D).
    apply delivers_cons in D as (sb & G2 & D).
    apply delivers_app in D as (sc & De & D). apply delivers_one in D.
    rewrite <- (get_symbols _ _ _ G1), <- (get_symbols _ _ _ G2) in V.
    split_value V. inversion V; subst v.
    destruct (expression_done e IH sb sc a _ st' De Va D eq_refl) as [m Hm].
    exists (S (S m)). rewrite primary_S, (bind_val _ _ _ _ _ G1). decide_kinds.
    rewrite eval_function_S. decide_kinds.
    rewrite (bind_val _ _ _ _ _ G2). decide_kinds.
    rewrite (bind_val _ _ _ _ _ Hm), (bind_val _ _ _ _ _ (get_pushed _ st')).
    decide_kinds. now rewrite Vz.
  - (* P_pow *)
    intros e1 IH1 e2 IH2 st st' v D V. simpl in D, V.
    apply delivers_cons in D as (sa & G1 & D).
    apply delivers_cons in D as (sb & G2 & D).
    apply delivers_app in D as (sc & De1 & D).
    apply delivers_cons in D as (sd & G3 & D).
    apply delivers_app in D as (se & De2 & D). apply delivers_one in D.
    split_value V. inversion V; subst v.
    assert (Hb : symbols sb = symbols st).
    { now rewrite (get_symbols _ _ _ G2), (get_symbols _ _ _ G1). }
    assert (Hd : symbols sd = symbols st).
    { rewrite (get_symbols _ _ _ G3), (delivers_symbols _ _ _ De1). exact Hb. }
    rewrite <- Hb in Va. rewrite <- Hd in Va0.
    destruct (expression_done e1 IH1 sb sc a _ sd De1 Va G3 eq_refl) as [m1 Hm1].
    destruct (expression_done e2 IH2 sd se a0 _ st' De2 Va0 D eq_refl) as [m2 Hm2].
    set (k := Nat.max m1 m2).
    assert (Hk1 : expression k sb = Val a (pushed (Token_kind ",") sd)).
    { eapply expression_more; [exact Hm1 | discriminate | lia]. }
    assert (Hk2 : expression k sd = Val a0 (pushed (Token_kind ")") st')).
    { eapply expression_more; [exact Hm2 | discriminate | lia]. }
    exists (S (S k)). rewrite primary_S, (bind_val _ _ _ _ _ G1). decide_kinds.
    rewrite eval_function_S. decide_kinds.
    rewrite (bind_val _ _ _ _ _ G2). decide_kinds.
    rewrite (bind_val _ _ _ _ _ Hk1), (bind_val _ _ _ _ _ (get_pushed _ sd)).
    decide_kinds.
    rewrite (bind_val _ _ _ _ _ Hk2), (bind_val _ _ _ _ _ (get_pushed _ st')).
    decide_kinds. reflexivity.
Qed.

(** The chain on the tokens of a tree followed by a token that ends the
    expression: with enough fuel [expression] returns the value of the
    tree, and the token that follows is back in the buffer. *)
Lemma expression_on_tree (e : Expression) (st st' : State) (t : Token) (v : double) :
  delivers st (tokens_E e ++ [t]) st' ->
  ends_expression t = true ->
  value_E (symbols st) e = Some v ->
  exists n, forall m, (n <= m)%nat -> expression m st = Val v (pushed t st').
Proof.
  intros D Et V.
  apply delivers_app in D as (s1 & De & Dt). apply delivers_one in Dt.
  destruct grammar_followed as (HE & _).
  destruct (expression_done e (HE e) st s1 v t st' De V Dt Et) as [n Hn].
  exists n. intros m Hm. eapply expression_more; [exact Hn | discriminate | exact Hm].
Qed.

(* ================================================================= *)
(** ** Closed runs *)

(** A run computed with [n] units of fuel is the run with any larger
    amount. *)
Ltac run_statement k :=
  exists k; intros m Hm; apply statement_more with (n := k);
  [vm_compute; reflexivity | discriminate | exact Hm].

Ltac run_main k :=
  exists k; intros m Hm; apply main_more with (n := k);
  [vm_compute; reflexivity | discriminate | exact Hm].

(** C3.  On the tokens of any tree of the grammar -- whose shape is left
    associativity at each level and the precedence unary/grouping/call, then
    [!], then [* / %], then [+ -] -- followed by a token that ends the
    expression, [expression] returns the value of the tree whenever the tree
    has one.  In particular [2+3*4] is 14 and [2*3!] is 12, and [pow(2,3)]
    is 8 when [std::pow] is exact on these arguments. *)
Theorem precedence_and_associativity
        (e : Expression) (st st' : State) (t : Token) (v : double) :
  c_pow (Double.of_Z 2) (Double.of_Z 3) = Double.of_Z 8 ->
  delivers st (tokens_E e ++ [t]) st' ->
  ends_expression t = true ->
  value_E (symbols st) e = Some v ->
  (exists n, forall m, (n <= m)%nat -> expression m st = Val v (pushed t st')) /\
  (exists n, forall m, (n <= m)%nat ->
     statement m (startup (line "2+3*4")) = Val (Double.of_Z 14) line_taken) /\
  (exists n, forall m, (n <= m)%nat ->
     statement m (startup (line "2*3!")) = Val (Double.of_Z 12) line_taken) /\
  (exists n, forall m, (n <= m)%nat ->
     statement m (startup (line "pow(2,3)")) = Val (Double.of_Z 8) line_taken).
Proof.
  intros Hpow D Et V. split; [exact (expression_on_tree e st st' t v D Et V) |].
  split; [run_statement 20%nat |]. split; [run_statement 20%nat |].
  exists 20%nat. intros m Hm. apply statement_more with (n := 20%nat);
    [| discriminate | exact Hm].
  vm_compute. vm_compute in Hpow. now rewrite Hpow.
Qed.

(** C1, as the code has it.  In the statement [-3!] the unary minus is
    taken inside [primary], which returns -3; the [!] is then met by the
    loop of [secondary] and applied to -3, and the statement throws "cannot
    get factorial of negative number." *)
Theorem minus_three_factorial_throws :
  (exists n, forall m, (n <= m)%nat ->
     primary m (startup (line "-3!"))
     = Val (Double.of_Z (-3))
           (mk_State [] (mk_istream (line "!") false) startup_table)) /\
  static_cast_int (Double.of_Z (-3)) = Some (-3) /\
  (exists n, forall m, (n <= m)%nat ->
     statement m (startup (line "-3!"))
     = Throw "cannot get factorial of negative number."
             (mk_State [] (mk_istream (line "") false) startup_table)).
Proof.
  split; [| split; [reflexivity |]].
  - exists 20%nat. intros m Hm. apply primary_more with (n := 20%nat);
      [vm_compute; reflexivity | discriminate | exact Hm].
  - run_statement 20%nat.
Qed.

(** C4, at the failing input.  In [13!] the operand converts to the [int]
    13 and the loop of [factorial] multiplies 13 by 12, 11, ..., 4 and then
    by 3, a product which is not an [int]: the multiplication has no
    defined result, and the test [x/prev != i] that should catch it comes
    after it.  So the program has no defined behaviour on [13!], and the
    same holds for every [int] whose factorial is not an [int]; the
    exception "overflow occurred in int." is thrown in no defined run, the
    one exception of [factorial] being that of a negative argument.  An
    operand that [int] cannot hold has no defined conversion either.  The
    rest is as claimed: [3.7!] is 3!, and [12!] is returned. *)
Theorem factorial_overflow_is_undefined :
  static_cast_int (Double.of_Z 13) = Some 13 /\
  factorial 13 = None /\
  (exists n, forall m, (n <= m)%nat ->
     main m (line "13!") = ([], UndefinedBehaviour)) /\
  (forall n, 0 <= n <= INT_MAX -> INT_MAX < fact_Z (Z.to_nat n) ->
             factorial n = None) /\
  (forall n msg, factorial n = Some (inl msg) ->
                 n < 0 /\ msg = "cannot get factorial of negative number."%string) /\
  (exists n, forall m, (n <= m)%nat ->
     main m (line "3000000000!") = ([], UndefinedBehaviour)) /\
  (exists n, forall m, (n <= m)%nat ->
     main m (line "3.7!" ++ line "12!" ++ "q")
     = ([OutResult (Double.of_Z 6); OutResult (Double.of_Z 479001600)],
        Quit)).
Proof.
  split; [reflexivity |]. split; [reflexivity |].
  split; [run_main 20%nat |]. split; [| split; [| split]].
  - intros n Hn Hov. rewrite factorial_spec by (unfold INT_MIN; lia).
    destruct (Z.ltb_spec n 0); [lia |].
    destruct (Z.leb_spec (fact_Z (Z.to_nat n)) INT_MAX); [lia | reflexivity].
  - intros n msg. unfold factorial.
    destruct (Z.ltb_spec n 0) as [Hneg | Hpos].
    + intros E. inversion E. now split.
    + destruct (factorial_loop _ _) as [[msg' | x] |] eqn:L; try discriminate.
      exfalso. exact (factorial_loop_never_throws _ _ _ L).
  - run_main 20%nat.
  - run_main 30%nat.
Qed.

(** C2, at the failing input.  The second loop of [ignore] passes over a
    newline as over any white space.  So after the bad token [@] the
    recovery, which reads [cin] with [cin >> ch] and stops at a [;]
    character only, discards the statement [1+2] of the next line with the
    rest, and nothing is written for it. *)
Theorem recovery_discards_next_line :
  (forall rest, ignore_chars t_print (String newline rest)
                = ignore_chars t_print rest) /\
  clean_up (mk_State [] (mk_istream (String newline (line "1+2")) false) startup_table)
  = mk_State [] (mk_istream "" true) startup_table /\
  (exists n, forall m, (n <= m)%nat ->
     main m (line "@" ++ line "1+2") = ([OutError "bad token"], InputFailed)) /\
  (exists n, forall m, (n <= m)%nat ->
     main m (line "@" ++ line "1+2" ++ line "3+4;5+6" ++ "q")
     = ([OutError "bad token"; OutResult (Double.of_Z 11)], Quit)).
Proof.
  split; [reflexivity |]. split; [reflexivity |]. split; run_main 20%nat.
Qed.

(** Runs of the whole program on the examples of the specification: the
    square root, a declaration followed by an assignment, a second
    declaration of a name, and an assignment to the constant [pi]. *)
Lemma square_root_runs :
  exists n, forall m, (n <= m)%nat ->
    main m (line "sqrt(4); sqrt(-1);" ++ "q")
    = ([OutResult (Double.of_Z 2);
        OutError "cannot get square root of negative number"], Quit).
Proof. run_main 20%nat. Qed.

Lemma declaration_then_assignment_runs :
  exists n, forall m, (n <= m)%nat ->
    main m (line "let x = 5; x" ++ line "x = x + 1; x" ++ "q")
    = ([OutResult (Double.of_Z 5); OutResult (Double.of_Z 5);
        OutResult (Double.of_Z 6); OutResult (Double.of_Z 6)], Quit).
Proof. run_main 20%nat. Qed.

Lemma second_declaration_runs :
  exists n, forall m, (n <= m)%nat ->
    main m (line "let x = 1" ++ line "let x = 2" ++ line "x" ++ "q")
    = ([OutResult (Double.of_Z 1); OutError "x declared twice";
        OutResult (Double.of_Z 1)], Quit).
Proof. run_main 20%nat. Qed.

Lemma assignment_to_pi_runs :
  exists n, forall m, (n <= m)%nat ->
    main m (line "pi = 4" ++ line "pi" ++ "q")
    = ([OutError "trying to write to constant";
        OutResult (Double.of_decimal 31415926535 (-10))], Quit).
Proof. run_main 20%nat. Qed.

(** Subtraction and division associate to the left. *)
Lemma left_associative_runs :
  exists n, forall m, (n <= m)%nat ->
    main m (line "8-3-2; 8/4/2; 2-3!" ++ "q")
    = ([OutResult (Double.of_Z 3); OutResult (Double.of_Z 1);
        OutResult (Double.of_Z (-4))], Quit).
Proof. run_main 20%nat. Qed.

(** The character [%] has no case in [get]. *)
Lemma percent_is_bad_token (rest : string) (tbl : Symbol_table) :
  get (mk_State [] (mk_istream (String "%" rest) false) tbl)
  = Throw "bad token" (mk_State [] (mk_istream rest false) tbl).
Proof. reflexivity. Qed.

(** C5, at the failing input.  [10 / 0] throws "divide by zero" and leaves
    the symbol table as it was; [10 % 0] does not reach [term]: the lexer
    throws "bad token" at the [%]. *)
Theorem modulo_by_zero_is_bad_token :
  (exists n, forall m, (n <= m)%nat ->
     statement m (startup (line "10 / 0")) = Throw "divide by zero" line_taken) /\
  (exists n, forall m, (n <= m)%nat ->
     statement m (startup (line "10 % 0"))
     = Throw "bad token"
             (mk_State [] (mk_istream (line " 0") false) startup_table)) /\
  (exists n, forall m, (n <= m)%nat ->
     main m (line "10 % 0") = ([OutError "bad token"], InputFailed)).
Proof.
  split; [run_statement 20%nat |]. split; [run_statement 20%nat | run_main 20%nat].
Qed.

(** C10, at the failing input.  Whenever [get] has to read the character
    [%] it throws "bad token"; [7.5 % 2] is therefore not evaluated, and the
    [fmod] of [term] is never applied to operands that come from the
    input. *)
Theorem modulo_is_never_evaluated :
  (forall rest tbl,
      get (mk_State [] (mk_istream (String "%" rest) false) tbl)
      = Throw "bad token" (mk_State [] (mk_istream rest false) tbl)) /\
  (exists n, forall m, (n <= m)%nat ->
     statement m (startup (line "7.5 % 2"))
     = Throw "bad token"
             (mk_State [] (mk_istream (line " 2") false) startup_table)) /\
  (exists n, forall m, (n <= m)%nat ->
     main m (line "7.5 % 2") = ([OutError "bad token"], InputFailed)).
Proof.
  split; [exact percent_is_bad_token |].
  split; [run_statement 20%nat | run_main 20%nat].
Qed.

(** Had a [%] token been delivered, the loop of [term] would apply [fmod]
    to the operands as they are. *)
Lemma term_loop_modulo (k : nat) (a b : double) (t t' : Token) (st st1 st2 : State) :
  kind t = "%"%char ->
  secondary k st = Val b st1 -> Double.eqb b Double.zero = false ->
  get st1 = Val t' st2 ->
  term_loop (S k) a t st = term_loop k (Double.fmod a b) t' st2.
Proof.
  intros K H Z G. rewrite term_loop_S, K. decide_kinds.
  rewrite (bind_val _ _ _ _ _ H), Z. now rewrite (bind_val _ _ _ _ _ G).
Qed.

(** Division by zero in general: the right operand is read, then the loop
    of [term] throws; the symbol table is the one [secondary] left, which
    is the one it found. *)
Lemma term_loop_divide_by_zero (k : nat) (a b : double) (t : Token) (st st1 : State) :
  kind t = "/"%char ->
  secondary k st = Val b st1 -> Double.eqb b Double.zero = true ->
  term_loop (S k) a t st = Throw "divide by zero" st1.
Proof.
  intros K H Z. rewrite term_loop_S, K. decide_kinds.
  now rewrite (bind_val _ _ _ _ _ H), Z.
Qed.

(** X12.  On the tokens of [tm / s], whatever the value of the left
    operand [tm], when the value of [s] is zero [term] throws "divide by
    zero" with the token after [s] put back, and the symbol table is as
    before. *)
Lemma division_by_zero_throws
      (tm : Term) (s : Secondary) (st st' : State) (t : Token) (a b : double) :
  delivers st (tokens_T tm ++ Token_kind "/" :: tokens_S s ++ [t]) st' ->
  ends_secondary t = true ->
  value_T (symbols st) tm = Some a ->
  value_S (symbols st) s = Some b ->
  Double.eqb b Double.zero = true ->
  (exists n, forall m, (n <= m)%nat ->
     term m st = Throw "divide by zero" (pushed t st')) /\
  symbols (pushed t st') = symbols st.
Proof.
  intros D Et Va Vb Z.
  assert (Hsym : symbols (pushed t st') = symbols st).
  { simpl. eapply delivers_symbols; eauto. }
  split; [| exact Hsym].
  apply delivers_app in D as (sa & Da & D).
  apply delivers_cons in D as (sb & Gd & D).
  apply delivers_app in D as (sc & Ds & D). apply delivers_one in D.
  destruct grammar_followed as (_ & HT & HS & _).
  assert (Hb : symbols sb = symbols st).
  { rewrite (get_symbols _ _ _ Gd). eapply delivers_symbols; eauto. }
  rewrite <- Hb in Vb.
  destruct (secondary_done s (HS s) sb sc b t st' Ds Vb D Et) as [m1 Hm1].
  destruct (HT tm st sa a Da Va (Token_kind "/") sb (S m1)
               (Throw "divide by zero" (pushed t st')) Gd eq_refl)
    as [n Hn].
  - now apply term_loop_divide_by_zero with (b := b).
  - discriminate.
  - exists n. intros m Hm.
    eapply term_more; [exact Hn | discriminate | exact Hm].
Qed.

(* ================================================================= *)
(** ** The symbol table under evaluation *)

Lemma keeps_bind {A B} (m : M A) (k : A -> M B) (st : State) (tbl : Symbol_table) :
  keeps (m st) tbl ->
  (forall a st1, symbols st1 = tbl -> keeps (k a st1) tbl) ->
  keeps (bind m k st) tbl.
Proof.
  unfold bind. destruct (m st) as [a st1 | msg st1 | | |]; simpl; auto.
Qed.

Lemma keeps_get (st : State) : keeps (get st) (symbols st).
Proof.
  destruct (get st) as [t st1 | msg st1 | | |] eqn:E; simpl; auto.
  - eapply get_symbols; eauto.
  - unfold get in E. destruct (buffer st); [| discriminate].
    destruct (failed (cin st)); [discriminate |].
    destruct (skip_blanks (chars (cin st))) as [[ch rest] |]; [| discriminate].
    repeat match type of E with
           | (if ?b then _ else _) = _ => destruct b
           | (let '(_, _) := ?p in _) = _ => destruct p
           end; inversion E; reflexivity.
Qed.

Lemma keeps_get_value (s : string) (st : State) : keeps (get_value s st) (symbols st).
Proof.
  unfold get_value. now destruct (find (named s) (symbols st)).
Qed.

Lemma keeps_raise {A} (r : except A) (st : State) : keeps (raise r st) (symbols st).
Proof. now destruct r. Qed.

(** One step of the case analysis on a body of the chain. *)
Ltac keeps_step :=
  cbv beta;
  match goal with
  | H : symbols ?st = ?tbl |- keeps (get ?st) ?tbl => rewrite <- H; apply keeps_get
  | H : symbols ?st = ?tbl |- keeps (get_value _ ?st) ?tbl =>
      rewrite <- H; apply keeps_get_value
  | H : symbols ?st = ?tbl |- keeps (raise _ ?st) ?tbl =>
      rewrite <- H; apply keeps_raise
  | H : symbols ?st = ?tbl |- keeps (putback _ ?st) ?tbl => exact H
  | H : symbols ?st = ?tbl |- keeps (ret _ ?st) ?tbl => exact H
  | H : symbols ?st = ?tbl |- keeps (throw _ ?st) ?tbl => exact H
  | |- keeps (bind _ _ _) _ => apply keeps_bind; [ | intros ? ? ? ]
  | |- keeps ((if ?b then _ else _) _) _ => destruct b
  | |- keeps ((match ?o with Some _ => _ | None => _ end) _) _ => destruct o
  | |- keeps Undefined _ => exact I
  end.

Lemma secondary_loop_keeps (n : nat) :
  forall left t st tbl,
    symbols st = tbl -> keeps (secondary_loop n left t st) tbl.
Proof.
  induction n as [| n IH]; intros left t st tbl H; [exact I |].
  rewrite secondary_loop_S. repeat keeps_step; auto.
Qed.

(** The members of the chain read the symbol table and never write it. *)
Lemma chain_keeps (n : nat) :
  (forall st tbl, symbols st = tbl -> keeps (expression n st) tbl) /\
  (forall left t st tbl,
      symbols st = tbl -> keeps (expression_loop n left t st) tbl) /\
  (forall st tbl, symbols st = tbl -> keeps (term n st) tbl) /\
  (forall left t st tbl, symbols st = tbl -> keeps (term_loop n left t st) tbl) /\
  (forall st tbl, symbols st = tbl -> keeps (secondary n st) tbl) /\
  (forall st tbl, symbols st = tbl -> keeps (primary n st) tbl) /\
  (forall t st tbl, symbols st = tbl -> keeps (eval_function n t st) tbl).
Proof.
  induction n as [| n (IHe & IHel & IHt & IHtl & IHs & IHp & IHf)].
  - repeat split; intros; exact I.
  - pose proof (secondary_loop_keeps n) as IHsl.
    repeat split; intros.
    + rewrite expression_S. repeat keeps_step; auto.
    + rewrite expression_loop_S. repeat keeps_step; auto.
    + rewrite term_S. repeat keeps_step; auto.
    + rewrite term_loop_S. repeat keeps_step; auto.
    + rewrite secondary_S. repeat keeps_step; auto.
    + rewrite primary_S. repeat keeps_step; auto.
    + rewrite eval_function_S. repeat keeps_step; auto.
Qed.

Lemma expression_keeps (n : nat) (st : State) : keeps (expression n st) (symbols st).
Proof. destruct (chain_keeps n) as (H & _). now apply H. Qed.

Lemma keeps_failing_bind {A B} (m : M A) (k : A -> M B) (st : State)
      (tbl : Symbol_table) :
  keeps (m st) tbl ->
  (forall a st1, symbols st1 = tbl -> keeps_failing (k a st1) tbl) ->
  keeps_failing (bind m k st) tbl.
Proof.
  unfold bind. destruct (m st) as [a st1 | msg st1 | | |]; simpl; auto.
Qed.

Lemma keeps_failing_weaken {A} (r : Res A) (tbl : Symbol_table) :
  keeps r tbl -> keeps_failing r tbl.
Proof. now destruct r. Qed.

Lemma keeps_failing_update {A B} (m : M A) (b : B) (st : State) (tbl : Symbol_table) :
  keeps_failing (m st) tbl -> keeps_failing ((m ;;; ret b) st) tbl.
Proof.
  unfold bind. now destruct (m st).
Qed.

Lemma define_name_keeps_failing (var : string) (val : double) (constant : bool)
      (st : State) :
  keeps_failing (define_name var val constant st) (symbols st).
Proof.
  rewrite define_name_eq. now destruct (existsb (named var) (symbols st)).
Qed.

Lemma set_value_keeps_failing (s : string) (d : double) (st : State) :
  keeps_failing (set_value s d st) (symbols st).
Proof.
  unfold set_value. now destruct (set_value_in (symbols st) s d).
Qed.

Ltac keeps_failing_step :=
  cbv beta;
  match goal with
  | |- keeps_failing (bind (define_name _ _ _) _ ?st) _ =>
      apply keeps_failing_update
  | |- keeps_failing (bind (set_value _ _) _ ?st) _ =>
      apply keeps_failing_update
  | H : symbols ?st = ?tbl |- keeps_failing (define_name _ _ _ ?st) ?tbl =>
      rewrite <- H; apply define_name_keeps_failing
  | H : symbols ?st = ?tbl |- keeps_failing (set_value _ _ ?st) ?tbl =>
      rewrite <- H; apply set_value_keeps_failing
  | |- keeps_failing (bind _ _ _) _ =>
      apply keeps_failing_bind; [ | intros ? ? ? ]
  | |- keeps_failing ((if ?b then _ else _) _) _ => destruct b
  | H : symbols ?st = ?tbl |- keeps_failing (expression _ ?st) ?tbl =>
      apply keeps_failing_weaken; rewrite <- H; apply expression_keeps
  | H : symbols ?st = ?tbl |- keeps_failing (throw _ ?st) ?tbl => exact H
  | H : symbols ?st = ?tbl |- keeps (is_declared _ ?st) ?tbl => exact H
  | H : symbols ?st = ?tbl |- keeps (expression _ ?st) ?tbl =>
      rewrite <- H; apply expression_keeps
  | |- keeps _ _ => keeps_step
  end.

(** X11.  A statement that throws leaves the symbol table as it found
    it: whichever the error, every variable keeps its value. *)
Theorem failing_statement_keeps_symbols
        (n : nat) (st st' : State) (msg : string) :
  statement n st = Throw msg st' -> symbols st' = symbols st.
Proof.
  intros E.
  assert (H : keeps_failing (statement n st) (symbols st)).
  { assert (H0 : symbols st = symbols st) by reflexivity.
    revert H0. generalize (symbols st) at 2 3 as tbl. intros tbl H0.
    unfold statement, declaration, assignment.
    repeat keeps_failing_step. }
  now rewrite E in H.
Qed.

(* ================================================================= *)
(** ** Words: keywords and names *)

(** An alphabetic character other than [q] reaches the branch of [get]
    that reads a word. *)
Lemma alpha_reaches_word (c : ascii) :
  isalpha c = true -> c <> "q"%char ->
  isspace c = false /\
  ((c =? t_print)%char || (c =? newline)%char) = false /\
  is_self_kind c = false /\
  ((c =? ".")%char || isdigit c) = false.
Proof.
  destruct c as [[] [] [] [] [] [] [] []]; vm_compute; intros H N;
    try discriminate H; try (exfalso; apply N; reflexivity);
    repeat split; reflexivity.
Qed.

(** [read_name] takes the longest run of name characters: what it
    accumulates and what it leaves make up the input, the accumulated
    characters are name characters, and what is left does not start with
    one; the stream has failed exactly when the run reached the end of the
    input. *)
Lemma read_name_maximal (input : string) :
  (fst (read_name input) ++ chars (snd (read_name input)))%string = input /\
  forallb is_name_char (list_ascii_of_string (fst (read_name input))) = true /\
  match chars (snd (read_name input)) with
  | EmptyString => failed (snd (read_name input)) = true
  | String ch _ =>
      is_name_char ch = false /\ failed (snd (read_name input)) = false
  end.
Proof.
  induction input as [| ch rest (IH1 & IH2 & IH3)]; simpl.
  - auto.
  - destruct (is_name_char ch) eqn:E.
    + destruct (read_name rest) as [s is']. simpl in *.
      rewrite IH1, E, IH2. auto.
    + simpl. auto.
Qed.

Lemma keyword_token_table (w : string) :
  (forall k, In (w, k) word_keywords -> keyword_token w = Token_kind k) /\
  ((forall k, ~ In (w, k) word_keywords) -> w <> quitkey ->
   keyword_token w = Token_name t_name w).
Proof.
  split.
  - intros k H. simpl in H.
    repeat (destruct H as [H | H]; [inversion H; subst; reflexivity |]).
    destruct H.
  - intros H Q. unfold keyword_token.
    repeat match goal with
           | |- context [(w =? ?key)%string] =>
               destruct (String.eqb_spec w key) as [E | _];
               [exfalso; first [exact (Q E) | subst w; eapply H; simpl; eauto 8] |]
           end.
    reflexivity.
Qed.

(** Words that do not start with [q].  When the next character is
    alphabetic and is not [q], [get] takes the longest run of alphabetic,
    digit and underscore characters that starts there and compares it,
    exactly, with const, let, sqrt, pow, help and symbols: such a word gives
    its keyword token, and every other run gives a name token that carries
    the run. *)
Lemma words_are_keywords_or_names
        (c : ascii) (rest : string) (tbl : Symbol_table) :
  isalpha c = true -> c <> "q"%char ->
  let st := mk_State [] (mk_istream (String c rest) false) tbl in
  let word := String c (fst (read_name rest)) in
  let left := snd (read_name rest) in
  get st = Val (keyword_token word) (set_cin left st) /\
  (word ++ chars left)%string = String c rest /\
  forallb is_name_char (list_ascii_of_string (fst (read_name rest))) = true /\
  match chars left with
  | EmptyString => True
  | String ch _ => is_name_char ch = false
  end /\
  (forall k, In (word, k) word_keywords -> keyword_token word = Token_kind k) /\
  ((forall k, ~ In (word, k) word_keywords) ->
   keyword_token word = Token_name t_name word).
Proof.
  intros Ha Hq st word left.
  destruct (alpha_reaches_word c Ha Hq) as (Hs & Hp & Hk & Hd).
  destruct (read_name_maximal rest) as (M1 & M2 & M3).
  destruct (keyword_token_table word) as (K1 & K2).
  repeat split.
  - unfold get. simpl. rewrite Hs. simpl. rewrite Hp, Hk, Hd, Ha.
    subst word left. now destruct (read_name rest).
  - subst word left. simpl. now rewrite M1.
  - exact M2.
  - subst left. destruct (chars (snd (read_name rest)));
      [exact I | exact (proj1 M3)].
  - exact K1.
  - intros H. apply K2; [exact H |].
    subst word. unfold quitkey. intros E. inversion E. now apply Hq.
Qed.

(** C7, at the failing input.  The word [exit] is compared with const,
    let, sqrt, pow, help, symbols and quit, and with nothing else: [get]
    makes the name token [exit] of it, and the program, where it should
    return, reports the undefined variable [exit] and goes on with the next
    line.  The quit command is known by its first letter alone: on any
    input that starts with [q], [get] returns the quit token and leaves what
    follows the [q] unread, so the comparison of a word with [quitkey] is
    never reached with [quit], and no name can start with [q]: in [let
    qty = 1] the token after [let] is the quit token. *)
Theorem exit_is_read_as_a_name :
  get (startup (line "exit"))
  = Val (Token_name t_name "exit")
        (mk_State [] (mk_istream (line "") false) startup_table) /\
  (exists n, forall m, (n <= m)%nat ->
     main m (line "exit" ++ line "1+2")
     = ([OutError "trying to read undefined variable exit";
         OutResult (Double.of_Z 3)], Hangs)) /\
  (forall rest tbl,
      get (mk_State [] (mk_istream (String "q" rest) false) tbl)
      = Val (Token_kind t_quit) (mk_State [] (mk_istream rest false) tbl)) /\
  (exists n, forall m, (n <= m)%nat ->
     main m (line "let qty = 1")
     = ([OutError "name expected in declaration"], InputFailed)).
Proof.
  split; [reflexivity |]. split; [run_main 20%nat |].
  split; [reflexivity |]. run_main 20%nat.
Qed.

(* ================================================================= *)
(** ** Symbol_table: lookups, writes and declarations together *)

Lemma find_named_In (s : string) (tbl : Symbol_table) (v : Var) :
  find (named s) tbl = Some v -> In s (names tbl).
Proof.
  intros H. apply find_some in H as [Hin Hn].
  apply named_true in Hn. subst s. unfold names. now apply in_map.
Qed.

Lemma find_declared (s : string) (tbl : Symbol_table) :
  In s (names tbl) -> exists v, find (named s) tbl = Some v.
Proof.
  intros H. destruct (find (named s) tbl) as [v |] eqn:E; [now exists v |].
  exfalso. apply declared_In in H. apply existsb_exists in H as (w & Hin & Hw).
  now rewrite (find_none _ _ E w Hin) in Hw.
Qed.

Lemma find_app_left (s : string) (tbl tbl' : Symbol_table) (v : Var) :
  find (named s) tbl = Some v -> find (named s) (tbl ++ tbl') = Some v.
Proof.
  induction tbl as [| w rest IH]; simpl; [discriminate |].
  destruct (named s w); auto.
Qed.

Lemma find_app_right (s : string) (tbl tbl' : Symbol_table) :
  find (named s) tbl = None ->
  find (named s) (tbl ++ tbl') = find (named s) tbl'.
Proof.
  induction tbl as [| w rest IH]; simpl; [reflexivity |].
  destruct (named s w); [discriminate | auto].
Qed.

Lemma set_value_in_declared (s : string) (d : double) (tbl : Symbol_table) :
  In s (names tbl) ->
  set_value_in tbl s d = inl "trying to write to constant"%string \/
  exists tbl', set_value_in tbl s d = inr tbl'.
Proof.
  induction tbl as [| w rest IH]; simpl; [intros [] |].
  intros H. destruct (named s w) eqn:E.
  - destruct (var_constant w); [now left | right; eauto].
  - destruct H as [H | H]; [apply String.eqb_neq in E; contradiction |].
    destruct (IH H) as [-> | (tbl' & ->)]; [now left | right; eauto].
Qed.

Lemma set_value_in_frame (s : string) (d : double) (tbl tbl' : Symbol_table) :
  set_value_in tbl s d = inr tbl' ->
  map var_constant tbl' = map var_constant tbl /\
  find (named s) tbl' = option_map (fun v => mk_Var (var_name v) d false)
                                   (find (named s) tbl) /\
  find (named s) tbl <> None /\
  forall s', s' <> s -> find (named s') tbl' = find (named s') tbl.
Proof.
  revert tbl'. induction tbl as [| w rest IH]; intros tbl'; simpl;
    [discriminate |].
  destruct (named s w) eqn:E.
  - destruct (var_constant w) eqn:C; [discriminate |].
    intros H; inversion H; subst tbl'; clear H. simpl.
    assert (E' : named s (mk_Var (var_name w) d false) = true) by exact E.
    rewrite E'. repeat split; try congruence.
    intros s' Hs. apply named_true in E.
    assert (N : named s' w = false).
    { apply String.eqb_neq. congruence. }
    assert (N' : named s' (mk_Var (var_name w) d false) = false) by exact N.
    now rewrite N, N'.
  - destruct (set_value_in rest s d) as [msg | rest'] eqn:R; [discriminate |].
    intros H; inversion H; subst tbl'; clear H.
    destruct (IH rest' eq_refl) as (H1 & H2 & H3 & H4).
    simpl. rewrite E, H1. repeat split; auto.
    intros s' Hs. destruct (named s' w); auto.
Qed.

(** X1.  A lookup or a write by a name the table does not hold is a failure
    with its own message and leaves the state as it was, and such a failure
    happens for no other reason: [get_value] throws "trying to read
    undefined variable" exactly when the name is absent, [set_value] throws
    "trying to write undefined variable" exactly when the name is absent,
    and on a name that is present [get_value] returns the value the table
    holds for it. *)
Theorem unknown_name_is_the_only_lookup_failure
        (st : State) (s : string) (d : double) :
  (get_value s st = Throw ("trying to read undefined variable " ++ s) st
   <-> ~ In s (names (symbols st))) /\
  (set_value s d st = Throw ("trying to write undefined variable " ++ s) st
   <-> ~ In s (names (symbols st))) /\
  (In s (names (symbols st)) ->
   exists v, get_value s st = Val v st /\ value_of (symbols st) s = Some v).
Proof.
  split; [| split].
  - unfold get_value. split.
    + destruct (find (named s) (symbols st)) as [v |] eqn:E; [discriminate |].
      intros _ H. apply find_declared in H as (v & H). congruence.
    + intros H. now rewrite (find_absent s _ H).
  - unfold set_value. split.
    + intros H Hin.
      destruct (set_value_in_declared s d _ Hin) as [E | (tbl' & E)];
        rewrite E in H; discriminate H.
    + intros H. now rewrite (set_value_in_absent s d _ H).
  - intros H. apply find_declared in H as (v & H).
    exists (var_value v). unfold get_value, value_of. now rewrite H.
Qed.

(** X2.  Declaration followed by lookup.  On a name the table does not hold,
    [define_name] adds the variable at the end; in the state it leaves,
    [get_value] returns the declared value, [is_declared] answers true, the
    constant flag is the one given, and every other name has the value and
    the flag it had. *)
Theorem define_then_lookup
        (var : string) (val : double) (constant : bool) (st : State) :
  ~ In var (names (symbols st)) ->
  let st1 := set_symbols (symbols st ++ [mk_Var var val constant]) st in
  define_name var val constant st = Val val st1 /\
  get_value var st1 = Val val st1 /\
  is_declared var st1 = Val true st1 /\
  constant_of (symbols st1) var = Some constant /\
  forall s, s <> var ->
            value_of (symbols st1) s = value_of (symbols st) s /\
            constant_of (symbols st1) s = constant_of (symbols st) s.
Proof.
  intros H st1.
  assert (F : find (named var) (symbols st1) = Some (mk_Var var val constant)).
  { subst st1. simpl. rewrite find_app_right by now apply find_absent.
    simpl. unfold named. simpl. now rewrite String.eqb_refl. }
  split; [| split; [| split; [| split]]].
  - rewrite define_name_eq. apply not_declared_In in H. now rewrite H.
  - unfold get_value. now rewrite F.
  - unfold is_declared. f_equal.
    apply declared_In. eapply find_named_In. exact F.
  - unfold constant_of. now rewrite F.
  - intros s Hs. unfold value_of, constant_of. subst st1. simpl.
    destruct (find (named s) (symbols st)) as [v |] eqn:E.
    + now rewrite (find_app_left _ _ _ _ E).
    + rewrite (find_app_right _ _ _ E). simpl.
      assert (N : named s (mk_Var var val constant) = false).
      { apply String.eqb_neq. simpl. congruence. }
      now rewrite N.
Qed.

(** X3.  A write that returns changes one value and nothing else: after
    [set_value(s, d)] the token buffer and [cin] are untouched, the table
    has the same names in the same order with the same constant flags, the
    name [s] has the value [d] and is not constant, and every other name has
    the value it had. *)
Theorem set_value_changes_one_value
        (s : string) (d : double) (st st' : State) :
  set_value s d st = Val tt st' ->
  buffer st' = buffer st /\ cin st' = cin st /\
  names (symbols st') = names (symbols st) /\
  map var_constant (symbols st') = map var_constant (symbols st) /\
  value_of (symbols st') s = Some d /\
  constant_of (symbols st') s = Some false /\
  forall s', s' <> s -> value_of (symbols st') s' = value_of (symbols st) s'.
Proof.
  unfold set_value.
  destruct (set_value_in (symbols st) s d) as [msg | tbl'] eqn:E;
    [discriminate |].
  intros H; inversion H; subst st'; clear H. simpl.
  destruct (set_value_in_frame _ _ _ _ E) as (H1 & H2 & H3 & H4).
  repeat split; auto.
  - eapply set_value_in_names; eauto.
  - unfold value_of. rewrite H2.
    destruct (find (named s) (symbols st)); [reflexivity | contradiction].
  - unfold constant_of. rewrite H2.
    destruct (find (named s) (symbols st)); [reflexivity | contradiction].
  - intros s' Hs. unfold value_of. now rewrite (H4 s' Hs).
Qed.

(* ================================================================= *)
(** ** factorial: the arguments on which it returns *)

(** X4.  On an [int], [factorial] returns exactly for 0 to 12, and then
    it returns the factorial: below 0 it throws "cannot get factorial of
    negative number.", and from 13 on a product of the loop is not an
    [int], 13! being the first factorial that is none, so that the call has
    no defined result. *)
Theorem factorial_returns_from_0_to_12 (n : Z) :
  INT_MIN <= n <= INT_MAX ->
  (n < 0 ->
   factorial n = Some (inl "cannot get factorial of negative number."%string)) /\
  (0 <= n <= 12 ->
   factorial n = Some (inr (Double.of_Z (fact_Z (Z.to_nat n))))) /\
  (12 < n -> factorial n = None) /\
  ((exists d, factorial n = Some (inr d)) <-> 0 <= n <= 12).
Proof.
  intros Hn. rewrite (factorial_spec n Hn).
  destruct (Z.ltb_spec n 0) as [Hneg | Hpos].
  - split; [reflexivity |]. split; [lia |]. split; [lia |].
    split; [intros (d & Hd); discriminate Hd | lia].
  - rewrite (factorial_fits n Hpos).
    destruct (Z.leb_spec n 12) as [Hle | Hgt].
    + split; [lia |]. split; [reflexivity |]. split; [lia |].
      split; [lia | intros _; eauto].
    + split; [lia |]. split; [lia |]. split; [reflexivity |].
      split; [intros (d & Hd); discriminate Hd | lia].
Qed.

(* ================================================================= *)
(** ** Token_stream: what get reads and what ignore discards *)

Lemma skip_blanks_app (bs rest : string) :
  all_chars blank bs = true -> skip_blanks (bs ++ rest) = skip_blanks rest.
Proof.
  unfold all_chars. induction bs as [| ch bs IH]; simpl; [reflexivity |].
  intros H. apply andb_true_iff in H as [Hb H].
  unfold blank in Hb. rewrite Hb. auto.
Qed.

Lemma skip_blanks_all (bs : string) :
  all_chars blank bs = true -> skip_blanks bs = None.
Proof.
  unfold all_chars. induction bs as [| ch bs IH]; simpl; [reflexivity |].
  intros H. apply andb_true_iff in H as [Hb H].
  unfold blank in Hb. rewrite Hb. auto.
Qed.

(** X5.  Blanks before a token do not matter: with an empty buffer, [get]
    on an input that starts with spaces, tabs or other white space except
    the newline does what it does on the input without them. *)
Theorem get_passes_over_blanks (bs rest : string) (tbl : Symbol_table) :
  all_chars blank bs = true ->
  get (mk_State [] (mk_istream (bs ++ rest) false) tbl)
  = get (mk_State [] (mk_istream rest false) tbl).
Proof.
  intros H. unfold get. simpl.
  rewrite (skip_blanks_app bs rest H). reflexivity.
Qed.

(** X6.  At the end of the input [get] never returns.  With an empty
    buffer, when the stream has failed or holds nothing but blanks, the loop
    that looks for a character never exits; so on an input of blanks only
    (the empty input among them) the program writes nothing and does not
    end. *)
Theorem get_never_returns_at_end_of_input (st : State) :
  buffer st = [] ->
  failed (cin st) = true \/ all_chars blank (chars (cin st)) = true ->
  get st = Hang /\
  (failed (cin st) = false -> forall fuel, calculate (S fuel) st = ([], Hangs)).
Proof.
  intros Hb H.
  assert (G : get st = Hang).
  { unfold get. rewrite Hb. destruct H as [-> | H]; [reflexivity |].
    rewrite (skip_blanks_all _ H). now destruct (failed (cin st)). }
  split; [exact G |].
  intros Hf fuel. simpl. rewrite Hf.
  unfold calculate_step, bind at 1. now rewrite G.
Qed.

Lemma ignore_buffer_found (c : ascii) (pre suf : list Token) (t : Token) :
  forallb (other_kind c) pre = true -> kind t = c ->
  ignore_buffer c (pre ++ t :: suf) = t :: suf.
Proof.
  intros H K. induction pre as [| u pre IH]; simpl in *.
  - now rewrite K, Ascii.eqb_refl.
  - apply andb_true_iff in H as [Hu H]. unfold other_kind in Hu.
    apply negb_true_iff in Hu. rewrite Hu. auto.
Qed.

Lemma ignore_buffer_none (c : ascii) (b : list Token) :
  forallb (other_kind c) b = true -> ignore_buffer c b = [].
Proof.
  induction b as [| u b IH]; simpl; [reflexivity |].
  intros H. apply andb_true_iff in H as [Hu H]. unfold other_kind in Hu.
  apply negb_true_iff in Hu. rewrite Hu. auto.
Qed.

Lemma ignore_chars_found (c : ascii) (pre rest : string) :
  isspace c = false -> all_chars (other_char c) pre = true ->
  ignore_chars c (pre ++ String c rest) = mk_istream rest false.
Proof.
  intros Hc. unfold all_chars. induction pre as [| ch pre IH]; simpl.
  - intros _. now rewrite Hc, Ascii.eqb_refl.
  - intros H. apply andb_true_iff in H as [Hch H]. unfold other_char in Hch.
    apply negb_true_iff in Hch. rewrite Hch.
    destruct (isspace ch); auto.
Qed.

Lemma ignore_chars_none (c : ascii) (input : string) :
  all_chars (other_char c) input = true ->
  ignore_chars c input = mk_istream EmptyString true.
Proof.
  unfold all_chars. induction input as [| ch input IH]; simpl; [reflexivity |].
  intros H. apply andb_true_iff in H as [Hch H]. unfold other_char in Hch.
  apply negb_true_iff in Hch. rewrite Hch.
  destruct (isspace ch); auto.
Qed.

(** X7.  [ignore(c)] with a token of kind [c] in the buffer: the tokens put
    back after it are dropped, that token stays at the back of the buffer to
    be read next, and not one character of [cin] is read. *)
Theorem ignore_stops_at_buffered_token
        (c : ascii) (st : State) (pre suf : list Token) (t : Token) :
  buffer st = pre ++ t :: suf ->
  forallb (other_kind c) pre = true ->
  kind t = c ->
  ignore c st = set_buffer (t :: suf) st /\
  cin (ignore c st) = cin st /\
  get (ignore c st) = Val t (set_buffer suf st).
Proof.
  intros Hb Hp K.
  assert (E : ignore c st = set_buffer (t :: suf) st).
  { unfold ignore. now rewrite Hb, (ignore_buffer_found c pre suf t Hp K). }
  rewrite E. repeat split.
Qed.

(** X8.  [ignore(c)] with no token of kind [c] in the buffer, for a [c]
    that is not white space: the buffer is emptied and [cin] is read up to
    and including the first character [c], whatever comes before it,
    newlines included; when there is no [c] the whole input is read and the
    stream fails. *)
Theorem ignore_reads_up_to_the_character
        (c : ascii) (st : State) (pre tail : string) :
  forallb (other_kind c) (buffer st) = true ->
  failed (cin st) = false ->
  isspace c = false ->
  chars (cin st) = (pre ++ tail)%string ->
  all_chars (other_char c) pre = true ->
  tail = EmptyString \/ (exists rest, tail = String c rest) ->
  ignore c st =
  mk_State []
           match tail with
           | EmptyString => mk_istream EmptyString true
           | String _ rest => mk_istream rest false
           end
           (symbols st).
Proof.
  intros Hb Hf Hc Hs Hp Ht. unfold ignore.
  rewrite (ignore_buffer_none c _ Hb), Hf, Hs.
  destruct Ht as [-> | (rest & ->)].
  - rewrite ignore_chars_none; [reflexivity |].
    clear Hs. unfold all_chars in *.
    induction pre as [| ch pre IH]; simpl in *; [reflexivity |].
    apply andb_true_iff in Hp as [-> Hp]. auto.
  - now rewrite (ignore_chars_found c pre rest Hc Hp).
Qed.

Lemma In_input_kinds_not_percent (k : ascii) :
  In k input_kinds -> (k =? "%")%char = false.
Proof.
  unfold input_kinds, self_kinds. simpl. intros H.
  repeat (destruct H as [<- | H]; [reflexivity |]). destruct H.
Qed.

Lemma self_kind_In (ch : ascii) : is_self_kind ch = true -> In ch self_kinds.
Proof.
  unfold is_self_kind. intros H. apply existsb_exists in H as (k & Hin & Hk).
  apply Ascii.eqb_eq in Hk. now subst.
Qed.

(** What X9 says of one token. *)
Lemma plain_token_made (t : Token) :
  In (kind t) input_kinds -> kind t <> t_name -> name t = EmptyString ->
  In (kind t) input_kinds /\
  (kind t <> t_name -> name t = EmptyString) /\
  (kind t = t_name ->
   value t = Double.zero /\
   (forall k, ~ In (name t, k) word_keywords) /\
   exists c s, name t = String c s /\ isalpha c = true /\ c <> "q"%char /\
               all_chars is_name_char s = true).
Proof.
  intros H1 H2 H3. split; [exact H1 |]. split; [intros _; exact H3 |].
  intros H. contradiction.
Qed.

(** X9.  What [get] makes of the input.  With an empty buffer, a token that
    [get] returns has one of the kinds of [input_kinds], never [%]; it
    carries a name only when it is a name token, and then the name is a
    letter other than [q] followed by letters, digits and underscores and is
    none of the keywords; the buffer stays empty and the symbol table is not
    touched. *)
Theorem tokens_made_from_input (st st' : State) (t : Token) :
  buffer st = [] ->
  get st = Val t st' ->
  (In (kind t) input_kinds /\
   (kind t <> t_name -> name t = EmptyString) /\
   (kind t = t_name ->
    value t = Double.zero /\
    (forall k, ~ In (name t, k) word_keywords) /\
    exists c s, name t = String c s /\ isalpha c = true /\ c <> "q"%char /\
                all_chars is_name_char s = true)) /\
  (kind t =? "%")%char = false /\
  buffer st' = [] /\ symbols st' = symbols st.
Proof.
  intros Hb G.
  assert (S : symbols st' = symbols st) by (eapply get_symbols; eauto).
  cut ((In (kind t) input_kinds /\
        (kind t <> t_name -> name t = EmptyString) /\
        (kind t = t_name ->
         value t = Double.zero /\
         (forall k, ~ In (name t, k) word_keywords) /\
         exists c s, name t = String c s /\ isalpha c = true /\
                     c <> "q"%char /\ all_chars is_name_char s = true)) /\
       buffer st' = []).
  { intros (K & B). split; [exact K |]. split; [| now split].
    apply In_input_kinds_not_percent. apply K. }
  clear S. unfold get in G. rewrite Hb in G.
  destruct (failed (cin st)); [discriminate |].
  destruct (skip_blanks (chars (cin st))) as [[ch rest] |]; [| discriminate].
  destruct ((ch =? t_print)%char || (ch =? newline)%char).
  { inversion G; subst. split; [| exact Hb].
    apply plain_token_made; [| discriminate | reflexivity].
    now left. }
  destruct (is_self_kind ch) eqn:Hself.
  { inversion G; subst. split; [| exact Hb].
    apply plain_token_made; [| | reflexivity].
    - unfold input_kinds. right. apply in_or_app. left.
      now apply self_kind_In.
    - simpl. intros ->. discriminate Hself. }
  destruct ((ch =? ".")%char || isdigit ch).
  { destruct (extract_double _) as [val is'].
    inversion G; subst. split; [| exact Hb].
    apply plain_token_made; [| discriminate | reflexivity].
    unfold input_kinds, self_kinds. simpl. auto 20. }
  destruct (isalpha ch) eqn:Ha; [| discriminate].
  pose proof (read_name_maximal rest) as (_ & M & _).
  destruct (read_name rest) as [s is']. simpl in M.
  inversion G; subst; clear G. split; [| exact Hb].
  unfold keyword_token.
  repeat match goal with
         | |- context [(?w =? ?key)%string] =>
             destruct (String.eqb_spec w key);
             [apply plain_token_made;
              [unfold input_kinds, self_kinds; simpl; auto 30
              | discriminate | reflexivity] |]
         end.
  split; [| split].
  - unfold input_kinds, self_kinds. simpl. auto 30.
  - intros H. now elim H.
  - intros _. split; [reflexivity |]. split.
    + intros k H. simpl in H.
      repeat (destruct H as [H | H]; [inversion H; congruence |]).
      destruct H.
    + exists ch, s. split; [reflexivity |]. split; [exact Ha |].
      split; [| exact M].
      intros ->. discriminate Hself.
Qed.

(** X10.  Evaluation reads the symbol table and never writes it: whether
    [expression], [term], [secondary], [primary] or [eval_function] returns
    or throws, the table of the state it leaves is the table it was called
    with. *)
Theorem evaluation_never_writes_symbols (n : nat) (st : State) :
  keeps (expression n st) (symbols st) /\
  keeps (term n st) (symbols st) /\
  keeps (secondary n st) (symbols st) /\
  keeps (primary n st) (symbols st) /\
  (forall t, keeps (eval_function n t st) (symbols st)).
Proof.
  destruct (chain_keeps n) as (He & _ & Ht & _ & Hs & Hp & Hf).
  repeat split; intros; auto.
Qed.

(* ================================================================= *)
(** ** The token buffer under evaluation *)

Lemma returns_bind {A B} (m : M A) (k : A -> M B) (st : State)
      (P : A -> State -> Prop) (Q : B -> State -> Prop) :
  returns (m st) P ->
  (forall a st1, P a st1 -> returns (k a st1) Q) ->
  returns (bind m k st) Q.
Proof.
  unfold bind. destruct (m st) as [a st1 | msg st1 | | |]; simpl; auto.
Qed.

Lemma returns_get_at_most (st : State) (L b : nat) :
  at_most L st -> (Nat.pred L <= b)%nat ->
  returns (get st) (fun _ st' => at_most b st').
Proof.
  unfold at_most. intros H Hb.
  destruct (get st) as [t st1 | | | |] eqn:G; simpl; auto.
  unfold get in G. destruct (buffer st) as [| t0 b0] eqn:E.
  - assert (B : buffer st1 = []).
    { destruct (failed (cin st)); [discriminate |].
      destruct (skip_blanks (chars (cin st))) as [[ch rest] |]; [| discriminate].
      repeat match type of G with
             | (if ?c then _ else _) = _ => destruct c
             | (let '(_, _) := ?p in _) = _ => destruct p
             end; inversion G; subst; simpl; exact E. }
    rewrite B. simpl. lia.
  - inversion G; subst. simpl in *. lia.
Qed.

Lemma returns_raise_at_most {A} (r : except A) (st : State) (L b : nat) :
  at_most L st -> (L <= b)%nat ->
  returns (raise r st) (fun _ st' => at_most b st').
Proof. unfold at_most. destruct r; simpl; auto. intros. lia. Qed.

Lemma returns_ret_at_most {A} (a : A) (st : State) (L b : nat) :
  at_most L st -> (L <= b)%nat ->
  returns (ret a st) (fun _ st' => at_most b st').
Proof. unfold at_most. simpl. intros. lia. Qed.

Lemma returns_get_value_at_most (s : string) (st : State) (L b : nat) :
  at_most L st -> (L <= b)%nat ->
  returns (get_value s st) (fun _ st' => at_most b st').
Proof.
  unfold at_most, get_value.
  destruct (find (named s) (symbols st)); simpl; auto. intros. lia.
Qed.

Lemma returns_putback_at_most (t : Token) (st : State) (L b : nat) :
  at_most L st -> (S L <= b)%nat ->
  returns (putback t st) (fun _ st' => at_most b st').
Proof. unfold at_most, putback. simpl. intros. lia. Qed.

(** One step of the analysis of a body of the chain, for the number of
    tokens in the buffer. *)
Ltac buffer_step :=
  cbv beta in *;
  match goal with
  | |- returns (bind _ _ _) _ => eapply returns_bind; [ | intros ? ? ? ]
  | |- returns ((if ?b then _ else _) _) _ => destruct b
  | |- returns ((match ?o with Some _ => _ | None => _ end) _) _ => destruct o
  | |- returns (get _) _ =>
      eapply returns_get_at_most; [eassumption | first [apply le_n | lia]]
  | |- returns (putback _ _) _ =>
      eapply returns_putback_at_most; [eassumption | first [apply le_n | lia]]
  | |- returns (ret _ _) _ =>
      eapply returns_ret_at_most; [eassumption | first [apply le_n | lia]]
  | |- returns (raise _ _) _ =>
      eapply returns_raise_at_most; [eassumption | first [apply le_n | lia]]
  | |- returns (get_value _ _) _ =>
      eapply returns_get_value_at_most; [eassumption | first [apply le_n | lia]]
  | |- returns (throw _ _) _ => exact I
  | |- returns Undefined _ => exact I
  end.

Ltac buffer_by IH :=
  cbv beta in *; eapply IH; [eassumption | first [apply le_n | lia]].

Lemma secondary_loop_buffer (n : nat) :
  forall left t st L b,
    at_most L st -> (S L <= b)%nat ->
    returns (secondary_loop n left t st) (fun _ st' => at_most b st').
Proof.
  induction n as [| n IH]; intros left t st L b H Hb; [exact I |].
  rewrite secondary_loop_S. repeat first [buffer_step | buffer_by IH].
Qed.

(** How many tokens the members of the chain leave in the buffer when they
    return, from a buffer of [L] tokens at most. *)
Lemma chain_buffer (n : nat) :
  (forall st L b, at_most L st -> (S (L - 2) <= b)%nat ->
                  returns (expression n st) (fun _ st' => at_most b st')) /\
  (forall left t st L b,
      at_most L st -> (S L <= b)%nat ->
      returns (expression_loop n left t st) (fun _ st' => at_most b st')) /\
  (forall st L b, at_most L st -> (S (L - 2) <= b)%nat ->
                  returns (term n st) (fun _ st' => at_most b st')) /\
  (forall left t st L b,
      at_most L st -> (S L <= b)%nat ->
      returns (term_loop n left t st) (fun _ st' => at_most b st')) /\
  (forall st L b, at_most L st -> (S (L - 2) <= b)%nat ->
                  returns (secondary n st) (fun _ st' => at_most b st')) /\
  (forall st L b, at_most L st -> (Nat.pred L <= b)%nat ->
                  returns (primary n st) (fun _ st' => at_most b st')) /\
  (forall t st L b, at_most L st -> (Nat.pred L <= b)%nat ->
                    returns (eval_function n t st) (fun _ st' => at_most b st')).
Proof.
  induction n as [| n (IHe & IHel & IHt & IHtl & IHs & IHp & IHf)].
  - repeat split; intros; exact I.
  - pose proof (secondary_loop_buffer n) as IHsl.
    repeat split; intros;
      [ rewrite expression_S | rewrite expression_loop_S | rewrite term_S
      | rewrite term_loop_S | rewrite secondary_S | rewrite primary_S
      | rewrite eval_function_S ];
      repeat first [ buffer_step
                   | buffer_by IHe | buffer_by IHel | buffer_by IHt
                   | buffer_by IHtl | buffer_by IHs | buffer_by IHsl
                   | buffer_by IHp | buffer_by IHf ].
Qed.

Lemma returns_any {A} (r : Res A) : returns r (fun _ _ => True).
Proof. now destruct r. Qed.

Lemma returns_get_next (p : Token -> bool) (st : State) :
  next_is p st -> returns (get st) (fun t _ => p t = true).
Proof.
  intros (t & b & E & P). rewrite (get_buffered t b st E). exact P.
Qed.

Lemma putback_next (p : Token -> bool) (t : Token) (d : double) (st : State) :
  p t = true ->
  returns ((putback t ;;; ret d) st) (fun _ st' => next_is p st').
Proof. intros P. simpl. now exists t, (buffer st). Qed.

(** A turn of a loop of the chain: an operand read by the level below, then
    the token after it. *)
Ltac next_turn IHbelow IHloop :=
  eapply returns_bind; [apply IHbelow |];
  intros ? ? ?; cbv beta in *;
  repeat match goal with
         | |- returns ((if ?b then _ else _) _) _ => destruct b; [exact I |]
         end;
  eapply returns_bind; [apply returns_get_next; eassumption |];
  intros ? ? ?; cbv beta in *; apply IHloop; assumption.

Lemma secondary_loop_next (n : nat) :
  forall left t st,
    returns (secondary_loop n left t st)
            (fun _ st' => next_is ends_secondary st').
Proof.
  induction n as [| n IH]; intros left t st; [exact I |].
  rewrite secondary_loop_S.
  destruct (kind t =? "!")%char eqn:K.
  - destruct (static_cast_int left) as [x |]; [| exact I].
    destruct (factorial x); [| exact I].
    eapply returns_bind; [apply returns_any |]. intros ? ? _.
    eapply returns_bind; [apply returns_any |]. intros ? ? _.
    apply IH.
  - apply putback_next. unfold ends_secondary. now rewrite K.
Qed.

(** The token a looping level of the chain leaves at the back of the buffer
    when it returns is none of its operators, nor one of a level below. *)
Lemma chain_next (n : nat) :
  (forall st, returns (expression n st)
                      (fun _ st' => next_is ends_expression st')) /\
  (forall left t st,
      ends_term t = true ->
      returns (expression_loop n left t st)
              (fun _ st' => next_is ends_expression st')) /\
  (forall st, returns (term n st) (fun _ st' => next_is ends_term st')) /\
  (forall left t st,
      ends_secondary t = true ->
      returns (term_loop n left t st) (fun _ st' => next_is ends_term st')) /\
  (forall st, returns (secondary n st)
                      (fun _ st' => next_is ends_secondary st')).
Proof.
  induction n as [| n (IHe & IHel & IHt & IHtl & IHs)].
  - repeat split; intros; exact I.
  - repeat split; intros.
    + rewrite expression_S. next_turn IHt IHel.
    + rewrite expression_loop_S.
      destruct (kind t =? "+")%char eqn:K1; [next_turn IHt IHel |].
      destruct (kind t =? "-")%char eqn:K2; [next_turn IHt IHel |].
      apply putback_next. unfold ends_expression. now rewrite H, K1, K2.
    + rewrite term_S. next_turn IHs IHtl.
    + rewrite term_loop_S.
      destruct (kind t =? "*")%char eqn:K1; [next_turn IHs IHtl |].
      destruct (kind t =? "/")%char eqn:K2; [next_turn IHs IHtl |].
      destruct (kind t =? "%")%char eqn:K3; [next_turn IHs IHtl |].
      apply putback_next. unfold ends_term. now rewrite H, K1, K2, K3.
    + rewrite secondary_S.
      eapply returns_bind; [apply returns_any |]. intros ? ? _.
      eapply returns_bind; [apply returns_any |]. intros ? ? _.
      apply secondary_loop_next.
Qed.

(** From a buffer of at most two tokens [expression] returns with one. *)
Lemma expression_leaves_one (n : nat) (st : State) :
  at_most 2 st ->
  returns (expression n st)
          (fun _ st' => exists t, buffer st' = [t] /\ ends_expression t = true).
Proof.
  intros H.
  pose proof (proj1 (chain_buffer n) st 2%nat 1%nat H (le_n _)) as B.
  pose proof (proj1 (chain_next n) st) as N.
  destruct (expression n st) as [v st' | | | |]; simpl in *; auto.
  destruct N as (t & b & E & P). exists t. split; [| exact P].
  unfold at_most in B. rewrite E in *. simpl in B.
  destruct b; [reflexivity | simpl in B; lia].
Qed.

Lemma returns_define_name_buffer (s : string) (d : double) (c : bool)
      (P : list Token -> Prop) (st : State) :
  P (buffer st) ->
  returns (define_name s d c st) (fun _ st' => P (buffer st')).
Proof.
  intros H. unfold define_name, bind, is_declared.
  destruct (existsb (named s) (symbols st)); simpl; auto.
Qed.

Lemma returns_set_value_buffer (s : string) (d : double)
      (P : list Token -> Prop) (st : State) :
  P (buffer st) ->
  returns (set_value s d st) (fun _ st' => P (buffer st')).
Proof.
  intros H. unfold set_value.
  destruct (set_value_in (symbols st) s d); simpl; auto.
Qed.

(** X13.  A statement that returns has used exactly the tokens of the
    statement: called with at most one token in the buffer, as [calculate]
    calls it, it leaves one token there, the one that ended its expression,
    which is none of the six operators.  The token is the next one
    [calculate] gets. *)
Theorem statement_leaves_its_terminator
        (n : nat) (st st' : State) (v : double) :
  at_most 1 st ->
  statement n st = Val v st' ->
  exists t, buffer st' = [t] /\ ends_expression t = true
            /\ get st' = Val t (set_buffer [] st').
Proof.
  intros H E.
  cut (returns (statement n st)
         (fun _ st' => exists t, buffer st' = [t] /\ ends_expression t = true)).
  { rewrite E. simpl. intros (t & B & P). exists t.
    repeat split; auto. now apply get_buffered. }
  clear E. unfold statement.
  assert (Decl : forall c st0, at_most 0 st0 ->
            returns (declaration n c st0)
              (fun _ st' => exists t, buffer st' = [t]
                                      /\ ends_expression t = true)).
  { intros c st0 H0. unfold declaration.
    eapply returns_bind;
      [eapply returns_get_at_most; [exact H0 | apply le_n] |].
    intros t st1 H1. cbv beta in *.
    destruct (negb (kind t =? t_name)%char); [exact I |].
    eapply returns_bind;
      [eapply returns_get_at_most; [exact H1 | apply le_n] |].
    intros t2 st2 H2. cbv beta in *.
    destruct (negb (kind t2 =? "=")%char); [exact I |].
    eapply returns_bind.
    - apply expression_leaves_one. unfold at_most in *. lia.
    - intros d st3 H3. cbv beta in *.
      eapply returns_bind;
        [apply returns_define_name_buffer with
           (P := fun b => exists t, b = [t] /\ ends_expression t = true);
         exact H3 |].
      intros ? st4 H4. exact H4. }
  eapply returns_bind;
    [eapply returns_get_at_most; [exact H | apply le_n] |].
  intros t st1 H1. cbv beta in *. simpl in H1.
  destruct (kind t =? t_const)%char; [now apply Decl |].
  destruct (kind t =? t_decl)%char; [now apply Decl |].
  destruct (kind t =? t_name)%char.
  - eapply returns_bind;
      [eapply returns_get_at_most; [exact H1 | apply le_n] |].
    intros t2 st2 H2. cbv beta in *. simpl in H2.
    eapply returns_bind;
      [eapply returns_putback_at_most; [exact H2 | apply le_n] |].
    intros [] st3 H3. cbv beta in *.
    eapply returns_bind;
      [eapply returns_putback_at_most; [exact H3 | apply le_n] |].
    intros [] st4 H4. cbv beta in *.
    destruct (kind t2 =? t_assign)%char.
    + unfold assignment.
      eapply returns_bind;
        [eapply returns_get_at_most; [exact H4 | apply le_n] |].
      intros t5 st5 H5. cbv beta in *. simpl in H5.
      eapply returns_bind with (P := fun _ st' => at_most 1 st').
      { unfold is_declared. simpl. exact H5. }
      intros dcl st6 H6.
      destruct (negb dcl); [exact I |].
      eapply returns_bind;
        [eapply returns_get_at_most; [exact H6 | apply le_n] |].
      intros t7 st7 H7. cbv beta in *. simpl in H7.
      eapply returns_bind.
      * apply expression_leaves_one. unfold at_most in *. lia.
      * intros d st8 H8. cbv beta in *.
        eapply returns_bind;
          [apply returns_set_value_buffer with
             (P := fun b => exists t, b = [t] /\ ends_expression t = true);
           exact H8 |].
        intros [] st9 H9. exact H9.
    + apply expression_leaves_one. unfold at_most in *. lia.
  - eapply returns_bind;
      [eapply returns_putback_at_most; [exact H1 | apply le_n] |].
    intros [] st2 H2. cbv beta in *.
    apply expression_leaves_one. unfold at_most in *. simpl in *. lia.
Qed.

(* ================================================================= *)
(** ** Statements on the tokens of a tree *)

Lemma delivers_get (t : Token) (l : list Token) (st st1 st' : State) :
  get st = Val t st1 -> delivers st1 l st' -> delivers st (t :: l) st'.
Proof.
  unfold delivers. simpl. intros -> H. now rewrite H.
Qed.

Lemma delivers_pushed (t : Token) (l : list Token) (st st' : State) :
  delivers st l st' -> delivers (pushed t st) (t :: l) st'.
Proof. apply delivers_get, get_pushed. Qed.

(** The first token of a tree starts a primary, and every token of a tree
    is of one of the kinds of the grammar. *)
Lemma tokens_of_trees :
  (forall e, (exists t l, tokens_E e = t :: l /\ starts_primary t = true)
             /\ forallb tree_token (tokens_E e) = true) /\
  (forall t0, (exists t l, tokens_T t0 = t :: l /\ starts_primary t = true)
              /\ forallb tree_token (tokens_T t0) = true) /\
  (forall s, (exists t l, tokens_S s = t :: l /\ starts_primary t = true)
             /\ forallb tree_token (tokens_S s) = true) /\
  (forall p, (exists t l, tokens_P p = t :: l /\ starts_primary t = true)
             /\ forallb tree_token (tokens_P p) = true).
Proof.
  apply grammar_mutind; simpl; intros;
    repeat match goal with
           | H : _ /\ _ |- _ => destruct H
           | H : exists _, _ |- _ => destruct H
           end;
    (split;
     [ repeat match goal with
              | H : _ = _ :: _ |- _ => rewrite H; clear H
              end;
       simpl; eexists; eexists; split; [reflexivity |]; auto
     | rewrite ?forallb_app; simpl; rewrite ?forallb_app; simpl;
       repeat match goal with
              | H : forallb _ _ = true |- _ => rewrite H; clear H
              end;
       reflexivity ]).
Qed.

Lemma starts_primary_kind (t : Token) :
  starts_primary t = true ->
  (kind t =? t_const)%char = false /\ (kind t =? t_decl)%char = false.
Proof.
  unfold starts_primary. simpl. intros H.
  repeat (apply orb_prop in H as [H | H];
          [apply Ascii.eqb_eq in H; rewrite H; split; reflexivity |]).
  discriminate.
Qed.

Lemma tree_token_kind (t : Token) :
  tree_token t = true -> (kind t =? t_assign)%char = false.
Proof.
  unfold tree_token. simpl. intros H.
  repeat (apply orb_prop in H as [H | H];
          [apply Ascii.eqb_eq in H; rewrite H; reflexivity |]).
  discriminate.
Qed.

(** The three forms of a statement, on the tokens of the form followed by
    the token that ends its expression. *)
Lemma expression_statement_on_tree
        (e : Expression) (st st' : State) (t : Token) (v : double) :
  delivers st (tokens_E e ++ [t]) st' ->
  ends_expression t = true ->
  (kind t =? t_assign)%char = false ->
  value_E (symbols st) e = Some v ->
  exists n, forall m, (n <= m)%nat ->
    statement m st = Val v (pushed t st')
    /\ symbols (pushed t st') = symbols st.
Proof.
  intros D Et Ka V.
  assert (Hsym : symbols (pushed t st') = symbols st).
  { simpl. eapply delivers_symbols; eauto. }
  destruct (proj1 tokens_of_trees e) as ((t0 & l & E0 & P0) & All).
  rewrite E0 in D. simpl in D.
  pose proof D as D0.
  apply delivers_cons in D0 as (s1 & G1 & D1).
  destruct (starts_primary_kind t0 P0) as (Kc & Kd).
  destruct (kind t0 =? t_name)%char eqn:Kn.
  - (* a name first: the token after it is looked at and both are put back *)
    destruct (l ++ [t]) as [| t2 l2] eqn:E2; [now destruct l |].
    pose proof D1 as D2.
    apply delivers_cons in D2 as (s2 & G2 & D2).
    assert (K2 : (kind t2 =? t_assign)%char = false).
    { destruct l as [| t2' l']; simpl in E2; inversion E2; subst; auto.
      rewrite E0 in All. simpl in All.
      apply andb_prop in All as (_ & All).
      apply andb_prop in All as (T2 & _).
      now apply tree_token_kind. }
    apply Ascii.eqb_eq in Kn.
    assert (De : delivers (set_buffer (t0 :: t2 :: buffer s2) s2)
                          (tokens_E e ++ [t]) st').
    { rewrite E0. simpl. rewrite E2.
      apply (delivers_pushed t0 (t2 :: l2) (pushed t2 s2)).
      now apply delivers_pushed. }
    destruct (expression_on_tree e _ st' t v De Et) as [n Hn].
    { simpl. rewrite (get_symbols _ _ _ G2), (get_symbols _ _ _ G1). exact V. }
    exists n. intros m Hm. split; [| exact Hsym].
    destruct (statement_rollback m t0 t2 st s1 s2 G1 Kn G2) as (-> & _).
    rewrite K2. now apply Hn.
  - (* any other first token is put back *)
    assert (De : delivers (pushed t0 s1) (tokens_E e ++ [t]) st').
    { rewrite E0. simpl. now apply delivers_pushed. }
    destruct (expression_on_tree e _ st' t v De Et) as [n Hn].
    { simpl. rewrite (get_symbols _ _ _ G1). exact V. }
    exists n. intros m Hm. split; [| exact Hsym].
    unfold statement. rewrite (bind_val _ _ _ _ _ G1), Kc, Kd, Kn.
    now apply Hn.
Qed.

Lemma declaration_on_tree
        (constant : bool) (x : string) (e : Expression)
        (st st' : State) (t : Token) (v : double) :
  delivers st (Token_kind (if constant then t_const else t_decl)
               :: Token_name t_name x :: Token_kind "=" :: tokens_E e ++ [t])
           st' ->
  ends_expression t = true ->
  value_E (symbols st) e = Some v ->
  exists n, forall m, (n <= m)%nat ->
    statement m st
    = if existsb (named x) (symbols st)
      then Throw (x ++ " declared twice") (pushed t st')
      else Val v (set_symbols (symbols st ++ [mk_Var x v constant])
                              (pushed t st')).
Proof.
  intros D Et V.
  assert (Hsym : symbols st' = symbols st).
  { eapply delivers_symbols; eauto. }
  apply delivers_cons in D as (s1 & G1 & D).
  apply delivers_cons in D as (s2 & G2 & D).
  apply delivers_cons in D as (s3 & G3 & D).
  destruct (expression_on_tree e s3 st' t v D Et) as [n Hn].
  { rewrite (get_symbols _ _ _ G3), (get_symbols _ _ _ G2),
      (get_symbols _ _ _ G1). exact V. }
  exists n. intros m Hm.
  assert (Hd : declaration m constant s1
               = if existsb (named x) (symbols st)
                 then Throw (x ++ " declared twice") (pushed t st')
                 else Val v (set_symbols (symbols st ++ [mk_Var x v constant])
                                         (pushed t st'))).
  { unfold declaration.
    rewrite (bind_val _ _ _ _ _ G2).
    change (negb (kind (Token_name t_name x) =? t_name)%char) with false.
    cbv iota. rewrite (bind_val _ _ _ _ _ G3).
    change (negb (kind (Token_kind "=") =? "=")%char) with false.
    cbv iota. rewrite (bind_val _ _ _ _ _ (Hn m Hm)).
    change (name (Token_name t_name x)) with x.
    unfold define_name, is_declared, bind. simpl. rewrite Hsym.
    destruct (existsb (named x) (symbols st)); cbn; rewrite ?Hsym;
      reflexivity. }
  unfold statement. rewrite (bind_val _ _ _ _ _ G1).
  destruct constant; simpl; exact Hd.
Qed.

Lemma assignment_on_tree
        (x : string) (e : Expression)
        (st st' : State) (t : Token) (v : double) :
  delivers st (Token_name t_name x :: Token_kind t_assign
               :: tokens_E e ++ [t]) st' ->
  ends_expression t = true ->
  value_E (symbols st) e = Some v ->
  In x (names (symbols st)) ->
  exists n, forall m, (n <= m)%nat ->
    statement m st
    = match set_value_in (symbols st) x v with
      | inl msg => Throw msg (pushed t st')
      | inr tbl => Val v (set_symbols tbl (pushed t st'))
      end.
Proof.
  intros D Et V Hin.
  assert (Hsym : symbols st' = symbols st).
  { eapply delivers_symbols; eauto. }
  apply delivers_cons in D as (s1 & G1 & D).
  apply delivers_cons in D as (s2 & G2 & D).
  destruct (expression_on_tree e s2 st' t v D Et) as [n Hn].
  { rewrite (get_symbols _ _ _ G2), (get_symbols _ _ _ G1). exact V. }
  exists n. intros m Hm.
  destruct (statement_rollback m _ _ st s1 s2 G1 eq_refl G2) as (E & _).
  simpl in E.
  assert (Hdecl : existsb (named x) (symbols s2) = true).
  { rewrite (get_symbols _ _ _ G2), (get_symbols _ _ _ G1).
    now apply declared_In. }
  assert (Ga : get (set_buffer (Token_name t_name x :: Token_kind t_assign
                                  :: buffer s2) s2)
               = Val (Token_name t_name x) (pushed (Token_kind t_assign) s2))
    by reflexivity.
  rewrite E. unfold assignment.
  rewrite (bind_val _ _ _ _ _ Ga).
  change (name (Token_name t_name x)) with x.
  assert (Gd : is_declared x (pushed (Token_kind t_assign) s2)
               = Val true (pushed (Token_kind t_assign) s2)).
  { unfold is_declared. simpl symbols. now rewrite Hdecl. }
  rewrite (bind_val _ _ _ _ _ Gd). change (negb true) with false. cbv iota.
  rewrite (bind_val _ _ _ _ _ (get_pushed _ _)).
  rewrite (bind_val _ _ _ _ _ (Hn m Hm)).
  unfold set_value, bind. simpl symbols. rewrite Hsym.
  now destruct (set_value_in (symbols st) x v).
Qed.

(** X14.  A statement that is an expression: on the tokens of a tree that
    has a value, followed by a token that ends the expression and is not
    [=], [statement] returns the value of the tree, with that token put
    back, and leaves the symbol table as it is. *)
Theorem expression_statement_returns_its_value
        (e : Expression) (st st' : State) (t : Token) (v : double) :
  delivers st (tokens_E e ++ [t]) st' ->
  ends_expression t = true ->
  (kind t =? t_assign)%char = false ->
  value_E (symbols st) e = Some v ->
  exists n, forall m, (n <= m)%nat ->
    statement m st = Val v (pushed t st')
    /\ symbols (pushed t st') = symbols st.
Proof. exact (expression_statement_on_tree e st st' t v). Qed.

(** X15.  A declaration: on the tokens of [let x = e] or [const x = e],
    when the tree [e] has the value [v], [statement] evaluates [e] first and
    then defines [x]: it throws "x declared twice" when the table has the
    name, and otherwise returns [v] with a new variable [x] of value [v],
    constant for [const], at the end of the table.  In both cases the token
    after the expression is put back. *)
Theorem declaration_defines_after_evaluating
        (constant : bool) (x : string) (e : Expression)
        (st st' : State) (t : Token) (v : double) :
  delivers st (Token_kind (if constant then t_const else t_decl)
               :: Token_name t_name x :: Token_kind "=" :: tokens_E e ++ [t])
           st' ->
  ends_expression t = true ->
  value_E (symbols st) e = Some v ->
  exists n, forall m, (n <= m)%nat ->
    statement m st
    = if existsb (named x) (symbols st)
      then Throw (x ++ " declared twice") (pushed t st')
      else Val v (set_symbols (symbols st ++ [mk_Var x v constant])
                              (pushed t st')).
Proof. exact (declaration_on_tree constant x e st st' t v). Qed.

(** X16.  An assignment to a declared name: on the tokens of [x = e], when
    [x] is in the table and the tree [e] has the value [v], [statement]
    evaluates [e] and then writes [x] as [set_value] does: it throws the
    error of the write ("trying to write to constant") when there is one and
    otherwise returns [v] with the table the write leaves.  The token after
    the expression is put back. *)
Theorem assignment_writes_after_evaluating
        (x : string) (e : Expression)
        (st st' : State) (t : Token) (v : double) :
  delivers st (Token_name t_name x :: Token_kind t_assign
               :: tokens_E e ++ [t]) st' ->
  ends_expression t = true ->
  value_E (symbols st) e = Some v ->
  In x (names (symbols st)) ->
  exists n, forall m, (n <= m)%nat ->
    statement m st
    = match set_value_in (symbols st) x v with
      | inl msg => Throw msg (pushed t st')
      | inr tbl => Val v (set_symbols tbl (pushed t st'))
      end.
Proof. exact (assignment_on_tree x e st st' t v). Qed.

(** X17.  The errors of a statement that are found before anything is
    evaluated: a declaration whose second token is not a name, a
    declaration whose third token is not [=], and an assignment to a name
    that is not in the table.  In the last case the [=] is put back and the
    tokens after it are not read. *)
Theorem malformed_statement_throws
        (m : nat) (t t1 : Token) (st s1 s2 : State) :
  get st = Val t s1 -> get s1 = Val t1 s2 ->
  (kind t = t_const \/ kind t = t_decl ->
   (kind t1 <> t_name ->
    statement m st = Throw "name expected in declaration" s2) /\
   (forall t2 s3,
       kind t1 = t_name -> get s2 = Val t2 s3 -> kind t2 <> "="%char ->
       statement m st
       = Throw ("'=' missing in declaration of " ++ name t1) s3)) /\
  (kind t = t_name -> kind t1 = t_assign ->
   ~ In (name t) (names (symbols st)) ->
   statement m st
   = Throw (name t ++ " has not been declared") (pushed t1 s2)).
Proof.
  intros G G1. split.
  - intros K.
    assert (E : statement m st
                = declaration m (kind t =? t_const)%char s1).
    { unfold statement. rewrite (bind_val _ _ _ _ _ G).
      destruct K as [-> | ->]; reflexivity. }
    rewrite E. unfold declaration. rewrite (bind_val _ _ _ _ _ G1).
    split.
    + intros N. apply Ascii.eqb_neq in N. now rewrite N.
    + intros t2 s3 N1 G2 N2.
      apply Ascii.eqb_eq in N1. apply Ascii.eqb_neq in N2.
      rewrite N1. change (negb true) with false. cbv iota.
      rewrite (bind_val _ _ _ _ _ G2). now rewrite N2.
  - intros K K1 Hn.
    destruct (statement_rollback m t t1 st s1 s2 G K G1) as (-> & _).
    rewrite K1. simpl.
    assert (Ga : get (set_buffer (t :: t1 :: buffer s2) s2)
                 = Val t (pushed t1 s2)) by reflexivity.
    unfold assignment. rewrite (bind_val _ _ _ _ _ Ga).
    assert (Gd : is_declared (name t) (pushed t1 s2)
                 = Val false (pushed t1 s2)).
    { unfold is_declared. simpl symbols.
      rewrite (get_symbols _ _ _ G1), (get_symbols _ _ _ G).
      now rewrite (proj2 (not_declared_In _ _) Hn). }
    now rewrite (bind_val _ _ _ _ _ Gd).
Qed.

(* ================================================================= *)
(** ** Delimiters and function arguments *)

(** The value of an expression and the token after it reach what
    follows the call. *)
Ltac after_expression Hn m :=
  rewrite (bind_val _ _ _ _ _ (Hn m ltac:(lia))),
          (bind_val _ _ _ _ _ (get_pushed _ _)).

(** X18.  A delimiter that is missing after an expression: when the tree
    [e] has a value and the token [t] after it ends the expression but is
    not the delimiter the caller wants, [primary] throws the caller's error,
    and [t] has been taken from the input: it is not put back.  The cases
    are [(e t], [{e t], [sqrt(e t], [pow(e t] and, for a second tree,
    [pow(e1, e t]. *)
Theorem missing_delimiter_throws
        (e : Expression) (st s1 st' : State) (opening t : Token) (v : double) :
  get st = Val opening s1 ->
  ends_expression t = true ->
  value_E (symbols st) e = Some v ->
  (kind opening = "("%char -> delivers s1 (tokens_E e ++ [t]) st' ->
   kind t <> ")"%char ->
   exists n, forall m, (n <= m)%nat ->
     primary m st = Throw "')' expected" st') /\
  (kind opening = "{"%char -> delivers s1 (tokens_E e ++ [t]) st' ->
   kind t <> "}"%char ->
   exists n, forall m, (n <= m)%nat ->
     primary m st = Throw "'}' expected" st') /\
  (kind opening = t_sqrt ->
   delivers s1 (Token_kind "(" :: tokens_E e ++ [t]) st' ->
   kind t <> ")"%char ->
   exists n, forall m, (n <= m)%nat ->
     primary m st = Throw "sqrt: ')' expected" st') /\
  (kind opening = t_pow ->
   delivers s1 (Token_kind "(" :: tokens_E e ++ [t]) st' ->
   kind t <> ","%char ->
   exists n, forall m, (n <= m)%nat ->
     primary m st = Throw "pow: ',' expected" st') /\
  (forall e1 v1,
      kind opening = t_pow ->
      value_E (symbols st) e1 = Some v1 ->
      delivers s1 (Token_kind "(" :: tokens_E e1 ++ Token_kind ","
                   :: tokens_E e ++ [t]) st' ->
      kind t <> ")"%char ->
      exists n, forall m, (n <= m)%nat ->
        primary m st = Throw "pow: ')' expected" st').
Proof.
  intros G Et V.
  assert (S1 : symbols s1 = symbols st) by (eapply get_symbols; eauto).
  repeat split.
  - intros K D N. apply Ascii.eqb_neq in N.
    rewrite <- S1 in V.
    destruct (expression_on_tree e s1 st' t v D Et V) as [n Hn].
    exists (S n). intros [| m] Hm; [lia |].
    rewrite primary_S, (bind_val _ _ _ _ _ G), K.
    change ("(" =? "(")%char with true. cbv iota.
    after_expression Hn m. now rewrite N.
  - intros K D N. apply Ascii.eqb_neq in N.
    rewrite <- S1 in V.
    destruct (expression_on_tree e s1 st' t v D Et V) as [n Hn].
    exists (S n). intros [| m] Hm; [lia |].
    rewrite primary_S, (bind_val _ _ _ _ _ G), K.
    change ("{" =? "(")%char with false.
    change ("{" =? "{")%char with true. cbv iota.
    after_expression Hn m. now rewrite N.
  - intros K D N. apply Ascii.eqb_neq in N.
    apply delivers_cons in D as (s2 & G2 & D).
    assert (S2 : symbols s2 = symbols st).
    { rewrite (get_symbols _ _ _ G2). exact S1. }
    rewrite <- S2 in V.
    destruct (expression_on_tree e s2 st' t v D Et V) as [n Hn].
    exists (S (S n)). intros [| [| m]] Hm; try lia.
    rewrite primary_S, (bind_val _ _ _ _ _ G), K.
    change (t_sqrt =? "(")%char with false.
    change (t_sqrt =? "{")%char with false.
    change (t_sqrt =? t_sqrt)%char with true. cbv iota. cbn [orb]. cbv iota.
    rewrite eval_function_S, K.
    change (t_sqrt =? t_sqrt)%char with true. cbv iota.
    rewrite (bind_val _ _ _ _ _ G2).
    change (kind (Token_kind "(") =? "(")%char with true. cbv iota.
    after_expression Hn m. now rewrite N.
  - intros K D N. apply Ascii.eqb_neq in N.
    apply delivers_cons in D as (s2 & G2 & D).
    assert (S2 : symbols s2 = symbols st).
    { rewrite (get_symbols _ _ _ G2). exact S1. }
    rewrite <- S2 in V.
    destruct (expression_on_tree e s2 st' t v D Et V) as [n Hn].
    exists (S (S n)). intros [| [| m]] Hm; try lia.
    rewrite primary_S, (bind_val _ _ _ _ _ G), K.
    change (t_pow =? "(")%char with false.
    change (t_pow =? "{")%char with false.
    change (t_pow =? t_sqrt)%char with false.
    change (t_pow =? t_pow)%char with true. cbn [orb]. cbv iota.
    rewrite eval_function_S, K.
    change (t_pow =? t_sqrt)%char with false.
    change (t_pow =? t_pow)%char with true. cbv iota.
    rewrite (bind_val _ _ _ _ _ G2).
    change (kind (Token_kind "(") =? "(")%char with true. cbv iota.
    after_expression Hn m. now rewrite N.
  - intros e1 v1 K V1 D N. apply Ascii.eqb_neq in N.
    apply delivers_cons in D as (s2 & G2 & D).
    assert (S2 : symbols s2 = symbols st).
    { rewrite (get_symbols _ _ _ G2). exact S1. }
    change (tokens_E e1 ++ Token_kind "," :: tokens_E e ++ [t])
      with (tokens_E e1 ++ [Token_kind ","] ++ tokens_E e ++ [t]) in D.
    rewrite app_assoc in D.
    apply delivers_app in D as (s3 & D1 & D).
    assert (S3 : symbols s3 = symbols st).
    { rewrite (delivers_symbols _ _ _ D1). exact S2. }
    rewrite <- S2 in V1. rewrite <- S3 in V.
    destruct (expression_on_tree e1 s2 s3 (Token_kind ",") v1 D1 eq_refl V1) as [n1 Hn1].
    destruct (expression_on_tree e s3 st' t v D Et V) as [n Hn].
    exists (S (S (n1 + n))). intros [| [| m]] Hm; try lia.
    rewrite primary_S, (bind_val _ _ _ _ _ G), K.
    change (t_pow =? "(")%char with false.
    change (t_pow =? "{")%char with false.
    change (t_pow =? t_sqrt)%char with false.
    change (t_pow =? t_pow)%char with true. cbn [orb]. cbv iota.
    rewrite eval_function_S, K.
    change (t_pow =? t_sqrt)%char with false.
    change (t_pow =? t_pow)%char with true. cbv iota.
    rewrite (bind_val _ _ _ _ _ G2).
    change (kind (Token_kind "(") =? "(")%char with true. cbv iota.
    after_expression Hn1 m.
    change (negb (kind (Token_kind ",") =? ",")%char) with false. cbv iota.
    after_expression Hn m. now rewrite N.
Qed.

(* ================================================================= *)
(** ** Trees that have no value *)

(** A tree whose outcome is a value has that value. *)
Lemma outcome_value :
  (forall e tbl v, outcome_E tbl e = Value v -> value_E tbl e = Some v) /\
  (forall t tbl v, outcome_T tbl t = Value v -> value_T tbl t = Some v) /\
  (forall s tbl v, outcome_S tbl s = Value v -> value_S tbl s = Some v) /\
  (forall p tbl v, outcome_P tbl p = Value v -> value_P tbl p = Some v).
Proof.
  apply grammar_mutind; simpl; intros;
    repeat match goal with
           | IH : forall tbl v, ?f tbl ?x = Value v -> _,
             H : context [?f ?tbl ?x] |- _ =>
               let E := fresh "E" in
               destruct (f tbl x) eqn:E; simpl in H; try discriminate H;
               apply IH in E; rewrite E; clear IH
           end;
    auto;
    repeat match goal with
           | H : context [match ?c with _ => _ end] |- _ =>
               destruct c; simpl in H; try discriminate H
           end;
    simpl; congruence.
Qed.

Lemma failure_bind (o : Outcome) (m : M double) (k : double -> M double)
      (st : State) :
  failure o (m st) -> failure o (bind m k st).
Proof.
  destruct o; simpl; auto.
  - intros (st' & E). unfold bind. rewrite E. eauto.
  - intros E. unfold bind. now rewrite E.
Qed.

Lemma failure_after {A} (o : Outcome) (m : M A) (k : A -> M double)
      (st st' : State) (a : A) :
  m st = Val a st' -> failure o (k a st') -> failure o (bind m k st).
Proof. intros E. now rewrite (bind_val _ _ _ _ _ E). Qed.

(** A failure of the loop entered after a tree is a failure of the call. *)
Lemma failure_through (o : Outcome) (loop call : nat -> Res double) (n : nat) :
  (forall r, loop n = r -> r <> OutOfFuel -> exists m, call m = r) ->
  failure o (loop n) ->
  exists m, failure o (call m).
Proof.
  intros H F. destruct o; simpl in *.
  - now exists 0%nat.
  - destruct F as (st' & E).
    destruct (H _ E) as [m Hm]; [discriminate |]. exists m. eauto.
  - destruct (H _ F) as [m Hm]; [discriminate |]. now exists m.
Qed.

Lemma failure_more (o : Outcome) (f : nat -> Res double) (n m : nat) :
  (forall r, f n = r -> r <> OutOfFuel -> f m = r) ->
  failure o (f n) -> failure o (f m).
Proof.
  intros H F. destruct o; simpl in *; auto.
  - destruct F as (st' & E). exists st'. apply H; [exact E | discriminate].
  - apply H; [exact F | discriminate].
Qed.

Lemma term_loop_modulo_by_zero
      (k : nat) (a b : double) (t : Token) (st st1 : State) :
  kind t = "%"%char ->
  secondary k st = Val b st1 -> Double.eqb b Double.zero = true ->
  term_loop (S k) a t st = Throw "%: divide by zero" st1.
Proof.
  intros K H Z. rewrite term_loop_S, K. decide_kinds.
  now rewrite (bind_val _ _ _ _ _ H), Z.
Qed.

Lemma ends_term_secondary (t : Token) :
  ends_term t = true -> ends_secondary t = true.
Proof.
  unfold ends_term. intros E. now repeat (apply andb_true_iff in E as [E _]).
Qed.

Lemma grammar_stops :
  (forall e, expression_stops e) /\ (forall t, term_stops t) /\
  (forall s, secondary_stops s) /\ (forall p, primary_stops p).
Proof.
  destruct grammar_followed as (HE & HT & HS & HP).
  destruct outcome_value as (VE & VT & VS & VP).
  apply grammar_mutind.
  - (* E_term *)
    intros tm IH st st1 t st2 D G Et. simpl in D |- *.
    destruct (IH st st1 t st2 D G (ends_term_secondary t Et)) as [n F].
    exists (S n). rewrite expression_S. now apply failure_bind.
  - (* E_plus *)
    intros e IHe tm IHt st st1 t st2 D G Et. simpl in D |- *.
    apply delivers_app in D as (sa & Da & D).
    apply delivers_cons in D as (sb & Gp & Db).
    assert (Hs : symbols sb = symbols st).
    { rewrite (get_symbols _ _ _ Gp). eapply delivers_symbols; eauto. }
    destruct (outcome_E (symbols st) e) as [a | msg |] eqn:Oe; cbn [and_then].
    + destruct (IHt sb st1 t st2 Db G (ends_term_secondary t Et)) as [n1 F].
      rewrite Hs in F.
      destruct (outcome_T (symbols st) tm) as [b | msg |] eqn:Ot; cbn [and_then];
        [now exists 0%nat | |].
      all: apply (failure_through _
                    (fun n => expression_loop n a (Token_kind "+") sb)
                    (fun m => expression m st) (S n1));
        [ intros r L Hr;
          exact (HE e st sa a Da (VE _ _ _ Oe) (Token_kind "+") sb (S n1) r
                    Gp eq_refl L Hr)
        | rewrite expression_loop_S; decide_kinds;
          now apply (failure_bind _ (term n1)) ].
    + specialize (IHe st sa (Token_kind "+") sb Da Gp eq_refl).
      now rewrite Oe in IHe.
    + specialize (IHe st sa (Token_kind "+") sb Da Gp eq_refl).
      now rewrite Oe in IHe.
  - (* E_minus *)
    intros e IHe tm IHt st st1 t st2 D G Et. simpl in D |- *.
    apply delivers_app in D as (sa & Da & D).
    apply delivers_cons in D as (sb & Gp & Db).
    assert (Hs : symbols sb = symbols st).
    { rewrite (get_symbols _ _ _ Gp). eapply delivers_symbols; eauto. }
    destruct (outcome_E (symbols st) e) as [a | msg |] eqn:Oe; cbn [and_then].
    + destruct (IHt sb st1 t st2 Db G (ends_term_secondary t Et)) as [n1 F].
      rewrite Hs in F.
      destruct (outcome_T (symbols st) tm) as [b | msg |] eqn:Ot; cbn [and_then];
        [now exists 0%nat | |].
      all: apply (failure_through _
                    (fun n => expression_loop n a (Token_kind "-") sb)
                    (fun m => expression m st) (S n1));
        [ intros r L Hr;
          exact (HE e st sa a Da (VE _ _ _ Oe) (Token_kind "-") sb (S n1) r
                    Gp eq_refl L Hr)
        | rewrite expression_loop_S; decide_kinds;
          now apply (failure_bind _ (term n1)) ].
    + specialize (IHe st sa (Token_kind "-") sb Da Gp eq_refl).
      now rewrite Oe in IHe.
    + specialize (IHe st sa (Token_kind "-") sb Da Gp eq_refl).
      now rewrite Oe in IHe.
  - (* T_secondary *)
    intros s IH st st1 t st2 D G Et. simpl in D |- *.
    destruct (IH st st1 t st2 D G) as [n F].
    exists (S n). rewrite term_S. now apply failure_bind.
  - (* T_times *)
    intros tm IHt s IHs st st1 t st2 D G Et. simpl in D |- *.
    apply delivers_app in D as (sa & Da & D).
    apply delivers_cons in D as (sb & Gp & Db).
    assert (Hs : symbols sb = symbols st).
    { rewrite (get_symbols _ _ _ Gp). eapply delivers_symbols; eauto. }
    destruct (outcome_T (symbols st) tm) as [a | msg |] eqn:Ot; cbn [and_then].
    + destruct (IHs sb st1 t st2 Db G) as [n1 F].
      rewrite Hs in F.
      destruct (outcome_S (symbols st) s) as [b | msg |] eqn:Os; cbn [and_then];
        [now exists 0%nat | |].
      all: apply (failure_through _
                    (fun n => term_loop n a (Token_kind "*") sb)
                    (fun m => term m st) (S n1));
        [ intros r L Hr;
          exact (HT tm st sa a Da (VT _ _ _ Ot) (Token_kind "*") sb (S n1) r
                    Gp eq_refl L Hr)
        | rewrite term_loop_S; decide_kinds;
          now apply (failure_bind _ (secondary n1)) ].
    + specialize (IHt st sa (Token_kind "*") sb Da Gp eq_refl).
      now rewrite Ot in IHt.
    + specialize (IHt st sa (Token_kind "*") sb Da Gp eq_refl).
      now rewrite Ot in IHt.
  - (* T_divide *)
    intros tm IHt s IHs st st1 t st2 D G Et. simpl in D |- *.
    apply delivers_app in D as (sa & Da & D).
    apply delivers_cons in D as (sb & Gp & Db).
    assert (Hs : symbols sb = symbols st).
    { rewrite (get_symbols _ _ _ Gp). eapply delivers_symbols; eauto. }
    destruct (outcome_T (symbols st) tm) as [a | msg |] eqn:Ot; cbn [and_then].
    + destruct (IHs sb st1 t st2 Db G) as [n1 F].
      rewrite Hs in F.
      destruct (outcome_S (symbols st) s) as [b | msg |] eqn:Os; cbn [and_then].
      * destruct (Double.eqb b Double.zero) eqn:Z; [| now exists 0%nat].
        rewrite <- Hs in Os.
        destruct (secondary_done s (HS s) sb st1 b t st2 Db (VS _ _ _ Os) G Et)
          as [m1 Hm1].
        apply (failure_through _
                 (fun n => term_loop n a (Token_kind "/") sb)
                 (fun m => term m st) (S m1));
          [ intros r L Hr;
            exact (HT tm st sa a Da (VT _ _ _ Ot) (Token_kind "/") sb (S m1) r
                      Gp eq_refl L Hr) |].
        rewrite (term_loop_divide_by_zero m1 a b (Token_kind "/") sb _ eq_refl Hm1 Z).
        simpl. eauto.
      * apply (failure_through _
                 (fun n => term_loop n a (Token_kind "/") sb)
                 (fun m => term m st) (S n1));
          [ intros r L Hr;
            exact (HT tm st sa a Da (VT _ _ _ Ot) (Token_kind "/") sb (S n1) r
                      Gp eq_refl L Hr)
          | rewrite term_loop_S; decide_kinds;
            now apply (failure_bind _ (secondary n1)) ].
      * apply (failure_through _
                 (fun n => term_loop n a (Token_kind "/") sb)
                 (fun m => term m st) (S n1));
          [ intros r L Hr;
            exact (HT tm st sa a Da (VT _ _ _ Ot) (Token_kind "/") sb (S n1) r
                      Gp eq_refl L Hr)
          | rewrite term_loop_S; decide_kinds;
            now apply (failure_bind _ (secondary n1)) ].
    + specialize (IHt st sa (Token_kind "/") sb Da Gp eq_refl).
      now rewrite Ot in IHt.
    + specialize (IHt st sa (Token_kind "/") sb Da Gp eq_refl).
      now rewrite Ot in IHt.
  - (* T_modulo *)
    intros tm IHt s IHs st st1 t st2 D G Et. simpl in D |- *.
    apply delivers_app in D as (sa & Da & D).
    apply delivers_cons in D as (sb & Gp & Db).
    assert (Hs : symbols sb = symbols st).
    { rewrite (get_symbols _ _ _ Gp). eapply delivers_symbols; eauto. }
    destruct (outcome_T (symbols st) tm) as [a | msg |] eqn:Ot; cbn [and_then].
    + destruct (IHs sb st1 t st2 Db G) as [n1 F].
      rewrite Hs in F.
      destruct (outcome_S (symbols st) s) as [b | msg |] eqn:Os; cbn [and_then].
      * destruct (Double.eqb b Double.zero) eqn:Z; [| now exists 0%nat].
        rewrite <- Hs in Os.
        destruct (secondary_done s (HS s) sb st1 b t st2 Db (VS _ _ _ Os) G Et)
          as [m1 Hm1].
        apply (failure_through _
                 (fun n => term_loop n a (Token_kind "%") sb)
                 (fun m => term m st) (S m1));
          [ intros r L Hr;
            exact (HT tm st sa a Da (VT _ _ _ Ot) (Token_kind "%") sb (S m1) r
                      Gp eq_refl L Hr) |].
        rewrite (term_loop_modulo_by_zero m1 a b (Token_kind "%") sb _ eq_refl Hm1 Z).
        simpl. eauto.
      * apply (failure_through _
                 (fun n => term_loop n a (Token_kind "%") sb)
                 (fun m => term m st) (S n1));
          [ intros r L Hr;
            exact (HT tm st sa a Da (VT _ _ _ Ot) (Token_kind "%") sb (S n1) r
                      Gp eq_refl L Hr)
          | rewrite term_loop_S; decide_kinds;
            now apply (failure_bind _ (secondary n1)) ].
      * apply (failure_through _
                 (fun n => term_loop n a (Token_kind "%") sb)
                 (fun m => term m st) (S n1));
          [ intros r L Hr;
            exact (HT tm st sa a Da (VT _ _ _ Ot) (Token_kind "%") sb (S n1) r
                      Gp eq_refl L Hr)
          | rewrite term_loop_S; decide_kinds;
            now apply (failure_bind _ (secondary n1)) ].
    + specialize (IHt st sa (Token_kind "%") sb Da Gp eq_refl).
      now rewrite Ot in IHt.
    + specialize (IHt st sa (Token_kind "%") sb Da Gp eq_refl).
      now rewrite Ot in IHt.
  - (* S_primary *)
    intros p IH st st1 t st2 D G. simpl in D |- *.
    destruct (IH st st1 D) as [n F].
    exists (S n). rewrite secondary_S. now apply failure_bind.
  - (* S_factorial *)
    intros s IH st st1 t st2 D G. simpl in D |- *.
    apply delivers_app in D as (sa & Da & D). apply delivers_one in D.
    destruct (outcome_S (symbols st) s) as [a | msg |] eqn:Os; cbn [and_then].
    + apply (failure_through _
               (fun n => secondary_loop n a (Token_kind "!") st1)
               (fun m => secondary m st) 1%nat);
        [ intros r L Hr;
          exact (HS s st sa a Da (VS _ _ _ Os) (Token_kind "!") st1 1%nat r
                    D L Hr) |].
      rewrite secondary_loop_S. decide_kinds.
      destruct (static_cast_int a) as [x |]; [| reflexivity].
      destruct (factorial x) as [[msg | d] |]; simpl;
        [| exact I | reflexivity].
      exists st1. reflexivity.
    + specialize (IH st sa (Token_kind "!") st1 Da D).
      now rewrite Os in IH.
    + specialize (IH st sa (Token_kind "!") st1 Da D).
      now rewrite Os in IH.
  - (* P_number *)
    intros d st st' D. now exists 0%nat.
  - (* P_paren *)
    intros e IH st st' D. simpl in D |- *.
    apply delivers_cons in D as (sa & G1 & D).
    apply delivers_app in D as (sb & De & D). apply delivers_one in D.
    destruct (IH sa sb _ st' De D eq_refl) as [n F].
    rewrite (get_symbols _ _ _ G1) in F.
    exists (S n). rewrite primary_S. eapply failure_after; [exact G1 |].
    decide_kinds. now apply failure_bind.
  - (* P_brace *)
    intros e IH st st' D. simpl in D |- *.
    apply delivers_cons in D as (sa & G1 & D).
    apply delivers_app in D as (sb & De & D). apply delivers_one in D.
    destruct (IH sa sb _ st' De D eq_refl) as [n F].
    rewrite (get_symbols _ _ _ G1) in F.
    exists (S n). rewrite primary_S. eapply failure_after; [exact G1 |].
    decide_kinds. now apply failure_bind.
  - (* P_minus *)
    intros p IH st st' D. simpl in D |- *.
    apply delivers_cons in D as (sa & G1 & D).
    destruct (IH sa st' D) as [n F].
    rewrite (get_symbols _ _ _ G1) in F.
    destruct (outcome_P (symbols st) p) as [a | msg |] eqn:Op; cbn [and_then];
      [now exists 0%nat | |].
    all: exists (S n); rewrite primary_S;
      (eapply failure_after; [exact G1 |]);
      decide_kinds; now apply (failure_bind _ (primary n)).
  - (* P_plus *)
    intros p IH st st' D. simpl in D |- *.
    apply delivers_cons in D as (sa & G1 & D).
    destruct (IH sa st' D) as [n F].
    rewrite (get_symbols _ _ _ G1) in F.
    exists (S n). rewrite primary_S. eapply failure_after; [exact G1 |].
    decide_kinds. exact F.
  - (* P_name *)
    intros s st st' D. simpl in D |- *. apply delivers_one in D.
    exists 1%nat. rewrite primary_S. eapply failure_after; [exact D |].
    decide_kinds. unfold get_value. simpl name.
    rewrite (get_symbols _ _ _ D).
    destruct (find (named s) (symbols st)); simpl; eauto.
  - (* P_sqrt *)
    intros e IH st st' D. simpl in D |- *.
    apply delivers_cons in D as (sa & G1 & D).
    apply delivers_cons in D as (sb & G2 & D).
    apply delivers_app in D as (sc & De & D). apply delivers_one in D.
    assert (Hb : symbols sb = symbols st).
    { now rewrite (get_symbols _ _ _ G2), (get_symbols _ _ _ G1). }
    destruct (IH sb sc _ st' De D eq_refl) as [n F]. rewrite Hb in F.
    destruct (outcome_E (symbols st) e) as [a | msg |] eqn:Oe; cbn [and_then].
    + destruct (Double.ltb a Double.zero) eqn:Z; [| now exists 0%nat].
      rewrite <- Hb in Oe.
      destruct (expression_done e (HE e) sb sc a _ st' De (VE _ _ _ Oe) D eq_refl)
        as [m Hm].
      exists (S (S m)). rewrite primary_S, (bind_val _ _ _ _ _ G1).
      decide_kinds. rewrite eval_function_S. decide_kinds.
      rewrite (bind_val _ _ _ _ _ G2). decide_kinds.
      rewrite (bind_val _ _ _ _ _ Hm), (bind_val _ _ _ _ _ (get_pushed _ st')).
      decide_kinds. rewrite Z. simpl. eauto.
    + exists (S (S n)). rewrite primary_S, (bind_val _ _ _ _ _ G1).
      decide_kinds. rewrite eval_function_S. decide_kinds.
      rewrite (bind_val _ _ _ _ _ G2). decide_kinds.
      now apply (failure_bind _ (expression n)).
    + exists (S (S n)). rewrite primary_S, (bind_val _ _ _ _ _ G1).
      decide_kinds. rewrite eval_function_S. decide_kinds.
      rewrite (bind_val _ _ _ _ _ G2). decide_kinds.
      now apply (failure_bind _ (expression n)).
  - (* P_pow *)
    intros e1 IH1 e2 IH2 st st' D. simpl in D |- *.
    apply delivers_cons in D as (sa & G1 & D).
    apply delivers_cons in D as (sb & G2 & D).
    apply delivers_app in D as (sc & De1 & D).
    apply delivers_cons in D as (sd & G3 & D).
    apply delivers_app in D as (se & De2 & D). apply delivers_one in D.
    assert (Hb : symbols sb = symbols st).
    { now rewrite (get_symbols _ _ _ G2), (get_symbols _ _ _ G1). }
    assert (Hd : symbols sd = symbols st).
    { rewrite (get_symbols _ _ _ G3), (delivers_symbols _ _ _ De1). exact Hb. }
    destruct (IH1 sb sc _ sd De1 G3 eq_refl) as [n1 F1]. rewrite Hb in F1.
    destruct (IH2 sd se _ st' De2 D eq_refl) as [n2 F2]. rewrite Hd in F2.
    destruct (outcome_E (symbols st) e1) as [a | msg |] eqn:O1; cbn [and_then].
    + destruct (outcome_E (symbols st) e2) as [b | msg |] eqn:O2; cbn [and_then];
        [now exists 0%nat | |].
      all: rewrite <- Hb in O1;
        destruct (expression_done e1 (HE e1) sb sc a _ sd De1 (VE _ _ _ O1)
                    G3 eq_refl) as [m1 Hm1];
        exists (S (S (Nat.max m1 n2)));
        rewrite primary_S, (bind_val _ _ _ _ _ G1); decide_kinds;
        rewrite eval_function_S; decide_kinds;
        rewrite (bind_val _ _ _ _ _ G2); decide_kinds;
        rewrite (bind_val _ _ _ _ _
                   (expression_more m1 _ _ _ Hm1 ltac:(discriminate)
                                    (Nat.le_max_l m1 n2))),
                (bind_val _ _ _ _ _ (get_pushed _ sd));
        decide_kinds;
        apply (failure_bind _ (expression (Nat.max m1 n2)));
        apply (failure_more _ (fun k => expression k sd) n2);
        [ intros r L Hr; eapply expression_more; [exact L | exact Hr | lia]
        | exact F2 ].
    + exists (S (S n1)). rewrite primary_S, (bind_val _ _ _ _ _ G1).
      decide_kinds. rewrite eval_function_S. decide_kinds.
      rewrite (bind_val _ _ _ _ _ G2). decide_kinds.
      now apply (failure_bind _ (expression n1)).
    + exists (S (S n1)). rewrite primary_S, (bind_val _ _ _ _ _ G1).
      decide_kinds. rewrite eval_function_S. decide_kinds.
      rewrite (bind_val _ _ _ _ _ G2). decide_kinds.
      now apply (failure_bind _ (expression n1)).
Qed.

(** X19.  On the tokens of any tree of the grammar, followed by a token
    that ends the expression, [expression] ends as the tree does: it
    returns the value of the tree with that token put back; or it throws
    the error of the first operation that fails, in the order left operand,
    right operand, operation, and the symbol table is as before; or it
    reaches an operation of [!] that has no defined result, the conversion
    to [int] of an operand outside the range of [int] or a product of
    [factorial] that is not an [int], as in [13!].  On such input it never
    hangs and throws no other error. *)
Theorem expression_ends_as_its_tree
        (e : Expression) (st st' : State) (t : Token) :
  delivers st (tokens_E e ++ [t]) st' ->
  ends_expression t = true ->
  exists n, forall m, (n <= m)%nat ->
    match outcome_E (symbols st) e with
    | Value v => expression m st = Val v (pushed t st')
    | Error msg =>
        exists st'', expression m st = Throw msg st''
                     /\ symbols st'' = symbols st
    | Unspecified => expression m st = Undefined
    end.
Proof.
  intros D Et.
  destruct (outcome_E (symbols st) e) as [v | msg |] eqn:O.
  - apply (expression_on_tree e st st' t v D Et).
    now apply (proj1 outcome_value).
  - apply delivers_app in D as (s1 & De & D). apply delivers_one in D.
    assert (Et' : ends_term t = true).
    { unfold ends_expression in Et.
      apply andb_true_iff in Et as [Et _].
      now apply andb_true_iff in Et as [Et _]. }
    destruct (proj1 grammar_stops e st s1 t st' De D Et') as [n F].
    rewrite O in F. destruct F as (st'' & F).
    exists n. intros m Hm. exists st''. split.
    + eapply expression_more; [exact F | discriminate | exact Hm].
    + pose proof (expression_keeps n st) as K. now rewrite F in K.
  - apply delivers_app in D as (s1 & De & D). apply delivers_one in D.
    assert (Et' : ends_term t = true).
    { unfold ends_expression in Et.
      apply andb_true_iff in Et as [Et _].
      now apply andb_true_iff in Et as [Et _]. }
    destruct (proj1 grammar_stops e st s1 t st' De D Et') as [n F].
    rewrite O in F. simpl in F.
    exists n. intros m Hm.
    eapply expression_more; [exact F | discriminate | exact Hm].
Qed.

(* ================================================================= *)
(** ** The loop of calculate *)

Lemma bind_assoc {A B C} (m : M A) (f : A -> M B) (g : B -> M C) (st : State) :
  bind (bind m f) g st = bind m (fun x => bind (f x) g) st.
Proof. unfold bind. now destruct (m st). Qed.

Lemma calculate_S (n : nat) (st : State) :
  calculate (S n) st =
  if failed (cin st) then ([], InputFailed)
  else
    match calculate_step n st with
    | Val None _ => ([], Quit)
    | Val (Some out) st' =>
        let '(outs, e) := calculate n st' in (out :: outs, e)
    | Throw msg st' =>
        let '(outs, e) := calculate n (clean_up st') in
        (OutError msg :: outs, e)
    | Hang => ([], Hangs)
    | Undefined => ([], UndefinedBehaviour)
    | OutOfFuel => ([], FuelExhausted)
    end.
Proof. reflexivity. Qed.

(** A token taken from the input leaves the buffer empty. *)
Lemma get_from_input (st st' : State) (t : Token) :
  buffer st = [] -> get st = Val t st' ->
  buffer st' = [] /\ failed (cin st) = false.
Proof.
  intros B G. unfold get in G. rewrite B in G.
  destruct (failed (cin st)); [discriminate |].
  destruct (skip_blanks (chars (cin st))) as [[ch rest] |]; [| discriminate].
  split; [| reflexivity].
  repeat match type of G with
         | (if ?c then _ else _) = _ => destruct c
         | (let '(_, _) := ?p in _) = _ => destruct p
         end; inversion G; subst; simpl; exact B.
Qed.

(** A print token taken from the input leaves the stream in a good state. *)
Lemma print_from_input (st st' : State) (t : Token) :
  buffer st = [] -> get st = Val t st' -> kind t = t_print ->
  failed (cin st') = false.
Proof.
  intros B G K. unfold get in G. rewrite B in G.
  destruct (failed (cin st)); [discriminate |].
  destruct (skip_blanks (chars (cin st))) as [[ch rest] |]; [| discriminate].
  destruct ((ch =? t_print)%char || (ch =? newline)%char).
  { now inversion G. }
  destruct (is_self_kind ch) eqn:Hself.
  { inversion G; subst. simpl in K. subst ch. discriminate Hself. }
  destruct ((ch =? ".")%char || isdigit ch).
  { destruct (extract_double _) as [val is'].
    inversion G; subst. discriminate K. }
  destruct (isalpha ch); [| discriminate].
  destruct (read_name rest) as [s is'].
  inversion G; subst; clear G. exfalso. revert K. unfold keyword_token.
  repeat match goal with
         | |- context [(?w =? ?key)%string] =>
             destruct (w =? key)%string; [discriminate |]
         end.
  discriminate.
Qed.

(** After a print token the body of the loop is the body run on what
    follows the token. *)
Lemma calculate_step_after_print (n : nat) (st st1 : State) (t : Token) :
  get st = Val t st1 -> kind t = t_print ->
  refines (calculate_step n st1) (calculate_step (S n) st).
Proof.
  intros G K. unfold calculate_step at 2. rewrite (bind_val _ _ _ _ _ G).
  cbn [discard_prints]. rewrite K.
  change (t_print =? t_print)%char with true. cbv iota.
  rewrite bind_assoc. unfold calculate_step.
  repeat fuel_step; auto using statement_fuel.
Qed.

(** A print token is passed over: the loop writes what it writes on the
    input after the token. *)
Lemma calculate_after_print
      (n : nat) (st st1 : State) (t : Token) (outs : list Output) (e : Exit) :
  failed (cin st) = false ->
  get st = Val t st1 -> kind t = t_print ->
  calculate n st1 = (outs, e) -> e <> FuelExhausted ->
  calculate (S n) st = (outs, e) /\ failed (cin st1) = false.
Proof.
  intros F G K E He.
  assert (F1 : failed (cin st1) = false).
  { destruct (buffer st) as [| t0 b] eqn:B.
    - eapply print_from_input; eauto.
    - rewrite (get_buffered _ _ _ B) in G. inversion G; subst. exact F. }
  split; [| exact F1].
  destruct n as [| n]; [simpl in E; inversion E; subst; congruence |].
  rewrite calculate_S in E |- *. rewrite F. rewrite F1 in E.
  destruct (calculate_step_after_print n st st1 t G K) as [R | R].
  - rewrite R in E. inversion E; subst. congruence.
  - rewrite <- R.
    destruct (calculate_step n st1) as [[out |] st' | msg st' | | |];
      try exact E.
    + destruct (calculate n st') as [outs' e'] eqn:E'.
      inversion E; subst.
      now rewrite (calculate_more n (S n) st' outs' e E' He ltac:(lia)).
    + destruct (calculate n (clean_up st')) as [outs' e'] eqn:E'.
      inversion E; subst.
      now rewrite (calculate_more n (S n) (clean_up st') outs' e E' He
                     ltac:(lia)).
Qed.

(** X20.  Empty statements write nothing: when the next tokens are print
    tokens ([;] or the end of a line), however many, [calculate] writes
    what it writes on the input after them and ends in the same way. *)
Theorem empty_statements_write_nothing (l : list Token) :
  forall (n : nat) (st st1 : State) (outs : list Output) (e : Exit),
    failed (cin st) = false ->
    delivers st l st1 ->
    forallb (fun t => (kind t =? t_print)%char) l = true ->
    calculate n st1 = (outs, e) -> e <> FuelExhausted ->
    calculate (List.length l + n) st = (outs, e).
Proof.
  induction l as [| t l IH]; intros n st st1 outs e F D P E He.
  - apply delivers_nil in D. now subst.
  - apply delivers_cons in D as (s1 & G & D). simpl in P.
    apply andb_true_iff in P as (K & P). apply Ascii.eqb_eq in K.
    assert (F1 : failed (cin s1) = false).
    { destruct (buffer st) as [| t0 b] eqn:B.
      - eapply print_from_input; eauto.
      - rewrite (get_buffered _ _ _ B) in G. inversion G; subst. exact F. }
    simpl. eapply calculate_after_print; eauto.
Qed.

(** X21.  A numeric literal that cannot be converted ([.] alone, [1e], a
    number too large for a double) makes [cin >> val] fail; [get] returns a
    number token all the same, the statement takes it as its first primary,
    and the next call of [get] never returns: [calculate] writes nothing and
    hangs. *)
Theorem failed_number_hangs (st st1 : State) (t : Token) :
  buffer st = [] ->
  get st = Val t st1 -> kind t = t_number -> failed (cin st1) = true ->
  forall fuel, (5 <= fuel)%nat -> calculate fuel st = ([], Hangs).
Proof.
  intros B G K F fuel Hf.
  destruct (get_from_input st st1 t B G) as (B1 & F0).
  assert (H1 : get st1 = Hang).
  { unfold get. now rewrite B1, F. }
  assert (P : primary 1 (pushed t st1) = Val (value t) st1).
  { rewrite primary_S, (bind_val _ _ _ _ _ (get_pushed t st1)), K.
    decide_kinds. reflexivity. }
  assert (S2 : secondary 2 (pushed t st1) = Hang).
  { rewrite secondary_S, (bind_val _ _ _ _ _ P). unfold bind. now rewrite H1. }
  assert (T3 : term 3 (pushed t st1) = Hang).
  { rewrite term_S. unfold bind. now rewrite S2. }
  assert (E4 : expression 4 (pushed t st1) = Hang).
  { rewrite expression_S. unfold bind. now rewrite T3. }
  assert (St : statement 4 (pushed t st1) = Hang).
  { unfold statement. rewrite (bind_val _ _ _ _ _ (get_pushed t st1)), K.
    decide_kinds.
    change ((putback t ;;; expression 4) st1) with (expression 4 (pushed t st1)).
    exact E4. }
  assert (C : calculate_step 4 st = Hang).
  { unfold calculate_step. rewrite (bind_val _ _ _ _ _ G).
    cbn [discard_prints]. rewrite K. decide_kinds.
    unfold bind at 1. unfold ret at 1. rewrite K. decide_kinds.
    unfold bind at 1. unfold putback at 1.
    fold (pushed t st1). unfold bind. now rewrite St. }
  apply calculate_more with (n := 5%nat); [| discriminate | exact Hf].
  rewrite calculate_S. now rewrite F0, C.
Qed.

(* ================================================================= *)
(** ** Sessions *)

Lemma delivers_from_input (l : list Token) :
  forall st st', buffer st = [] -> delivers st l st' -> buffer st' = [].
Proof.
  induction l as [| t l IH]; intros st st' B D.
  - apply delivers_nil in D. now subst.
  - apply delivers_cons in D as (s1 & G & D).
    apply (IH s1 st'); [| exact D].
    now destruct (get_from_input st s1 t B G).
Qed.

Lemma get_set_symbols (tbl : Symbol_table) (st st' : State) (t : Token) :
  get st = Val t st' ->
  get (set_symbols tbl st) = Val t (set_symbols tbl st').
Proof.
  unfold get. simpl. destruct (buffer st) as [| t0 b].
  - destruct (failed (cin st)); [discriminate |].
    destruct (skip_blanks (chars (cin st))) as [[ch rest] |]; [| discriminate].
    repeat match goal with
           | |- (if ?c then _ else _) = _ -> _ => destruct c
           | |- (let '(_, _) := ?p in _) = _ -> _ => destruct p
           end; intros G; inversion G; subst; reflexivity.
  - intros G. inversion G; subst. reflexivity.
Qed.

Lemma delivers_set_symbols (tbl : Symbol_table) (l : list Token) :
  forall st st',
    delivers st l st' -> delivers (set_symbols tbl st) l (set_symbols tbl st').
Proof.
  induction l as [| t l IH]; intros st st' D.
  - apply delivers_nil in D. subst. reflexivity.
  - apply delivers_cons in D as (s1 & G & D).
    eapply delivers_get; [apply get_set_symbols; exact G | now apply IH].
Qed.

Lemma set_symbols_same (st : State) (tbl : Symbol_table) :
  symbols st = tbl -> set_symbols tbl st = st.
Proof. intros <-. now destruct st. Qed.

(** What [statement] does on the tokens of a statement followed by a print
    token. *)
Lemma statement_written (s : Statement) (st st' : State)
      (out : Output) (tbl' : Symbol_table) :
  delivers st (tokens_St s ++ [Token_kind t_print]) st' ->
  written (symbols st) s = Some (out, tbl') ->
  exists n, forall m, (n <= m)%nat ->
    match out with
    | OutResult v =>
        statement m st
        = Val v (set_symbols tbl' (pushed (Token_kind t_print) st'))
    | OutError msg =>
        statement m st = Throw msg (pushed (Token_kind t_print) st')
        /\ tbl' = symbols st
    | _ => False
    end.
Proof.
  intros D W.
  assert (Hsym : symbols st' = symbols st) by (eapply delivers_symbols; eauto).
  destruct s as [e | constant x e | x e]; simpl in D, W.
  - destruct (value_E (symbols st) e) as [v |] eqn:V; [| discriminate].
    inversion W; subst; clear W.
    destruct (expression_statement_on_tree e st st' _ v D eq_refl eq_refl V)
      as [n Hn].
    exists n. intros m Hm. destruct (Hn m Hm) as (-> & _).
    now rewrite set_symbols_same.
  - destruct (value_E (symbols st) e) as [v |] eqn:V; [| discriminate].
    destruct (declaration_on_tree constant x e st st' _ v D eq_refl V)
      as [n Hn].
    exists n. intros m Hm. rewrite (Hn m Hm).
    destruct (existsb (named x) (symbols st)); inversion W; subst; auto.
  - destruct (value_E (symbols st) e) as [v |] eqn:V; [| discriminate].
    destruct (existsb (named x) (symbols st)) eqn:Hx; [| discriminate].
    apply declared_In in Hx.
    destruct (assignment_on_tree x e st st' _ v D eq_refl V Hx) as [n Hn].
    exists n. intros m Hm. rewrite (Hn m Hm).
    destruct (set_value_in (symbols st) x v); inversion W; subst; auto.
Qed.

(** The first token of a statement is none of those [calculate] handles
    itself. *)
Lemma statement_first_token (s : Statement) :
  exists t l, tokens_St s = t :: l /\
              (kind t =? t_print)%char = false /\
              (kind t =? t_quit)%char = false /\
              (kind t =? t_help)%char = false /\
              (kind t =? t_symbols)%char = false.
Proof.
  destruct s as [e | constant x e | x e]; simpl.
  - destruct (proj1 tokens_of_trees e) as ((t & l & E & P) & _).
    exists t, l. split; [exact E |].
    unfold starts_primary in P. simpl in P.
    repeat (apply orb_prop in P as [P | P];
            [apply Ascii.eqb_eq in P; rewrite P; repeat split; reflexivity |]).
    discriminate.
  - eexists; eexists. split; [reflexivity |].
    destruct constant; repeat split; reflexivity.
  - eexists; eexists. split; [reflexivity |]. repeat split; reflexivity.
Qed.

Lemma written_output (tbl tbl' : Symbol_table) (s : Statement) (out : Output) :
  written tbl s = Some (out, tbl') ->
  (exists v, out = OutResult v) \/ (exists msg, out = OutError msg).
Proof.
  destruct s as [e | constant x e | x e]; simpl;
    destruct (value_E tbl e) as [v |]; try discriminate.
  - intros H; inversion H; eauto.
  - destruct (existsb (named x) tbl); intros H; inversion H; eauto.
  - destruct (existsb (named x) tbl); [| discriminate].
    destruct (set_value_in tbl x v); intros H; inversion H; eauto.
Qed.

(** One turn of the loop of [calculate] on a statement: its line is written
    and the loop goes on with the table the statement leaves, the print
    token back in the buffer. *)
Lemma calculate_statement (s : Statement) (st st' : State)
      (out : Output) (tbl' : Symbol_table) :
  buffer st = [] ->
  delivers st (tokens_St s ++ [Token_kind t_print]) st' ->
  written (symbols st) s = Some (out, tbl') ->
  exists n, forall m, (n <= m)%nat ->
    calculate (S m) st
    = let '(outs, e) :=
        calculate m (set_symbols tbl' (pushed (Token_kind t_print) st')) in
      (out :: outs, e).
Proof.
  intros B D W.
  destruct (statement_first_token s) as (t0 & l & E0 & K1 & K2 & K3 & K4).
  pose proof D as D0. rewrite E0 in D0. simpl in D0.
  apply delivers_cons in D0 as (s1 & G0 & D1).
  destruct (get_from_input st s1 t0 B G0) as (_ & F).
  assert (Dp : delivers (pushed t0 s1)
                        (tokens_St s ++ [Token_kind t_print]) st').
  { rewrite E0. simpl. now apply delivers_pushed. }
  assert (Wp : written (symbols (pushed t0 s1)) s = Some (out, tbl')).
  { simpl. now rewrite (get_symbols _ _ _ G0). }
  destruct (statement_written s _ st' out tbl' Dp Wp) as [n Hn].
  exists (S n). intros [| m] Hm; [lia |].
  specialize (Hn (S m) ltac:(lia)).
  rewrite calculate_S, F.
  assert (C : calculate_step (S m) st
              = (d <- statement (S m) ;; ret (Some (OutResult d)))
                  (pushed t0 s1)).
  { unfold calculate_step. rewrite (bind_val _ _ _ _ _ G0).
    cbn [discard_prints]. rewrite K1. unfold bind at 1. unfold ret at 1.
    rewrite K2, K3, K4. reflexivity. }
  rewrite C.
  destruct (written_output _ _ _ _ W) as [(v & ->) | (msg & ->)].
  - rewrite (bind_val _ _ _ _ _ Hn). reflexivity.
  - destruct Hn as (Hn & ->). unfold bind. rewrite Hn.
    simpl symbols. rewrite (get_symbols _ _ _ G0).
    replace (clean_up (pushed (Token_kind t_print) st'))
      with (set_symbols (symbols st) (pushed (Token_kind t_print) st'));
      [reflexivity |].
    rewrite set_symbols_same; [reflexivity |].
    simpl. eapply delivers_symbols; eauto.
Qed.

(** The loop of [calculate] on the tokens of a session. *)
Lemma calculate_session (l : list Statement) :
  forall st st' outs,
    buffer st = [] ->
    delivers st (session_tokens l) st' ->
    session (symbols st) l = Some outs ->
    exists n, calculate n st = (outs, Quit).
Proof.
  induction l as [| s l IH]; intros st st' outs B D Hs.
  - simpl in Hs. inversion Hs; subst; clear Hs.
    apply delivers_one in D.
    destruct (get_from_input st st' _ B D) as (_ & F).
    exists 2%nat. rewrite calculate_S, F. unfold calculate_step.
    rewrite (bind_val _ _ _ _ _ D). reflexivity.
  - simpl in Hs.
    destruct (written (symbols st) s) as [[out tbl'] |] eqn:W; [| discriminate].
    destruct (session tbl' l) as [outs' |] eqn:Hs'; [| discriminate].
    inversion Hs; subst; clear Hs.
    unfold session_tokens in D. simpl in D.
    rewrite <- !app_assoc in D. rewrite app_assoc in D.
    apply delivers_app in D as (sa & Ds & Dl).
    fold (session_tokens l) in Dl.
    destruct (calculate_statement s st sa out tbl' B Ds W) as [n1 H1].
    pose proof (delivers_from_input _ _ _ B Ds) as Ba.
    (* the print token that ended the statement was read from the input *)
    assert (Fa : failed (cin sa) = false).
    { apply delivers_app in Ds as (sp & Dsp & Dp). apply delivers_one in Dp.
      eapply print_from_input; [| exact Dp | reflexivity].
      exact (delivers_from_input _ _ _ B Dsp). }
    destruct (IH (set_symbols tbl' sa) (set_symbols tbl' st') outs')
      as [n2 H2]; [exact Ba | now apply delivers_set_symbols | exact Hs' |].
    assert (Gn : get (set_symbols tbl' (pushed (Token_kind t_print) sa))
                 = Val (Token_kind t_print) (set_symbols tbl' sa)).
    { destruct sa. reflexivity. }
    destruct (calculate_after_print
                n2 (set_symbols tbl' (pushed (Token_kind t_print) sa))
                (set_symbols tbl' sa) (Token_kind t_print) outs' Quit
                Fa Gn eq_refl H2)
      as (H3 & _); [discriminate |].
    exists (S (Nat.max n1 (S n2))).
    rewrite H1 by lia.
    now rewrite (calculate_more (S n2) (Nat.max n1 (S n2)) _ outs' Quit H3
                   ltac:(discriminate) ltac:(lia)).
Qed.

(** X22.  A session whose statements all have a line: when the input is
    made of statements of the grammar, each ended by [;] or the end of a
    line, followed by the quit command, and every statement has a line --
    its expression has a value and an assigned name is declared -- then
    [main] writes the lines of the statements in order, each statement run
    on the symbol table the ones before it leave, and returns at the quit
    command.  The error of a second declaration or of a write to a
    constant is one of these lines: the statements after it run as if it
    had not been there. *)
Theorem session_runs
        (input : string) (l : list Statement) (st' : State)
        (outs : list Output) :
  delivers (startup input) (session_tokens l) st' ->
  session startup_table l = Some outs ->
  exists n, forall m, (n <= m)%nat -> main m input = (outs, Quit).
Proof.
  intros D Hs.
  destruct (calculate_session l (startup input) st' outs eq_refl D Hs)
    as [n Hn].
  exists n. intros m Hm. rewrite main_calculate.
  apply calculate_more with (n := n); [exact Hn | discriminate | exact Hm].
Qed.

End Calculator.

(* ================================================================= *)
(** ** Instances *)

(** C1, as stated, fails: whatever [std::pow] is and whatever the fuel, the
    statement [-3!] does not return -6. *)
Lemma minus_three_factorial_is_not_minus_six :
  ~ (exists pw n st',
        statement pw n (startup (line "-3!")) = Val (Double.of_Z (-6)) st').
Proof.
  intros (pw & n & st' & H).
  assert (H1 : statement pw (Nat.max n 20) (startup (line "-3!"))
               = Val (Double.of_Z (-6)) st').
  { apply statement_more with (n := n); [exact H | discriminate | lia]. }
  assert (H2 : statement pw (Nat.max n 20) (startup (line "-3!"))
               = Throw "cannot get factorial of negative number."
                       (mk_State [] (mk_istream (line "") false) startup_table)).
  { apply statement_more with (n := 20%nat);
      [vm_compute; reflexivity | discriminate | lia]. }
  rewrite H1 in H2. discriminate H2.
Qed.

(** [2+3*4], read from the characters, is the tree of the sum of 2 and the
    product of 3 and 4, and [expression] returns 14. *)
Lemma precedence_and_associativity_witness :
  exists n, forall m, (n <= m)%nat ->
    expression pow_nonneg_int m (startup (line "2+3*4"))
    = Val (Double.of_Z 14) line_taken.
Proof.
  refine (proj1 (precedence_and_associativity pow_nonneg_int
                   two_plus_three_times_four
                   (startup (line "2+3*4"))
                   (mk_State [] (mk_istream "" false) startup_table)
                   (Token_kind t_print) (Double.of_Z 14) _ _ _ _)).
  - vm_compute; reflexivity.
  - vm_compute; reflexivity.
  - reflexivity.
  - vm_compute; reflexivity.
Defined.

(** In the startup table a write to [pi] is refused and [pi] keeps its
    value 3.1415926535. *)
Lemma set_value_cases_witness :
  set_value "pi" (Double.of_Z 4) (startup "")
  = Throw "trying to write to constant" (startup "") /\
  get_value "pi" (startup "")
  = Val (Double.of_decimal 31415926535 (-10)) (startup "").
Proof.
  apply (proj1 (set_value_cases (startup "") "pi"%string (Double.of_Z 4)
                  startup_distinct)
               (mk_Var "pi" (Double.of_decimal 31415926535 (-10)) true)).
  - simpl. auto.
  - reflexivity.
  - reflexivity.
Defined.

(** *** Instances of the properties of the other functions *)

(** A new name [x] is found after its declaration. *)
Lemma define_then_lookup_witness :
  get_value "x"
    (set_symbols (startup_table ++ [mk_Var "x" (Double.of_Z 2) false])
                 (startup ""))
  = Val (Double.of_Z 2)
        (set_symbols (startup_table ++ [mk_Var "x" (Double.of_Z 2) false])
                     (startup "")).
Proof.
  refine (proj1 (proj2 (define_then_lookup "x" (Double.of_Z 2) false
                          (startup "") _))).
  simpl. intros H.
  repeat (destruct H as [H | H]; [discriminate H |]). exact H.
Defined.

(** A write to [k] in the startup table. *)
Lemma set_value_changes_one_value_witness :
  value_of [ mk_Var "pi" (Double.of_decimal 31415926535 (-10)) true;
             mk_Var "e" (Double.of_decimal 27182818284 (-10)) true;
             mk_Var "k" (Double.of_Z 5) false ] "k"
  = Some (Double.of_Z 5).
Proof.
  refine (proj1 (proj2 (proj2 (proj2 (proj2
            (set_value_changes_one_value "k" (Double.of_Z 5) (startup "")
               (mk_State [] (mk_istream "" false)
                  [ mk_Var "pi" (Double.of_decimal 31415926535 (-10)) true;
                    mk_Var "e" (Double.of_decimal 27182818284 (-10)) true;
                    mk_Var "k" (Double.of_Z 5) false ])
               _)))))).
  reflexivity.
Defined.

(** 12! is returned; 13! is not an [int]. *)
Lemma factorial_returns_from_0_to_12_witness :
  factorial 12 = Some (inr (Double.of_Z 479001600)) /\ factorial 13 = None.
Proof.
  split.
  - refine (proj1 (proj2 (factorial_returns_from_0_to_12 12 _)) _).
    + unfold INT_MIN, INT_MAX. lia.
    + lia.
  - refine (proj1 (proj2 (proj2 (factorial_returns_from_0_to_12 13 _))) _).
    + unfold INT_MIN, INT_MAX. lia.
    + lia.
Defined.

(** Two spaces before [1;]. *)
Lemma get_passes_over_blanks_witness :
  get (mk_State [] (mk_istream ("  " ++ "1;") false) [])
  = get (mk_State [] (mk_istream "1;" false) []).
Proof.
  refine (get_passes_over_blanks "  " "1;" [] _). reflexivity.
Defined.

(** On the empty input the program hangs. *)
Lemma get_never_returns_at_end_of_input_witness :
  calculate pow_nonneg_int 1 (startup "") = ([], Hangs).
Proof.
  refine (proj2 (get_never_returns_at_end_of_input pow_nonneg_int (startup "")
                   _ _) _ 0%nat).
  - reflexivity.
  - right. reflexivity.
  - reflexivity.
Defined.

(** A print token under a [+] in the buffer. *)
Lemma ignore_stops_at_buffered_token_witness :
  ignore t_print
    (mk_State [Token_kind "+"; Token_kind t_print; Token_kind "*"]
              (mk_istream "1;" false) [])
  = mk_State [Token_kind t_print; Token_kind "*"] (mk_istream "1;" false) [].
Proof.
  refine (proj1 (ignore_stops_at_buffered_token t_print
                   (mk_State [Token_kind "+"; Token_kind t_print; Token_kind "*"]
                             (mk_istream "1;" false) [])
                   [Token_kind "+"] [Token_kind "*"] (Token_kind t_print)
                   _ _ _)); reflexivity.
Defined.

(** The rest of a line and the statement after it are skipped up to the
    [;]. *)
Lemma ignore_reads_up_to_the_character_witness :
  ignore t_print (startup (line "1 2" ++ "3; 4"))
  = mk_State [] (mk_istream " 4" false) startup_table.
Proof.
  refine (ignore_reads_up_to_the_character t_print
            (startup (line "1 2" ++ "3; 4")) (line "1 2" ++ "3") "; 4"
            _ _ _ _ _ _).
  - reflexivity.
  - reflexivity.
  - reflexivity.
  - reflexivity.
  - reflexivity.
  - right. exists " 4"%string. reflexivity.
Defined.

(** The word [x1] gives a name token. *)
Lemma tokens_made_from_input_witness :
  In (kind (Token_name t_name "x1")) input_kinds.
Proof.
  refine (proj1 (proj1 (tokens_made_from_input (startup "x1 + 2")
                          (mk_State [] (mk_istream " + 2" false) startup_table)
                          (Token_name t_name "x1") _ _))); reflexivity.
Defined.

(** [1/0] throws and the startup table is kept. *)
Lemma failing_statement_keeps_symbols_witness :
  symbols (mk_State [Token_kind t_print] (mk_istream "" false) startup_table)
  = symbols (startup (line "1/0")).
Proof.
  refine (failing_statement_keeps_symbols pow_nonneg_int 10
            (startup (line "1/0"))
            (mk_State [Token_kind t_print] (mk_istream "" false) startup_table)
            "divide by zero" _).
  vm_compute. reflexivity.
Defined.

Lemma division_by_zero_throws_witness :
  exists n, forall m, (n <= m)%nat ->
    term pow_nonneg_int m (startup (line "1/0"))
    = Throw "divide by zero" line_taken.
Proof.
  refine (proj1 (division_by_zero_throws pow_nonneg_int
                   (T_secondary (S_primary (P_number (Double.of_Z 1))))
                   (S_primary (P_number (Double.of_Z 0)))
                   (startup (line "1/0")) input_taken (Token_kind t_print)
                   (Double.of_Z 1) (Double.of_Z 0) _ _ _ _ _)).
  - vm_compute. reflexivity.
  - reflexivity.
  - reflexivity.
  - reflexivity.
  - vm_compute. reflexivity.
Defined.

(** After [2+3*4] the newline is the one token in the buffer. *)
Lemma statement_leaves_its_terminator_witness :
  exists t, buffer line_taken = [t] /\ ends_expression t = true
            /\ get line_taken = Val t (set_buffer [] line_taken).
Proof.
  refine (statement_leaves_its_terminator pow_nonneg_int 10
            (startup (line "2+3*4")) line_taken (Double.of_Z 14) _ _).
  - unfold at_most. simpl. lia.
  - vm_compute. reflexivity.
Defined.

Lemma expression_statement_returns_its_value_witness :
  exists n, forall m, (n <= m)%nat ->
    statement pow_nonneg_int m (startup (line "2+3*4"))
    = Val (Double.of_Z 14) line_taken
    /\ symbols line_taken = symbols (startup (line "2+3*4")).
Proof.
  refine (expression_statement_returns_its_value pow_nonneg_int
            two_plus_three_times_four (startup (line "2+3*4")) input_taken
            (Token_kind t_print) (Double.of_Z 14) _ _ _ _).
  - vm_compute. reflexivity.
  - reflexivity.
  - reflexivity.
  - vm_compute. reflexivity.
Defined.

(** [let x = 2] adds [x] to the startup table. *)
Lemma declaration_defines_after_evaluating_witness :
  exists n, forall m, (n <= m)%nat ->
    statement pow_nonneg_int m (startup (line "let x = 2"))
    = Val (Double.of_Z 2)
          (mk_State [Token_kind t_print] (mk_istream "" false)
                    (startup_table ++ [mk_Var "x" (Double.of_Z 2) false])).
Proof.
  refine (declaration_defines_after_evaluating pow_nonneg_int false "x"
            (number_tree 2) (startup (line "let x = 2")) input_taken
            (Token_kind t_print) (Double.of_Z 2) _ _ _).
  - vm_compute. reflexivity.
  - reflexivity.
  - reflexivity.
Defined.

(** [k = 2] writes [k]. *)
Lemma assignment_writes_after_evaluating_witness :
  exists n, forall m, (n <= m)%nat ->
    statement pow_nonneg_int m (startup (line "k = 2"))
    = Val (Double.of_Z 2)
          (mk_State [Token_kind t_print] (mk_istream "" false)
             [ mk_Var "pi" (Double.of_decimal 31415926535 (-10)) true;
               mk_Var "e" (Double.of_decimal 27182818284 (-10)) true;
               mk_Var "k" (Double.of_Z 2) false ]).
Proof.
  refine (assignment_writes_after_evaluating pow_nonneg_int "k"
            (number_tree 2) (startup (line "k = 2")) input_taken
            (Token_kind t_print) (Double.of_Z 2) _ _ _ _).
  - vm_compute. reflexivity.
  - reflexivity.
  - reflexivity.
  - simpl. auto.
Defined.

(** [let 1]: a number where the name is expected. *)
Lemma malformed_statement_throws_witness :
  statement pow_nonneg_int 0 (startup "let 1;")
  = Throw "name expected in declaration"
          (mk_State [] (mk_istream ";" false) startup_table).
Proof.
  refine (proj1 (proj1 (malformed_statement_throws pow_nonneg_int 0
                          (Token_kind t_decl)
                          (Token_value t_number (Double.of_Z 1))
                          (startup "let 1;")
                          (mk_State [] (mk_istream " 1;" false) startup_table)
                          (mk_State [] (mk_istream ";" false) startup_table)
                          _ _) _) _).
  - reflexivity.
  - vm_compute. reflexivity.
  - right. reflexivity.
  - discriminate.
Defined.

(** [(1;]: the [;] is taken where [)] is expected. *)
Lemma missing_delimiter_throws_witness :
  exists n, forall m, (n <= m)%nat ->
    primary pow_nonneg_int m (startup "(1;2")
    = Throw "')' expected" (mk_State [] (mk_istream "2" false) startup_table).
Proof.
  refine (proj1 (missing_delimiter_throws pow_nonneg_int (number_tree 1)
                   (startup "(1;2")
                   (mk_State [] (mk_istream "1;2" false) startup_table)
                   (mk_State [] (mk_istream "2" false) startup_table)
                   (Token_kind "(") (Token_kind t_print) (Double.of_Z 1)
                   _ _ _) _ _ _).
  - reflexivity.
  - reflexivity.
  - reflexivity.
  - reflexivity.
  - vm_compute. reflexivity.
  - discriminate.
Defined.

(** [1/0]: the division is the operation that fails; [13!]: the product
    of [factorial] is not an [int]. *)
Lemma expression_ends_as_its_tree_witness :
  (exists n, forall m, (n <= m)%nat ->
     exists st'',
       expression pow_nonneg_int m (startup (line "1/0"))
       = Throw "divide by zero" st''
       /\ symbols st'' = symbols (startup (line "1/0"))) /\
  (exists n, forall m, (n <= m)%nat ->
     expression pow_nonneg_int m (startup (line "13!")) = Undefined).
Proof.
  split.
  - refine (expression_ends_as_its_tree pow_nonneg_int one_by_zero
              (startup (line "1/0")) input_taken (Token_kind t_print) _ _).
    + vm_compute. reflexivity.
    + reflexivity.
  - refine (expression_ends_as_its_tree pow_nonneg_int thirteen_factorial
              (startup (line "13!")) input_taken (Token_kind t_print) _ _).
    + vm_compute. reflexivity.
    + reflexivity.
Defined.

(** Two empty statements before the quit command. *)
Lemma empty_statements_write_nothing_witness :
  calculate pow_nonneg_int (2 + 2) (startup ";;q") = ([], Quit).
Proof.
  refine (empty_statements_write_nothing pow_nonneg_int
            [Token_kind t_print; Token_kind t_print] 2 (startup ";;q")
            (startup "q") [] Quit _ _ _ _ _).
  - reflexivity.
  - vm_compute. reflexivity.
  - reflexivity.
  - vm_compute. reflexivity.
  - discriminate.
Defined.

(** A decimal point alone. *)
Lemma failed_number_hangs_witness :
  calculate pow_nonneg_int 5 (startup ".") = ([], Hangs).
Proof.
  refine (failed_number_hangs pow_nonneg_int (startup ".")
            (mk_State [] (mk_istream "" true) startup_table)
            (Token_value t_number Double.zero) _ _ _ _ 5%nat _).
  - reflexivity.
  - vm_compute. reflexivity.
  - reflexivity.
  - reflexivity.
  - lia.
Defined.

(** A declaration, a use of the declared name, the quit command. *)
Lemma session_runs_witness :
  exists n, forall m, (n <= m)%nat ->
    main pow_nonneg_int m "let x = 2; x * 3; quit"
    = ([OutResult (Double.of_Z 2); OutResult (Double.of_Z 6)], Quit).
Proof.
  refine (session_runs pow_nonneg_int "let x = 2; x * 3; quit"
            [St_declaration false "x" (number_tree 2);
             St_expression x_times_three]
            (mk_State [] (mk_istream "uit" false) startup_table)
            [OutResult (Double.of_Z 2); OutResult (Double.of_Z 6)] _ _).
  - vm_compute. reflexivity.
  - vm_compute. reflexivity.
Defined.
